(** * ValidatorSet (angine/types/validator_set.go)

    A shallow embedding of the validator set of the consensus engine:
    the address-sorted registry, the weighted round-robin rotation
    ([IncrementAccum]) and the commit verifier ([VerifyCommit]).

    Go objects reached through [*Validator] pointers live in an explicit
    store; a [ValidatorSet] holds pointers into it, so that the in-place
    updates of [IncrementAccum] and the sharing introduced by [Copy] are
    visible in the model.  A Go panic (nil dereference, index out of
    range) is the failure of the store monad. *)

From Stdlib Require Import ZArith List Lia Bool Sorted Permutation.
From Stdlib.Strings Require Import Byte String.
From stdpp Require Import base option list sorting.
Import ListNotations.

Local Open Scope Z_scope.

(** * Part I: the program *)

(** ** Machine integers

    [def.INT] is declared outside this file; the conversions
    [accumComparable(val.Accum)] (to [int64]) and [int(times - 1)] fix it
    as a 64-bit signed integer.  Values are kept in [Z]; every arithmetic
    operation of the source wraps explicitly. *)

Module Int64.

Definition min_signed : Z := - 2 ^ 63.
Definition max_signed : Z := 2 ^ 63 - 1.

Definition wrap (z : Z) : Z := (z + 2 ^ 63) mod 2 ^ 64 - 2 ^ 63.

Definition in_range (z : Z) : Prop := min_signed <= z <= max_signed.

Definition add (a b : Z) : Z := wrap (a + b).
Definition sub (a b : Z) : Z := wrap (a - b).
Definition mul (a b : Z) : Z := wrap (a * b).
(** Go's [/] truncates toward zero. *)
Definition quot (a b : Z) : Z := wrap (Z.quot a b).

End Int64.

(** ** Byte strings

    [bytes.Compare] is the lexicographic comparison of two byte slices,
    with result -1, 0 or +1. *)

Fixpoint bytes_Compare (a b : list byte) : Z :=
  match a, b with
  | [], [] => 0
  | [], _ :: _ => -1
  | _ :: _, [] => 1
  | x :: a', y :: b' =>
      match N.compare (Byte.to_N x) (Byte.to_N y) with
      | Lt => -1
      | Gt => 1
      | Eq => bytes_Compare a' b'
      end
  end.

(** ** Validators and the store *)

(** The key material behind a [crypto.PubKey] handle. *)
Definition crypto_PubKey : Type := list byte.

(** Modelled from the spec: the [Validator] struct is declared in
    validator.go, which is not part of the sources.  Section 3 gives its
    fields: address, public key handle, voting power and the mutable
    accum counter. *)
Record Validator : Type := mkValidator {
  Address : list byte;
  PubKey : crypto_PubKey;
  VotingPower : Z;
  Accum : Z
}.

Definition with_Accum (v : Validator) (a : Z) : Validator :=
  {| Address := Address v; PubKey := PubKey v;
     VotingPower := VotingPower v; Accum := a |}.

(** A [*Validator] is an index into the store; [nil] is [None] of
    [option ptr]. *)
Abbreviation ptr := nat (only parsing).
Abbreviation Store := (list Validator) (only parsing).

Definition M (A : Type) : Type := Store -> option (A * Store).

Definition Mret {A} (a : A) : M A := fun st => Some (a, st).

Definition Mbind {A B} (m : M A) (k : A -> M B) : M B :=
  fun st => match m st with
            | Some (a, st') => k a st'
            | None => None
            end.

Definition panic {A} : M A := fun _ => None.

Notation "x <- c ;; k" := (Mbind c (fun x => k))
  (at level 62, c at next level, right associativity).

(** [*p] *)
Definition load (p : ptr) : M Validator :=
  fun st => match st !! p with
            | Some v => Some (v, st)
            | None => None
            end.

(** [&Validator{...}]: a fresh object. *)
Definition alloc (v : Validator) : M ptr :=
  fun st => Some (length st, st ++ [v]).

(** [p.Accum = a] *)
Definition set_Accum (p : ptr) (a : Z) : M unit :=
  fun st => match st !! p with
            | Some v => Some (tt, <[p := with_Accum v a]> st)
            | None => None
            end.

(** [s[i]] on a slice of pointers; out of range panics. *)
Definition index (s : list ptr) (i : nat) : M ptr :=
  match s !! i with
  | Some p => Mret p
  | None => panic
  end.

Fixpoint Mmap {A B} (f : A -> M B) (l : list A) : M (list B) :=
  match l with
  | [] => Mret []
  | x :: l' => y <- f x ;; ys <- Mmap f l' ;; Mret (y :: ys)
  end.

Fixpoint Mfold {A B} (f : A -> B -> M A) (a : A) (l : list B) : M A :=
  match l with
  | [] => Mret a
  | x :: l' => a' <- f a x ;; Mfold f a' l'
  end.

(** Modelled from the spec: [Validator.Copy] (validator.go) returns an
    independent copy of the validator: a fresh object with the same
    fields. *)
Definition Validator_Copy (v : ptr) : M ptr :=
  x <- load v ;; alloc x.

(** Modelled from the spec: [Validator.CompareAccum] (validator.go) is the
    tie-break comparator of the linear scan of [Proposer]: it returns the
    validator with the greater accum and, for equal accum, the one with
    the smaller address; a nil receiver yields the other validator.  The
    spec orders validators of distinct addresses only: two validators of
    the same accum and address cannot be compared, which is a fault. *)
Definition Validator_CompareAccum (v : option ptr) (other : ptr) : M ptr :=
  match v with
  | None => Mret other
  | Some v =>
      a <- load v ;;
      b <- load other ;;
      if Accum b <? Accum a then Mret v
      else if Accum a <? Accum b then Mret other
      else if bytes_Compare (Address a) (Address b) <? 0 then Mret v
      else if 0 <? bytes_Compare (Address a) (Address b) then Mret other
      else panic
  end.

(** ** Collaborators outside the repository's sources

    Signature verification, sign-bytes canonicalisation, Merkle hashing
    and the JSON codec are interfaces to this file. *)
Record BlockID : Type := mkBlockID {
  BlockID_Hash : list byte;
  PartsHeader_Total : Z;
  PartsHeader_Hash : list byte
}.

Inductive VoteType : Type :=
| VoteType_Prevote
| VoteType_Precommit
| VoteType_Other (tag : Z).

Record VoteData : Type := mkVoteData {
  Height : Z;
  Round : Z;
  Type_ : VoteType;
  Data_BlockID : BlockID
}.

Record Vote : Type := mkVote {
  Data : VoteData;
  Signature : list byte
}.

Class Collaborators : Type := {
  (** [pk.VerifyBytes(msg, NewDefaultSignature(sig))] *)
  VerifyBytes : crypto_PubKey -> list byte -> list byte -> bool;
  (** [SignBytes(chainID, pdata)] *)
  SignBytes : string -> VoteData -> list byte;
  (** [merkle.SimpleHashFromHashables], over the validators' values *)
  SimpleHashFromHashables : list Validator -> list byte;
  (** [json.Marshal] of a validator slice; [None] is the error result *)
  json_Marshal : list Validator -> option (list byte);
  (** [json.Unmarshal] into a validator slice; [None] is the error result *)
  json_Unmarshal : list byte -> option (list Validator)
}.

Definition bytes_eqb (a b : list byte) : bool := bytes_Compare a b =? 0.

(** Modelled from the spec: [BlockID.Equals] (protos/types) compares the
    block identifier, "hash + parts", field by field. *)
Definition BlockID_Equals (a b : BlockID) : bool :=
  bytes_eqb (BlockID_Hash a) (BlockID_Hash b)
  && (PartsHeader_Total a =? PartsHeader_Total b)
  && bytes_eqb (PartsHeader_Hash a) (PartsHeader_Hash b).

Definition VoteType_eqb (a b : VoteType) : bool :=
  match a, b with
  | VoteType_Prevote, VoteType_Prevote => true
  | VoteType_Precommit, VoteType_Precommit => true
  | VoteType_Other x, VoteType_Other y => x =? y
  | _, _ => false
  end.

(** Modelled from the spec: [CommitCache] (block.go) with its methods
    [Height()] and [Round()], the commit's declared height and round,
    and one optional precommit per validator index ([None] when
    [precommit.Exist()] is false). *)
Record CommitCache : Type := mkCommit {
  commit_Height : Z;
  commit_Round : Z;
  Precommits : list (option Vote)
}.

(** ** The priority queue *)

(** [accumComparable.Less]: the only ordering the queue is given. *)
Definition accumComparable_Less (ac o : Z) : bool := o <? ac.

Record pqItem : Type := mkItem {
  value : ptr;
  priority : Z
}.

(** Modelled from the spec: the [Heap] of module/lib/go-common ([NewHeap],
    [Push], [Peek], [Update]) is not part of the sources.  Section 4.2
    describes a max-priority queue with push, peek-max and an in-place
    key update that re-heapifies; it is modelled as the binary heap over
    a slice of Go's container/heap, ordered by the [Less] of the pushed
    keys, whose [Update] rewrites the key of the top entry and restores
    the heap from the root. *)
Module Heap.

Abbreviation t := (list pqItem) (only parsing).

Definition Less (pq : t) (i j : nat) : bool :=
  match pq !! i, pq !! j with
  | Some a, Some b => accumComparable_Less (priority a) (priority b)
  | _, _ => false
  end.

Definition Swap (pq : t) (i j : nat) : t :=
  match pq !! i, pq !! j with
  | Some a, Some b => <[i := b]> (<[j := a]> pq)
  | _, _ => pq
  end.

(** [up(h, j)]: the parent of [j] is [(j - 1) / 2], and 0 for the root. *)
Fixpoint up (fuel : nat) (pq : t) (j : nat) : t :=
  match fuel with
  | O => pq
  | S fuel' =>
      let i := ((j - 1) / 2)%nat in
      if (i =? j)%nat || negb (Less pq j i) then pq
      else up fuel' (Swap pq j i) i
  end.

(** [down(h, i0, n)], returning the slice and the final position. *)
Fixpoint down (fuel : nat) (pq : t) (i n : nat) : t * nat :=
  match fuel with
  | O => (pq, i)
  | S fuel' =>
      let j1 := (2 * i + 1)%nat in
      if (n <=? j1)%nat then (pq, i)
      else
        let j2 := (j1 + 1)%nat in
        let j := if (j2 <? n)%nat && Less pq j2 j1 then j2 else j1 in
        if negb (Less pq j i) then (pq, i)
        else down fuel' (Swap pq i j) j n
  end.

(** [heap.Fix(h, i)] *)
Definition Fix (pq : t) (i : nat) : t :=
  let '(pq', i') := down (length pq) pq i (length pq) in
  if (i <? i')%nat then pq' else up (length pq') pq' i.

Definition NewHeap : t := [].

(** [heap.Push]: append, then [up(h, h.Len()-1)]. *)
Definition Push (h : t) (v : ptr) (prio : Z) : t :=
  let pq := h ++ [mkItem v prio] in
  up (length pq) pq (length pq - 1).

Definition Peek (h : t) : option ptr :=
  match h with
  | [] => None
  | x :: _ => Some (value x)
  end.

(** [h.pq.Update(h.pq[0], value, priority)]; an empty queue panics. *)
Definition Update (h : t) (v : ptr) (prio : Z) : option t :=
  match h with
  | [] => None
  | _ :: rest => Some (Fix (mkItem v prio :: rest) 0)
  end.

End Heap.

(** ** Sorting and searching (Go's package sort) *)

(** [ValidatorsByAddress.Less] on two elements of the slice. *)
Definition ValidatorsByAddress_Less (a b : ptr) : M bool :=
  va <- load a ;;
  vb <- load b ;;
  Mret (bytes_Compare (Address va) (Address vb) =? -1).

(** [sort.Sort] returns a permutation ordered by [Less] and fixes no
    order among elements that compare equal.  It is modelled by the
    insertion sort that Go runs on short slices: an element is placed
    before the first element of the sorted prefix it is [Less] than,
    which is where moving it left while it is [Less] than its neighbour
    leaves it. *)
Fixpoint sort_insert (x : ptr) (l : list ptr) : M (list ptr) :=
  match l with
  | [] => Mret [x]
  | y :: l' =>
      lt <- ValidatorsByAddress_Less x y ;;
      if lt : bool then Mret (x :: y :: l')
      else r <- sort_insert x l' ;; Mret (y :: r)
  end.

Definition sort_Sort (l : list ptr) : M (list ptr) :=
  Mfold (fun acc x => sort_insert x acc) [] l.

(** [sort.Search(n, f)]: binary search for the smallest index in [0, n]
    at which [f] holds.  Each iteration at least halves [j - i], so [n]
    iterations are enough. *)
Fixpoint sort_Search_loop (fuel : nat) (f : nat -> M bool) (i j : nat) : M nat :=
  match fuel with
  | O => Mret i
  | S fuel' =>
      if (i <? j)%nat then
        let h := ((i + j) / 2)%nat in
        b <- f h ;;
        if negb b then sort_Search_loop fuel' f (h + 1)%nat j
        else sort_Search_loop fuel' f i h
      else Mret i
  end.

Definition sort_Search (n : nat) (f : nat -> M bool) : M nat :=
  sort_Search_loop n f 0%nat n.

(** ** ValidatorSet

    The slice [Validators] is a list of pointers: its backing array is
    never shared between two sets ([genValidatorSet], [Copy] and the
    insertion of [Add] allocate a new one), so that only the validator
    objects are kept in the store. *)

Record ValidatorSet : Type := mkValidatorSet {
  Validators : list ptr;
  proposer : option ptr;
  totalVotingPower : Z
}.

Definition with_proposer (valSet : ValidatorSet) (p : option ptr) : ValidatorSet :=
  {| Validators := Validators valSet; proposer := p;
     totalVotingPower := totalVotingPower valSet |}.

Definition with_totalVotingPower (valSet : ValidatorSet) (t : Z) : ValidatorSet :=
  {| Validators := Validators valSet; proposer := proposer valSet;
     totalVotingPower := t |}.

Definition Size (valSet : ValidatorSet) : nat := length (Validators valSet).

(** [valSet.totalVotingPower += val.VotingPower] *)
Definition TotalVotingPower_add (acc : Z) (val : ptr) : M Z :=
  v <- load val ;; Mret (Int64.add acc (VotingPower v)).

(** The cache is recomputed when it holds zero. *)
Definition TotalVotingPower (valSet : ValidatorSet) : M (Z * ValidatorSet) :=
  if totalVotingPower valSet =? 0 then
    t <- Mfold TotalVotingPower_add (totalVotingPower valSet) (Validators valSet) ;;
    Mret (t, with_totalVotingPower valSet t)
  else Mret (totalVotingPower valSet, valSet).

(** The body of the first loop of [IncrementAccum]. *)
Definition IncrementAccum_push_one (times : Z) (validatorsHeap : Heap.t) (val : ptr)
  : M Heap.t :=
  v <- load val ;;
  let a := Int64.add (Accum v) (Int64.mul (VotingPower v) times) in
  _ <- set_Accum val a ;;
  Mret (Heap.Push validatorsHeap val a).

(** The first loop of [IncrementAccum]. *)
Definition IncrementAccum_push (times : Z) (valSet : ValidatorSet) : M Heap.t :=
  Mfold (IncrementAccum_push_one times) Heap.NewHeap (Validators valSet).

(** One iteration of the second loop. *)
Definition IncrementAccum_step (deTime : Z) (i : Z)
    (st : ValidatorSet * Heap.t) : M (ValidatorSet * Heap.t) :=
  let '(valSet, validatorsHeap) := st in
  match Heap.Peek validatorsHeap with
  | None => panic
  | Some mostest =>
      let valSet := if i =? deTime then with_proposer valSet (Some mostest) else valSet in
      tv <- TotalVotingPower valSet ;;
      let '(total, valSet) := tv in
      v <- load mostest ;;
      let a := Int64.sub (Accum v) total in
      _ <- set_Accum mostest a ;;
      match Heap.Update validatorsHeap mostest a with
      | None => panic
      | Some h => Mret (valSet, h)
      end
  end.

(** [for i := 0; i < int(times); i++], with [n] iterations left. *)
Fixpoint IncrementAccum_loop (n : nat) (deTime : Z) (i : Z)
    (st : ValidatorSet * Heap.t) : M (ValidatorSet * Heap.t) :=
  match n with
  | O => Mret st
  | S n' =>
      st' <- IncrementAccum_step deTime i st ;;
      IncrementAccum_loop n' deTime (i + 1) st'
  end.

Definition IncrementAccum (times : Z) (valSet : ValidatorSet) : M ValidatorSet :=
  validatorsHeap <- IncrementAccum_push times valSet ;;
  let deTime := Int64.sub times 1 in
  r <- IncrementAccum_loop (Z.to_nat times) deTime 0 (valSet, validatorsHeap) ;;
  let '(valSet', _) := r in
  Mret valSet'.

(** The validators handed in are only read (each is copied at once), so
    the constructors take their values. *)
Definition genValidatorSet (vals : list Validator) : M ValidatorSet :=
  validators <- Mmap alloc vals ;;
  validators <- sort_Sort validators ;;
  Mret {| Validators := validators; proposer := None; totalVotingPower := 0 |}.

(** [vals] is [None] for a nil slice. *)
Definition NewValidatorSet (vals : option (list Validator)) : M ValidatorSet :=
  vs <- genValidatorSet (match vals with Some l => l | None => [] end) ;;
  match vals with
  | Some _ => IncrementAccum 1 vs
  | None => Mret vs
  end.

Definition Copy (valSet : ValidatorSet) : M ValidatorSet :=
  validators <- Mmap Validator_Copy (Validators valSet) ;;
  Mret {| Validators := validators;
          proposer := proposer valSet;
          totalVotingPower := totalVotingPower valSet |}.

(** The predicate of the binary searches:
    [bytes.Compare(address, valSet.Validators[i].Address) <= 0]. *)
Definition search_pred (address : list byte) (valSet : ValidatorSet) (i : nat) : M bool :=
  p <- index (Validators valSet) i ;;
  v <- load p ;;
  Mret (bytes_Compare address (Address v) <=? 0).

Definition search_address (address : list byte) (valSet : ValidatorSet) : M nat :=
  sort_Search (length (Validators valSet)) (search_pred address valSet).

(** [idx != len(valSet.Validators) &&
     bytes.Compare(valSet.Validators[idx].Address, address) == 0] *)
Definition found_at (address : list byte) (valSet : ValidatorSet) (idx : nat) : M bool :=
  if (idx =? length (Validators valSet))%nat then Mret false
  else
    p <- index (Validators valSet) idx ;;
    v <- load p ;;
    Mret (bytes_Compare (Address v) address =? 0).

Definition HasAddress (address : list byte) (valSet : ValidatorSet) : M bool :=
  idx <- search_address address valSet ;;
  found_at address valSet idx.

Definition GetByAddress (address : list byte) (valSet : ValidatorSet)
  : M (nat * option ptr) :=
  idx <- search_address address valSet ;;
  b <- found_at address valSet idx ;;
  if b : bool then
    p <- index (Validators valSet) idx ;;
    c <- Validator_Copy p ;;
    Mret (idx, Some c)
  else Mret (0%nat, None).

Definition GetByIndex (i : nat) (valSet : ValidatorSet) : M (list byte * ptr) :=
  val <- index (Validators valSet) i ;;
  v <- load val ;;
  c <- Validator_Copy val ;;
  Mret (Address v, c).

Definition Proposer (valSet : ValidatorSet) : M (option ptr * ValidatorSet) :=
  if (length (Validators valSet) =? 0)%nat then Mret (None, valSet)
  else
    valSet <-
      match proposer valSet with
      | None =>
          Mfold (fun vs val =>
                   p <- Validator_CompareAccum (proposer vs) val ;;
                   Mret (with_proposer vs (Some p)))
                valSet (Validators valSet)
      | Some _ => Mret valSet
      end ;;
    match proposer valSet with
    | None => panic
    | Some p => c <- Validator_Copy p ;; Mret (Some c, valSet)
    end.

(** [None] is the nil slice. *)
Definition Hash `{Collaborators} (valSet : ValidatorSet) : M (option (list byte)) :=
  if (length (Validators valSet) =? 0)%nat then Mret None
  else
    hashables <- Mmap load (Validators valSet) ;;
    Mret (Some (SimpleHashFromHashables hashables)).

Definition JSONBytes `{Collaborators} (valSet : ValidatorSet) : M (option (list byte)) :=
  vs <- Mmap load (Validators valSet) ;;
  Mret (json_Marshal vs).

(** The result is [None] for the nil set returned on a decoding error. *)
Definition ValSetFromJsonBytes `{Collaborators} (data : list byte)
  : M (option ValidatorSet) :=
  match json_Unmarshal data with
  | None => Mret None
  | Some vset => vs <- genValidatorSet vset ;; Mret (Some vs)
  end.

(** The set after a mutation: new members, both caches cleared. *)
Definition invalidate (validators : list ptr) : ValidatorSet :=
  {| Validators := validators; proposer := None; totalVotingPower := 0 |}.

(** [Add], [Update] and [Remove] read their argument and store a copy of
    it ([val = val.Copy()]), so they take its value. *)
Definition Add (val : Validator) (valSet : ValidatorSet) : M (bool * ValidatorSet) :=
  val' <- alloc val ;;
  idx <- search_address (Address val) valSet ;;
  if (idx =? length (Validators valSet))%nat then
    Mret (true, invalidate (Validators valSet ++ [val']))
  else
    b <- found_at (Address val) valSet idx ;;
    if b : bool then Mret (false, valSet)
    else
      Mret (true, invalidate (take idx (Validators valSet) ++ val'
                                :: drop idx (Validators valSet))).

Definition Update (val : Validator) (valSet : ValidatorSet) : M (bool * ValidatorSet) :=
  r <- GetByAddress (Address val) valSet ;;
  let '(idx, sameVal) := r in
  match sameVal with
  | None => Mret (false, valSet)
  | Some _ =>
      val' <- alloc val ;;
      if (idx <? length (Validators valSet))%nat then
        Mret (true, invalidate (<[idx := val']> (Validators valSet)))
      else panic
  end.

Definition Remove (address : list byte) (valSet : ValidatorSet)
  : M (option ptr * bool * ValidatorSet) :=
  idx <- search_address address valSet ;;
  b <- found_at address valSet idx ;;
  if negb b then Mret (None, false, valSet)
  else
    removedVal <- index (Validators valSet) idx ;;
    let newValidators := take idx (Validators valSet) in
    let newValidators :=
      if (idx + 1 <? length (Validators valSet))%nat
      then newValidators ++ drop (idx + 1) (Validators valSet)
      else newValidators in
    Mret (Some removedVal, true, invalidate newValidators).

(** [Iterate]: the callback [fn] is any computation on the store; it is
    handed the index and a fresh copy of the member, and its result is
    the stop flag. *)
Fixpoint Iterate_loop (fn : nat -> ptr -> M bool) (i : nat) (vals : list ptr)
  : M unit :=
  match vals with
  | [] => Mret tt
  | val :: rest =>
      c <- Validator_Copy val ;;
      stop <- fn i c ;;
      if stop : bool then Mret tt else Iterate_loop fn (S i) rest
  end.

Definition Iterate (fn : nat -> ptr -> M bool) (valSet : ValidatorSet) : M unit :=
  Iterate_loop fn 0%nat (Validators valSet).

(** ** VerifyCommit *)

Inductive VerifyError : Type :=
| ErrWrongSetSize (size precommits : nat)
| ErrWrongHeight (want got : Z)
| ErrWrongRound (want got : Z)
| ErrNotPrecommit (idx : nat)
| ErrInvalidSignature (precommit : Vote)
| ErrInsufficientVotingPower (got needed : Z).

(** The body of the loop over [commit.Precommits]: [inl] returns from
    [VerifyCommit] with an error, [inr] carries the tally on. *)
Definition VerifyCommit_slot `{Collaborators} (chainID : string) (blockID : BlockID)
    (height round : Z) (valSet : ValidatorSet) (idx : nat)
    (precommit : option Vote) (talliedVotingPower : Z) : M (VerifyError + Z) :=
  match precommit with
  | None => Mret (inr talliedVotingPower)
  | Some precommit =>
      let pdata := Data precommit in
      if negb (Height pdata =? height) then
        Mret (inl (ErrWrongHeight height (Height pdata)))
      else if negb (Round pdata =? round) then
        Mret (inl (ErrWrongRound round (Round pdata)))
      else if negb (VoteType_eqb (Type_ pdata) VoteType_Precommit) then
        Mret (inl (ErrNotPrecommit idx))
      else
        av <- GetByIndex idx valSet ;;
        let '(_, val) := av in
        v <- load val ;;
        let precommitSignBytes := SignBytes chainID pdata in
        if negb (VerifyBytes (PubKey v) precommitSignBytes (Signature precommit)) then
          Mret (inl (ErrInvalidSignature precommit))
        else if negb (BlockID_Equals blockID (Data_BlockID pdata)) then
          Mret (inr talliedVotingPower)
        else
          Mret (inr (Int64.add talliedVotingPower (VotingPower v)))
  end.

Fixpoint VerifyCommit_loop `{Collaborators} (chainID : string) (blockID : BlockID)
    (height round : Z) (valSet : ValidatorSet) (idx : nat)
    (precommits : list (option Vote)) (talliedVotingPower : Z)
  : M (VerifyError + Z) :=
  match precommits with
  | [] => Mret (inr talliedVotingPower)
  | precommit :: rest =>
      r <- VerifyCommit_slot chainID blockID height round valSet idx
             precommit talliedVotingPower ;;
      match r with
      | inl err => Mret (inl err)
      | inr tally =>
          VerifyCommit_loop chainID blockID height round valSet (S idx) rest tally
      end
  end.

(** The error is [None] for Go's nil. *)
Definition VerifyCommit `{Collaborators} (chainID : string) (blockID : BlockID)
    (height : Z) (commit : CommitCache) (valSet : ValidatorSet)
  : M (option VerifyError * ValidatorSet) :=
  if negb (Size valSet =? length (Precommits commit))%nat then
    Mret (Some (ErrWrongSetSize (Size valSet) (length (Precommits commit))), valSet)
  else if negb (height =? commit_Height commit) then
    Mret (Some (ErrWrongHeight height (commit_Height commit)), valSet)
  else
    let round := commit_Round commit in
    r <- VerifyCommit_loop chainID blockID height round valSet 0%nat
           (Precommits commit) 0 ;;
    match r with
    | inl err => Mret (Some err, valSet)
    | inr talliedVotingPower =>
        tv <- TotalVotingPower valSet ;;
        let '(total, valSet) := tv in
        if Int64.quot (Int64.mul total 2) 3 <? talliedVotingPower then
          Mret (None, valSet)
        else
          tv' <- TotalVotingPower valSet ;;
          let '(total', valSet) := tv' in
          Mret (Some (ErrInsufficientVotingPower talliedVotingPower
                        (Int64.add (Int64.quot (Int64.mul total' 2) 3) 1)),
                valSet)
    end.

(** ** Properties of states and runs *)

(** The validators a slice of pointers refers to, in order. *)
Definition deref (st : Store) (ps : list ptr) : option (list Validator) :=
  mapM (fun p => st !! p) ps.

Definition addr_lt (a b : list byte) : Prop := bytes_Compare a b = -1.
Definition addr_le (a b : list byte) : Prop := bytes_Compare a b <> 1.

(** The structural invariant of the registry: the members are strictly
    sorted by ascending address, hence without duplicate addresses. *)
Definition sorted_unique (st : Store) (valSet : ValidatorSet) : Prop :=
  exists vs, deref st (Validators valSet) = Some vs
    /\ StronglySorted addr_lt (map Address vs)
    /\ NoDup (map Address vs).

(** The sum of the members' voting powers, and the value the loop of
    [TotalVotingPower] computes for it. *)
Definition sum_VotingPower (vs : list Validator) : Z :=
  fold_right (fun v acc => VotingPower v + acc) 0 vs.

Definition total_of (vs : list Validator) : Z :=
  fold_left (fun acc v => Int64.add acc (VotingPower v)) vs 0.

(** The cache holds zero or the total of the current members. *)
Definition cache_consistent (valSet : ValidatorSet) (vs : list Validator) : Prop :=
  totalVotingPower valSet = 0 \/ totalVotingPower valSet = total_of vs.

(** The value [TotalVotingPower()] returns on a set whose members are
    [vs]. *)
Definition TotalVotingPower_value (valSet : ValidatorSet) (vs : list Validator) : Z :=
  if totalVotingPower valSet =? 0 then total_of vs else totalVotingPower valSet.

(** [v'] is [v] up to its accum. *)
Definition same_but_Accum (v v' : Validator) : Prop :=
  Address v' = Address v /\ PubKey v' = PubKey v
  /\ VotingPower v' = VotingPower v.

(** [st'] is [st] up to the accum of the objects [ps] point to: no
    object is created or dropped, every object keeps its address, key
    and voting power, and the objects outside [ps] are untouched. *)
Definition only_Accum_changed (ps : list ptr) (st st' : Store) : Prop :=
  length st' = length st
  /\ (forall p v, st !! p = Some v ->
        exists v', st' !! p = Some v' /\ same_but_Accum v v')
  /\ (forall p, p ∉ ps -> st' !! p = st !! p).

(** The queue holds entries for members of [ps] only. *)
Definition heap_within (ps : list ptr) (h : Heap.t) : Prop :=
  Forall (fun it => value it ∈ ps) h.

(** Membership mutations, as a caller issues them. *)
Inductive Op : Type :=
| OpAdd (val : Validator)
| OpUpdate (val : Validator)
| OpRemove (address : list byte).

Definition apply_op (op : Op) (valSet : ValidatorSet) : M ValidatorSet :=
  match op with
  | OpAdd val => r <- Add val valSet ;; Mret (snd r)
  | OpUpdate val => r <- Update val valSet ;; Mret (snd r)
  | OpRemove address => r <- Remove address valSet ;; Mret (snd r)
  end.

Definition run_ops (ops : list Op) (valSet : ValidatorSet) : M ValidatorSet :=
  Mfold (fun s op => apply_op op s) valSet ops.

(** A slot passes the checks made before the tally: it is absent, or it
    has the height, the round and the precommit tag asked for and a
    signature that verifies against the validator of its index. *)
Definition precommit_passes `{Collaborators} (chainID : string) (height round : Z)
    (v : Validator) (precommit : option Vote) : bool :=
  match precommit with
  | None => true
  | Some pc =>
      (Height (Data pc) =? height) && (Round (Data pc) =? round)
      && VoteType_eqb (Type_ (Data pc)) VoteType_Precommit
      && VerifyBytes (PubKey v) (SignBytes chainID (Data pc)) (Signature pc)
  end.

(** A slot counts: present, validly signed, and for the target block. *)
Definition counted `{Collaborators} (chainID : string) (blockID : BlockID)
    (v : Validator) (precommit : option Vote) : bool :=
  match precommit with
  | None => false
  | Some pc =>
      VerifyBytes (PubKey v) (SignBytes chainID (Data pc)) (Signature pc)
      && BlockID_Equals blockID (Data_BlockID (Data pc))
  end.

(** The voting power of the slots that count, as an exact sum. *)
Fixpoint tally `{Collaborators} (chainID : string) (blockID : BlockID)
    (vs : list Validator) (precommits : list (option Vote)) : Z :=
  match vs, precommits with
  | v :: vs', pc :: precommits' =>
      (if counted chainID blockID v pc then VotingPower v else 0)
      + tally chainID blockID vs' precommits'
  | _, _ => 0
  end.

(** What the body of the loop returns for the slot of validator [v]:
    [VerifyCommit_slot] once [GetByIndex] has produced the validator. *)
Definition slot_outcome `{Collaborators} (chainID : string) (blockID : BlockID)
    (height round : Z) (v : Validator) (idx : nat)
    (precommit : option Vote) (talliedVotingPower : Z) : VerifyError + Z :=
  match precommit with
  | None => inr talliedVotingPower
  | Some precommit =>
      let pdata := Data precommit in
      if negb (Height pdata =? height) then
        inl (ErrWrongHeight height (Height pdata))
      else if negb (Round pdata =? round) then
        inl (ErrWrongRound round (Round pdata))
      else if negb (VoteType_eqb (Type_ pdata) VoteType_Precommit) then
        inl (ErrNotPrecommit idx)
      else if negb (VerifyBytes (PubKey v) (SignBytes chainID pdata)
                      (Signature precommit)) then
        inl (ErrInvalidSignature precommit)
      else if negb (BlockID_Equals blockID (Data_BlockID pdata)) then
        inr talliedVotingPower
      else inr (Int64.add talliedVotingPower (VotingPower v))
  end.

(** The loop over the slots, on the members' values. *)
Fixpoint loop_outcome `{Collaborators} (chainID : string) (blockID : BlockID)
    (height round : Z) (vs : list Validator) (idx : nat)
    (precommits : list (option Vote)) (talliedVotingPower : Z)
  : VerifyError + Z :=
  match vs, precommits with
  | v :: vs', precommit :: rest =>
      match slot_outcome chainID blockID height round v idx precommit
              talliedVotingPower with
      | inl err => inl err
      | inr t => loop_outcome chainID blockID height round vs' (S idx) rest t
      end
  | _, _ => inr talliedVotingPower
  end.

(** The order the rotation is asked to select by: greater accum first,
    then smaller address. *)
Definition precedes (a b : Validator) : Prop :=
  Accum b < Accum a
  \/ (Accum a = Accum b /\ bytes_Compare (Address a) (Address b) = -1).

(** The sum of the members' accums, and equality of two integers up to
    the wrap-around of the machine integer. *)
Definition sum_Accum (vs : list Validator) : Z :=
  fold_right (fun v acc => Accum v + acc) 0 vs.

Definition congruent (a b : Z) : Prop := exists k, a = b + k * 2 ^ 64.

(** Callbacks for [Iterate].  The first one marks the copy it is handed
    by writing [g index copy] to its accum, and stops when [f index copy]
    holds; [Iterate_marks] lists the copies it leaves behind on members
    of values [vs], visited from index [i] on. *)
Definition marking_callback (f : nat -> Validator -> bool)
    (g : nat -> Validator -> Z) : nat -> ptr -> M bool :=
  fun i c => v <- load c ;; _ <- set_Accum c (g i v) ;; Mret (f i v).

Fixpoint Iterate_marks (f : nat -> Validator -> bool) (g : nat -> Validator -> Z)
    (i : nat) (vs : list Validator) : list Validator :=
  match vs with
  | [] => []
  | v :: vs' =>
      with_Accum v (g i v) :: (if f i v then [] else Iterate_marks f g (S i) vs')
  end.

(** A callback is confined above [n0] when, handed a live object that
    was allocated at or after position [n0], it returns, drops no
    object and leaves the objects below [n0] as they are. *)
Definition confined (n0 : nat) (fn : nat -> ptr -> M bool) : Prop :=
  forall i c st,
    (n0 <= c < length st)%nat ->
    exists b st',
      fn i c st = Some (b, st')
      /\ (length st <= length st')%nat
      /\ forall q, (q < n0)%nat -> st' !! q = st !! q.

(** ** A concrete instance of the collaborators

    Used to run the model on concrete sets and commits: a signature is
    the key followed by the signed bytes, and validators are serialised
    as length-prefixed fields with 8-byte little-endian integers. *)
Module Example.

Definition byte_of_Z (z : Z) : byte :=
  match Byte.of_N (Z.to_N (z mod 256)) with
  | Some b => b
  | None => x00
  end.

Definition encode_Z (z : Z) : list byte :=
  map (fun i => byte_of_Z (z / 2 ^ (8 * Z.of_nat i))) (seq 0 8).

Definition decode_Z (bs : list byte) : Z :=
  Int64.wrap (fold_right (fun b acc => Z.of_N (Byte.to_N b) + 256 * acc) 0 bs).

Definition encode_bytes (bs : list byte) : list byte :=
  byte_of_Z (Z.of_nat (length bs)) :: bs.

Definition encode_Validator (v : Validator) : list byte :=
  encode_bytes (Address v) ++ encode_bytes (PubKey v)
  ++ encode_Z (VotingPower v) ++ encode_Z (Accum v).

Definition encode (vs : list Validator) : list byte :=
  concat (map encode_Validator vs).

Fixpoint decode (fuel : nat) (data : list byte) : option (list Validator) :=
  match fuel, data with
  | _, [] => Some []
  | O, _ :: _ => None
  | S fuel', n :: rest =>
      let la := N.to_nat (Byte.to_N n) in
      let address := take la rest in
      match drop la rest with
      | [] => None
      | m :: rest' =>
          let lp := N.to_nat (Byte.to_N m) in
          let pubKey := take lp rest' in
          let ints := drop lp rest' in
          if (length ints <? 16)%nat then None
          else
            match decode fuel' (drop 16 ints) with
            | Some vs =>
                Some (mkValidator address pubKey (decode_Z (take 8 ints))
                        (decode_Z (take 8 (drop 8 ints))) :: vs)
            | None => None
            end
      end
  end.

#[export] Instance collaborators : Collaborators := {|
  VerifyBytes := fun pk msg sig => bytes_eqb sig (pk ++ msg);
  SignBytes := fun chainID pdata =>
    list_byte_of_string chainID ++ encode_Z (Height pdata)
    ++ encode_Z (Round pdata) ++ BlockID_Hash (Data_BlockID pdata);
  SimpleHashFromHashables := encode;
  json_Marshal := fun vs => Some (encode vs);
  json_Unmarshal := fun data => decode (length data) data
|}.

(** Four validators of voting power 1 and two blocks. *)
Definition val (a : byte) (power accum : Z) : Validator :=
  mkValidator [a] [a; a] power accum.

Definition four : list Validator :=
  [val x01 1 0; val x02 1 0; val x03 1 0; val x04 1 0].

Definition block (h : byte) : BlockID := mkBlockID [h] 1 [h].

Definition chain : string := "annchain".

Definition vote_data (blk : BlockID) : VoteData :=
  mkVoteData 7 0 VoteType_Precommit blk.

(** The precommit of the validator with key [a; a] for [blk]. *)
Definition precommit (a : byte) (blk : BlockID) : Vote :=
  mkVote (vote_data blk) ([a; a] ++ SignBytes chain (vote_data blk)).

(** The same vote with a signature that does not verify. *)
Definition forged (a : byte) (blk : BlockID) : Vote :=
  mkVote (vote_data blk) [].

(** The set of the four validators, as [genValidatorSet] builds it. *)
Definition four_store : Store := four.
Definition four_set : ValidatorSet :=
  mkValidatorSet [0; 1; 2; 3]%nat None 0.

(** The same set after the rotation step of [NewValidatorSet]. *)
Definition rotated : list Validator :=
  [val x01 1 (-3); val x02 1 1; val x03 1 1; val x04 1 1].
Definition rotated_set : ValidatorSet :=
  mkValidatorSet [0; 1; 2; 3]%nat (Some 0%nat) 4.

(** Three of the four validators precommit the block 0a at height 7,
    round 0; the fourth is absent. *)
Definition commit3 : CommitCache :=
  mkCommit 7 0 [Some (precommit x01 (block x0a)); Some (precommit x02 (block x0a));
                Some (precommit x03 (block x0a)); None].

(** Only two of them do. *)
Definition commit2 : CommitCache :=
  mkCommit 7 0 [Some (precommit x01 (block x0a)); Some (precommit x02 (block x0a));
                None; None].

(** The second validator precommits another block, 0b, and the slot of
    the third holds a vote for 0b whose signature does not verify. *)
Definition commit_mixed : CommitCache :=
  mkCommit 7 0 [Some (precommit x01 (block x0a)); Some (precommit x02 (block x0b));
                Some (forged x03 (block x0b)); None].

Definition ops : list Op :=
  [OpAdd (val x05 3 0); OpUpdate (val x02 9 0); OpRemove [x01];
   OpAdd (val x03 7 0)].

(** Records out of address order, and records sharing an address. *)
Definition shuffled : list Validator :=
  [val x03 1 0; val x01 2 5; val x02 3 (-4)].
Definition duplicated : list Validator :=
  [val x01 1 0; val x01 2 0].

End Example.

(** * Part II: properties *)

(** Splits a conjunction into its conjuncts, and nothing else. *)
Ltac splits := repeat match goal with |- _ /\ _ => split end.

(** Runs the model on the conjuncts of a closed goal, left to right. *)
Ltac run_conj :=
  repeat (match goal with |- _ /\ _ => split end; [vm_compute; reflexivity|]).

(** ** Arithmetic and byte strings *)

Lemma wrap_in_range z : Int64.in_range (Int64.wrap z).
Proof.
  unfold Int64.in_range, Int64.wrap, Int64.min_signed, Int64.max_signed.
  pose proof (Z.mod_pos_bound (z + 2 ^ 63) (2 ^ 64) ltac:(lia)). lia.
Qed.

Lemma wrap_small z : Int64.in_range z -> Int64.wrap z = z.
Proof.
  unfold Int64.in_range, Int64.wrap, Int64.min_signed, Int64.max_signed.
  intros Hz. rewrite Z.mod_small by lia. lia.
Qed.

Lemma bytes_Compare_range a b :
  bytes_Compare a b = -1 \/ bytes_Compare a b = 0 \/ bytes_Compare a b = 1.
Proof.
  revert b; induction a as [|x a IH]; intros [|y b]; simpl; auto.
  destruct (N.compare _ _); auto.
Qed.

Lemma byte_to_N_inj x y : Byte.to_N x = Byte.to_N y -> x = y.
Proof.
  intros E.
  assert (Some x = Some y) as [= ->]; [|reflexivity].
  rewrite <- (Byte.of_to_N x), <- (Byte.of_to_N y). now rewrite E.
Qed.

Lemma bytes_Compare_eq a b : bytes_Compare a b = 0 <-> a = b.
Proof.
  revert b; induction a as [|x a IH]; intros [|y b]; simpl;
    try (split; [lia | discriminate]); try tauto.
  destruct (N.compare_spec (Byte.to_N x) (Byte.to_N y)) as [E|L|G].
  - apply byte_to_N_inj in E. subst y. rewrite IH. split; congruence.
  - split; [lia|]. intros [= -> ->]. lia.
  - split; [lia|]. intros [= -> ->]. lia.
Qed.

Lemma bytes_Compare_refl a : bytes_Compare a a = 0.
Proof. now apply bytes_Compare_eq. Qed.

Lemma bytes_Compare_antisym a b : bytes_Compare b a = - bytes_Compare a b.
Proof.
  revert b; induction a as [|x a IH]; intros [|y b]; simpl; try reflexivity.
  rewrite (N.compare_antisym (Byte.to_N x) (Byte.to_N y)).
  destruct (N.compare (Byte.to_N x) (Byte.to_N y)); simpl; auto.
Qed.

Lemma addr_lt_trans a b c : addr_lt a b -> addr_lt b c -> addr_lt a c.
Proof.
  unfold addr_lt.
  revert b c; induction a as [|x a IH]; intros [|y b] [|z c]; simpl;
    try discriminate; auto.
  destruct (N.compare_spec (Byte.to_N x) (Byte.to_N y)) as [E1|L1|G1];
    destruct (N.compare_spec (Byte.to_N y) (Byte.to_N z)) as [E2|L2|G2];
    try discriminate; intros H1 H2.
  - rewrite E1, E2, N.compare_refl. eauto.
  - rewrite E1. apply N.compare_lt_iff in L2. now rewrite L2.
  - rewrite <- E2. apply N.compare_lt_iff in L1. now rewrite L1.
  - assert (L : (Byte.to_N x < Byte.to_N z)%N) by lia.
    apply N.compare_lt_iff in L. now rewrite L.
Qed.

Lemma addr_lt_irrefl a : ~ addr_lt a a.
Proof. unfold addr_lt. rewrite bytes_Compare_refl. discriminate. Qed.

Lemma addr_lt_le a b : addr_lt a b -> addr_le a b.
Proof. unfold addr_lt, addr_le. lia. Qed.

Lemma addr_le_cases a b : addr_le a b <-> addr_lt a b \/ a = b.
Proof.
  unfold addr_le, addr_lt. rewrite <- bytes_Compare_eq.
  pose proof (bytes_Compare_range a b). lia.
Qed.

Lemma addr_le_trans a b c : addr_le a b -> addr_le b c -> addr_le a c.
Proof.
  rewrite !addr_le_cases. intros [H1| ->] [H2| ->]; auto.
  left. eapply addr_lt_trans; eauto.
Qed.

Lemma addr_lt_le_trans a b c : addr_lt a b -> addr_le b c -> addr_lt a c.
Proof.
  rewrite addr_le_cases. intros H1 [H2| ->]; auto.
  eapply addr_lt_trans; eauto.
Qed.

Lemma addr_le_lt_trans a b c : addr_le a b -> addr_lt b c -> addr_lt a c.
Proof.
  rewrite addr_le_cases. intros [H1| ->] H2; auto.
  eapply addr_lt_trans; eauto.
Qed.

Lemma not_addr_lt a b : ~ addr_lt a b <-> addr_le b a.
Proof.
  unfold addr_lt, addr_le. rewrite (bytes_Compare_antisym a b).
  pose proof (bytes_Compare_range a b). lia.
Qed.

(** ** The constructors on small inputs *)

Lemma genValidatorSet_two (A B : Validator) :
  genValidatorSet [A; B] [] =
  Some (invalidate (if bytes_Compare (Address B) (Address A) =? -1
                    then [1; 0]%nat else [0; 1]%nat), [A; B]).
Proof.
  unfold genValidatorSet, invalidate. cbn.
  unfold Mbind, Mret, ValidatorsByAddress_Less, load, Mbind, Mret. cbn.
  destruct (bytes_Compare (Address B) (Address A) =? -1); reflexivity.
Qed.

(** C9: [NewValidatorSet] on a nil list returns the empty set as
    [genValidatorSet] builds it, leaving the store untouched and the
    proposer cache unset (no rotation step is run), and [Proposer] on any
    empty set returns nil, whatever its caches hold, without a fault. *)
Theorem NewValidatorSet_nil (st : Store) (p : option ptr) (t : Z) :
  NewValidatorSet None st = Some (mkValidatorSet [] None 0, st)
  /\ genValidatorSet [] st = NewValidatorSet None st
  /\ Proposer (mkValidatorSet [] None 0) st = Some ((None, mkValidatorSet [] None 0), st)
  /\ Proposer (mkValidatorSet [] p t) st = Some ((None, mkValidatorSet [] p t), st).
Proof. split; [|split; [|split]]; reflexivity. Qed.

(** The rotation step does run, and faults, on an empty list that is not
    nil: the queue is empty when it is peeked. *)
Lemma NewValidatorSet_empty_faults (st : Store) :
  NewValidatorSet (Some []) st = None.
Proof. reflexivity. Qed.

(** C4: two validators A (voting power 2) and B (voting power 1), both
    with accum 0, whatever their addresses and keys.  The first rotation
    step raises A to 2 and B to 1, selects A and charges it down to -1;
    the second raises A to 1 and B to 2, selects B and charges it down to
    -1.  A is the object at pointer 0 and B the one at pointer 1. *)
Theorem rotation_example (addrA addrB : list byte) (pkA pkB : crypto_PubKey) :
  let A := mkValidator addrA pkA 2 0 in
  let B := mkValidator addrB pkB 1 0 in
  exists s0 h1 st1 s1 st1' h2 st2 s2 st2',
    genValidatorSet [A; B] [] = Some (s0, [A; B])
    /\ IncrementAccum_push 1 s0 [A; B] = Some (h1, st1)
    /\ Accum <$> st1 !! 0%nat = Some 2 /\ Accum <$> st1 !! 1%nat = Some 1
    /\ IncrementAccum 1 s0 [A; B] = Some (s1, st1')
    /\ proposer s1 = Some 0%nat
    /\ Accum <$> st1' !! 0%nat = Some (-1) /\ Accum <$> st1' !! 1%nat = Some 1
    /\ IncrementAccum_push 1 s1 st1' = Some (h2, st2)
    /\ Accum <$> st2 !! 0%nat = Some 1 /\ Accum <$> st2 !! 1%nat = Some 2
    /\ IncrementAccum 1 s1 st1' = Some (s2, st2')
    /\ proposer s2 = Some 1%nat
    /\ Accum <$> st2' !! 0%nat = Some 1 /\ Accum <$> st2' !! 1%nat = Some (-1).
Proof.
  intros A B. rewrite genValidatorSet_two. subst A B. cbn [Address].
  destruct (bytes_Compare addrB addrA =? -1);
    do 9 eexists; run_conj; vm_compute; reflexivity.
Qed.

(** [NewValidatorSet] on the same list is the first of these steps. *)
Lemma NewValidatorSet_two (A B : Validator) :
  NewValidatorSet (Some [A; B]) [] =
  (vs <- genValidatorSet [A; B] ;; IncrementAccum 1 vs) [].
Proof. reflexivity. Qed.

(** C2: the keys the queue is given carry the accum only, so that two
    keys of equal accum are not ordered at all.  On the set of four
    validators of voting powers 1, 5, 3, 3 (addresses 01 < 02 < 03 < 04,
    accum 0) and [times = 2], after the first charge the third and the
    fourth validator hold the greatest accum, 6; the third precedes every
    other member in the order by descending accum, then ascending
    address, and the linear scan of [Proposer] selects it on that store;
    yet the queue's peek, and with it the proposer, is the fourth.  The
    peek among equal keys also follows the order of the pushes: of two
    entries of key 6 the one pushed first is on top. *)
Theorem IncrementAccum_tie_ignores_address :
  let vals := [Example.val x01 1 0; Example.val x02 5 0;
               Example.val x03 3 0; Example.val x04 3 0] in
  exists s0 st0 h0 st1 s1 h1 st2 C D s2 st3 p s' st',
    genValidatorSet vals [] = Some (s0, st0)
    /\ IncrementAccum_push 2 s0 st0 = Some (h0, st1)
    /\ IncrementAccum_step 1 0 (s0, h0) st1 = Some ((s1, h1), st2)
    /\ st2 !! 2%nat = Some C /\ st2 !! 3%nat = Some D
    /\ accumComparable_Less (Accum C) (Accum D) = false
    /\ accumComparable_Less (Accum D) (Accum C) = false
    /\ Heap.Peek h1 = Some 3%nat
    /\ IncrementAccum 2 s0 st0 = Some (s2, st3)
    /\ proposer s2 = Some 3%nat
    /\ Proposer (with_proposer s1 None) st2 = Some ((Some p, s'), st')
    /\ proposer s' = Some 2%nat
    /\ Heap.Peek (Heap.Push (Heap.Push Heap.NewHeap 2%nat 6) 3%nat 6) = Some 2%nat
    /\ Heap.Peek (Heap.Push (Heap.Push Heap.NewHeap 3%nat 6) 2%nat 6) = Some 3%nat
    /\ Forall (fun v => v = C \/ precedes C v) st2.
Proof.
  do 14 eexists. run_conj.
  repeat constructor;
    first [ left; reflexivity
          | right; left; vm_compute; reflexivity
          | right; right; split; vm_compute; reflexivity ].
Qed.

(** C7: the copy keeps the pointer of the original's proposer.  With
    [s] built from A (voting power 2) and B (voting power 1) and
    [c = s.Copy()], [c.Proposer()] has accum -1; after
    [s.IncrementAccum(1)] the same call on [c] has accum 1, although the
    members of [c] are the objects they were. *)
Theorem Copy_shares_proposer :
  let A := Example.val x01 2 0 in
  let B := Example.val x02 1 0 in
  exists s st c st1 p1 c1 st2 v1 s' st3 p2 c2 st4 v2,
    NewValidatorSet (Some [A; B]) [] = Some (s, st)
    /\ Copy s st = Some (c, st1)
    /\ Proposer c st1 = Some ((Some p1, c1), st2)
    /\ st2 !! p1 = Some v1
    /\ IncrementAccum 1 s st2 = Some (s', st3)
    /\ Proposer c1 st3 = Some ((Some p2, c2), st4)
    /\ st4 !! p2 = Some v2
    /\ Accum v1 = -1 /\ Accum v2 = 1
    /\ Address v1 = Address v2
    /\ Validators c2 = Validators c
    /\ deref st4 (Validators c) = deref st1 (Validators c).
Proof.
  do 14 eexists. run_conj. vm_compute; reflexivity.
Qed.

(** ** The store monad and dereferencing *)

Lemma Mbind_eq {A B} (m : M A) (k : A -> M B) st a st' :
  m st = Some (a, st') -> Mbind m k st = k a st'.
Proof. unfold Mbind. now intros ->. Qed.

Lemma Mbind_assoc {A B C} (m : M A) (f : A -> M B) (g : B -> M C) st :
  Mbind (Mbind m f) g st = Mbind m (fun x => Mbind (f x) g) st.
Proof. unfold Mbind. destruct (m st) as [[a st']|]; reflexivity. Qed.

Lemma Mbind_Mret {A B} (a : A) (k : A -> M B) st : Mbind (Mret a) k st = k a st.
Proof. reflexivity. Qed.

(** Reassociate the binds of the goal, then run its first computation
    with the equation [E]. *)
Ltac mnorm := repeat (rewrite Mbind_assoc || rewrite Mbind_Mret); cbn beta zeta.
Tactic Notation "mstep" uconstr(E) :=
  mnorm; rewrite (Mbind_eq _ _ _ _ _ E); mnorm.

Lemma load_eq st p v : st !! p = Some v -> load p st = Some (v, st).
Proof. unfold load. now intros ->. Qed.

Lemma set_Accum_eq st p v a :
  st !! p = Some v -> set_Accum p a st = Some (tt, <[p := with_Accum v a]> st).
Proof. unfold set_Accum. now intros ->. Qed.

Lemma index_eq (s : list ptr) i p st :
  s !! i = Some p -> index s i st = Some (p, st).
Proof. unfold index. now intros ->. Qed.

Lemma deref_Forall2 st ps vs :
  deref st ps = Some vs <-> Forall2 (fun p v => st !! p = Some v) ps vs.
Proof. unfold deref. apply mapM_Some. Qed.

Lemma deref_nil st : deref st [] = Some [].
Proof. reflexivity. Qed.

Lemma deref_cons st p ps v vs :
  st !! p = Some v -> deref st ps = Some vs -> deref st (p :: ps) = Some (v :: vs).
Proof.
  rewrite !deref_Forall2. intros Hp Hps. now constructor.
Qed.

Lemma deref_cons_inv st p ps vs :
  deref st (p :: ps) = Some vs ->
  exists v vs', vs = v :: vs' /\ st !! p = Some v /\ deref st ps = Some vs'.
Proof.
  rewrite deref_Forall2. intros H. inversion H as [|? v ? vs' Hp Hps]; subst.
  exists v, vs'. rewrite deref_Forall2. auto.
Qed.

Lemma deref_length st ps vs : deref st ps = Some vs -> length vs = length ps.
Proof. rewrite deref_Forall2. intros H. symmetry. eapply Forall2_length, H. Qed.

Lemma deref_lookup st ps vs i p :
  deref st ps = Some vs -> ps !! i = Some p ->
  exists v, vs !! i = Some v /\ st !! p = Some v.
Proof.
  rewrite deref_Forall2. intros H Hi.
  destruct (Forall2_lookup_l _ _ _ _ _ H Hi) as (v & Hv & Hp). eauto.
Qed.

Lemma deref_elem st ps vs p :
  deref st ps = Some vs -> p ∈ ps -> is_Some (st !! p).
Proof.
  intros H Hin. apply list_elem_of_lookup in Hin as [i Hi].
  destruct (deref_lookup _ _ _ _ _ H Hi) as (v & _ & Hv). eauto.
Qed.

Lemma deref_is_Some st ps :
  (forall p, p ∈ ps -> is_Some (st !! p)) -> is_Some (deref st ps).
Proof.
  intros H. unfold deref. apply mapM_is_Some, Forall_forall. exact H.
Qed.

(** Objects allocated later do not disturb the ones a slice refers to. *)
Lemma deref_app st ext ps vs :
  deref st ps = Some vs -> deref (st ++ ext) ps = Some vs.
Proof.
  rewrite !deref_Forall2. intros H. eapply Forall2_impl; [exact H|].
  intros p v Hp. cbn beta. rewrite lookup_app_l; [exact Hp|].
  eapply lookup_lt_Some, Hp.
Qed.

Lemma Mmap_load st ps vs :
  deref st ps = Some vs -> Mmap load ps st = Some (vs, st).
Proof.
  revert vs. induction ps as [|p ps IH]; intros vs H.
  - cbn in H. injection H as <-. reflexivity.
  - apply deref_cons_inv in H as (v & vs' & -> & Hp & Hps).
    cbn [Mmap]. mstep (load_eq _ _ _ Hp). mstep (IH _ Hps). reflexivity.
Qed.

(** ** Total voting power *)

Lemma total_fold_same vs vs' acc :
  Forall2 same_but_Accum vs vs' ->
  fold_left (fun acc v => Int64.add acc (VotingPower v)) vs acc
  = fold_left (fun acc v => Int64.add acc (VotingPower v)) vs' acc.
Proof.
  intros H. revert acc. induction H as [|v v' vs vs' (_ & _ & Hp) _ IH]; intros acc.
  - reflexivity.
  - cbn. rewrite Hp. apply IH.
Qed.

Lemma total_of_same vs vs' : Forall2 same_but_Accum vs vs' -> total_of vs = total_of vs'.
Proof. apply total_fold_same. Qed.

Lemma TotalVotingPower_fold st ps vs acc :
  deref st ps = Some vs ->
  Mfold TotalVotingPower_add acc ps st
  = Some (fold_left (fun acc v => Int64.add acc (VotingPower v)) vs acc, st).
Proof.
  revert vs acc. induction ps as [|p ps IH]; intros vs acc H.
  - cbn in H. injection H as <-. reflexivity.
  - apply deref_cons_inv in H as (v & vs' & -> & Hp & Hps).
    cbn [Mfold fold_left]. unfold TotalVotingPower_add at 1.
    mstep (load_eq _ _ _ Hp). apply IH, Hps.
Qed.

Lemma with_totalVotingPower_same valSet :
  with_totalVotingPower valSet (totalVotingPower valSet) = valSet.
Proof. now destruct valSet. Qed.

(** [TotalVotingPower()] reads the members, returns
    [TotalVotingPower_value] and leaves it in the cache. *)
Lemma TotalVotingPower_eq st valSet vs :
  deref st (Validators valSet) = Some vs ->
  TotalVotingPower valSet st
  = Some ((TotalVotingPower_value valSet vs,
           with_totalVotingPower valSet (TotalVotingPower_value valSet vs)), st).
Proof.
  intros H. unfold TotalVotingPower, TotalVotingPower_value.
  destruct (totalVotingPower valSet =? 0) eqn:E.
  - apply Z.eqb_eq in E.
    mstep (TotalVotingPower_fold _ _ _ _ H).
    unfold total_of. now rewrite E.
  - now rewrite with_totalVotingPower_same.
Qed.

Lemma TotalVotingPower_value_cached valSet vs :
  TotalVotingPower_value
    (with_totalVotingPower valSet (TotalVotingPower_value valSet vs)) vs
  = TotalVotingPower_value valSet vs.
Proof.
  unfold TotalVotingPower_value. cbn.
  destruct (totalVotingPower valSet =? 0) eqn:E.
  - now destruct (total_of vs =? 0).
  - now rewrite E.
Qed.

Lemma cache_consistent_same valSet vs vs' :
  Forall2 same_but_Accum vs vs' ->
  cache_consistent valSet vs -> cache_consistent valSet vs'.
Proof.
  intros Hf. unfold cache_consistent. now rewrite (total_of_same _ _ Hf).
Qed.

(** Filling the cache keeps it consistent. *)
Lemma cache_consistent_filled valSet vs :
  cache_consistent valSet vs ->
  cache_consistent
    (with_totalVotingPower valSet (TotalVotingPower_value valSet vs)) vs.
Proof.
  unfold cache_consistent, TotalVotingPower_value. cbn.
  intros [E|E]; rewrite E; [right; reflexivity|].
  destruct (total_of vs =? 0); right; reflexivity.
Qed.

Lemma TotalVotingPower_value_same valSet vs vs' :
  Forall2 same_but_Accum vs vs' ->
  TotalVotingPower_value valSet vs = TotalVotingPower_value valSet vs'.
Proof.
  intros H. unfold TotalVotingPower_value. now rewrite (total_of_same _ _ H).
Qed.

(** ** The queue keeps its entries

    Sifting only swaps entries, so the queue never gains or loses one. *)

Section HeapEntries.
Variable P : pqItem -> Prop.

Lemma Swap_keeps pq i j : Forall P pq -> Forall P (Heap.Swap pq i j).
Proof.
  intros H. unfold Heap.Swap.
  destruct (pq !! i) as [a|] eqn:Ea; [|exact H].
  destruct (pq !! j) as [b|] eqn:Eb; [|exact H].
  apply Forall_insert; [apply Forall_insert; [exact H|]|];
    eapply Forall_lookup_1; eauto.
Qed.

Lemma Swap_length pq i j : length (Heap.Swap pq i j) = length pq.
Proof.
  unfold Heap.Swap.
  destruct (pq !! i); [|reflexivity]. destruct (pq !! j); [|reflexivity].
  now rewrite !length_insert.
Qed.

Lemma up_keeps fuel pq j : Forall P pq -> Forall P (Heap.up fuel pq j).
Proof.
  revert pq j. induction fuel as [|fuel IH]; intros pq j H; cbn; [exact H|].
  destruct (_ || _); [exact H|]. apply IH, Swap_keeps, H.
Qed.

Lemma up_length fuel pq j : length (Heap.up fuel pq j) = length pq.
Proof.
  revert pq j. induction fuel as [|fuel IH]; intros pq j; cbn; [reflexivity|].
  destruct (_ || _); [reflexivity|]. now rewrite IH, Swap_length.
Qed.

Lemma down_keeps fuel pq i n :
  Forall P pq -> Forall P (fst (Heap.down fuel pq i n)).
Proof.
  revert pq i. induction fuel as [|fuel IH]; intros pq i H; cbn; [exact H|].
  destruct (n <=? _)%nat; [exact H|].
  destruct (negb _); [exact H|]. apply IH, Swap_keeps, H.
Qed.

Lemma down_length fuel pq i n :
  length (fst (Heap.down fuel pq i n)) = length pq.
Proof.
  revert pq i. induction fuel as [|fuel IH]; intros pq i; cbn; [reflexivity|].
  destruct (n <=? _)%nat; [reflexivity|].
  destruct (negb _); [reflexivity|]. now rewrite IH, Swap_length.
Qed.

Lemma Fix_keeps pq i : Forall P pq -> Forall P (Heap.Fix pq i).
Proof.
  intros H. unfold Heap.Fix.
  pose proof (down_keeps (length pq) pq i (length pq) H) as Hd.
  destruct (Heap.down _ _ _ _) as [pq' i']. cbn in Hd.
  destruct (i <? i')%nat; [exact Hd|]. now apply up_keeps.
Qed.

Lemma Fix_length pq i : length (Heap.Fix pq i) = length pq.
Proof.
  unfold Heap.Fix.
  pose proof (down_length (length pq) pq i (length pq)) as Hd.
  destruct (Heap.down _ _ _ _) as [pq' i']. cbn in Hd.
  destruct (i <? i')%nat; [exact Hd|]. now rewrite up_length.
Qed.

Lemma Push_keeps h v a :
  Forall P h -> P (mkItem v a) -> Forall P (Heap.Push h v a).
Proof.
  intros H Hv. unfold Heap.Push. apply up_keeps, Forall_app. auto.
Qed.

Lemma Push_length h v a : length (Heap.Push h v a) = S (length h).
Proof.
  unfold Heap.Push. rewrite up_length, length_app. cbn. lia.
Qed.

Lemma Update_keeps h v a :
  h <> [] ->
  exists h', Heap.Update h v a = Some h' /\ length h' = length h
             /\ (Forall P h -> P (mkItem v a) -> Forall P h').
Proof.
  destruct h as [|x rest]; [congruence|]. intros _.
  eexists. split; [reflexivity|]. split.
  - now rewrite Fix_length.
  - intros H Hv. apply Fix_keeps. inversion H; subst. now constructor.
Qed.
End HeapEntries.

Lemma Peek_within ps h :
  heap_within ps h -> h <> [] -> exists p, Heap.Peek h = Some p /\ p ∈ ps.
Proof.
  destruct h as [|x rest]; [congruence|]. intros H _.
  exists (value x). split; [reflexivity|]. now inversion H.
Qed.

(** The fuel given to the sifting loops is never used up: any larger
    amount gives the same result. *)
Lemma up_fuel fuel1 :
  forall fuel2 pq j,
    (j < fuel1)%nat -> (j < fuel2)%nat -> Heap.up fuel1 pq j = Heap.up fuel2 pq j.
Proof.
  induction fuel1 as [|fuel1 IH]; intros [|fuel2] pq j H1 H2; try lia.
  cbn [Heap.up].
  destruct (Nat.eqb_spec ((j - 1) / 2) j) as [E|E]; [reflexivity|].
  cbn [orb]. destruct (negb _); [reflexivity|].
  assert ((j - 1) / 2 < j)%nat.
  { pose proof (Nat.div_mod_eq (j - 1) 2).
    pose proof (Nat.mod_upper_bound (j - 1) 2 ltac:(lia)). lia. }
  apply IH; lia.
Qed.

Lemma down_fuel fuel1 :
  forall fuel2 pq i n,
    (n - i <= fuel1)%nat -> (n - i <= fuel2)%nat ->
    Heap.down fuel1 pq i n = Heap.down fuel2 pq i n.
Proof.
  induction fuel1 as [|fuel1 IH]; intros [|fuel2] pq i n H1 H2;
    cbn [Heap.down];
    destruct (Nat.leb_spec n (2 * i + 1)) as [E|E]; try reflexivity; try lia.
  destruct (negb _); [reflexivity|].
  destruct (_ && _); apply IH; lia.
Qed.

(** ** Stores that differ in accum only *)

Lemma same_but_Accum_refl v : same_but_Accum v v.
Proof. now repeat split. Qed.

Lemma same_but_Accum_trans v1 v2 v3 :
  same_but_Accum v1 v2 -> same_but_Accum v2 v3 -> same_but_Accum v1 v3.
Proof. unfold same_but_Accum. intuition congruence. Qed.

Lemma only_Accum_changed_refl ps st : only_Accum_changed ps st st.
Proof.
  split; [reflexivity|]. split; [|reflexivity].
  intros p v Hp. exists v. split; [exact Hp|apply same_but_Accum_refl].
Qed.

Lemma only_Accum_changed_trans ps st1 st2 st3 :
  only_Accum_changed ps st1 st2 -> only_Accum_changed ps st2 st3 ->
  only_Accum_changed ps st1 st3.
Proof.
  intros (L1 & S1 & F1) (L2 & S2 & F2). split; [congruence|]. split.
  - intros p v Hp. destruct (S1 _ _ Hp) as (v' & Hp' & Hs).
    destruct (S2 _ _ Hp') as (v'' & Hp'' & Hs').
    exists v''. split; [exact Hp''|]. eapply same_but_Accum_trans; eauto.
  - intros p Hp. now rewrite F2, F1.
Qed.

Lemma only_Accum_changed_set ps st p v a :
  st !! p = Some v -> p ∈ ps ->
  only_Accum_changed ps st (<[p := with_Accum v a]> st).
Proof.
  intros Hp Hin. split; [apply length_insert|]. split.
  - intros q w Hq. destruct (decide (q = p)) as [->|Hne].
    + exists (with_Accum v a). split.
      * apply list_lookup_insert_eq. eapply lookup_lt_Some, Hp.
      * assert (w = v) as -> by congruence. now repeat split.
    + exists w. split; [|apply same_but_Accum_refl].
      rewrite list_lookup_insert_ne; auto.
  - intros q Hq. apply list_lookup_insert_ne. intros ->. auto.
Qed.

Lemma only_Accum_changed_deref qs st st' ps vs :
  only_Accum_changed qs st st' -> deref st ps = Some vs ->
  exists vs', deref st' ps = Some vs' /\ Forall2 same_but_Accum vs vs'.
Proof.
  intros (_ & S & _). revert vs. induction ps as [|p ps IH]; intros vs H.
  - cbn in H. injection H as <-. exists []. split; [reflexivity|constructor].
  - apply deref_cons_inv in H as (v & vs0 & -> & Hp & Hps).
    destruct (IH _ Hps) as (vs' & Hd & Hf).
    destruct (S _ _ Hp) as (v' & Hp' & Hs).
    exists (v' :: vs'). split; [now apply deref_cons|now constructor].
Qed.

Lemma same_but_Accum_addresses vs vs' :
  Forall2 same_but_Accum vs vs' -> map Address vs' = map Address vs.
Proof.
  induction 1 as [|v v' vs vs' (Ha & _) _ IH]; cbn; congruence.
Qed.

(** ** IncrementAccum *)

Lemma IncrementAccum_push_fold times all ps h st :
  (forall p, p ∈ ps -> p ∈ all) ->
  (forall p, p ∈ ps -> is_Some (st !! p)) ->
  heap_within all h ->
  exists h' st',
    Mfold (IncrementAccum_push_one times) h ps st = Some (h', st')
    /\ only_Accum_changed all st st'
    /\ heap_within all h'
    /\ length h' = (length h + length ps)%nat.
Proof.
  revert h st. induction ps as [|p ps IH]; intros h st Hall Hval Hh.
  - exists h, st. cbn. splits; auto using only_Accum_changed_refl; lia.
  - destruct (Hval p ltac:(left)) as [v Hp].
    pose (a := Int64.add (Accum v) (Int64.mul (VotingPower v) times)).
    pose proof (only_Accum_changed_set all st p v a Hp (Hall p ltac:(left))) as Hst.
    destruct (IH (Heap.Push h p a) (<[p := with_Accum v a]> st)) as (h' & st' & Hf & Hc & Hw & Hl).
    + intros q Hq. apply Hall. now right.
    + intros q Hq. apply lookup_lt_is_Some. rewrite length_insert.
      apply lookup_lt_is_Some, Hval. now right.
    + apply Push_keeps; [exact Hh|]. cbn. apply Hall. left.
    + exists h', st'. splits.
      * cbn [Mfold]. unfold IncrementAccum_push_one at 1.
        mstep (load_eq _ _ _ Hp). fold a.
        mstep (set_Accum_eq _ _ _ a Hp). exact Hf.
      * apply (only_Accum_changed_trans _ _ _ _ Hst Hc).
      * exact Hw.
      * rewrite Hl, Push_length. cbn. lia.
Qed.

Lemma IncrementAccum_step_spec deTime i valSet h st vs :
  deref st (Validators valSet) = Some vs ->
  h <> [] ->
  heap_within (Validators valSet) h ->
  exists valSet' h' st',
    IncrementAccum_step deTime i (valSet, h) st = Some ((valSet', h'), st')
    /\ Validators valSet' = Validators valSet
    /\ only_Accum_changed (Validators valSet) st st'
    /\ length h' = length h
    /\ heap_within (Validators valSet) h'
    /\ TotalVotingPower_value valSet' vs = TotalVotingPower_value valSet vs
    /\ (cache_consistent valSet vs -> cache_consistent valSet' vs).
Proof.
  intros Hd Hne Hw.
  destruct (Peek_within _ _ Hw Hne) as (p & Hpeek & Hin).
  destruct (deref_elem _ _ _ _ Hd Hin) as [v Hp].
  set (s1 := if i =? deTime then with_proposer valSet (Some p) else valSet).
  assert (Hs1 : Validators s1 = Validators valSet
                /\ totalVotingPower s1 = totalVotingPower valSet)
    by (subst s1; destruct (i =? deTime); auto).
  destruct Hs1 as [Hv1 Ht1].
  assert (Hd1 : deref st (Validators s1) = Some vs) by now rewrite Hv1.
  set (t := TotalVotingPower_value s1 vs).
  set (a := Int64.sub (Accum v) t).
  destruct (Update_keeps (fun it => value it ∈ Validators valSet) h p a Hne)
    as (h' & Hu & Hl & Hk).
  exists (with_totalVotingPower s1 t), h', (<[p := with_Accum v a]> st).
  splits.
  - unfold IncrementAccum_step. rewrite Hpeek. fold s1.
    mstep (TotalVotingPower_eq _ _ _ Hd1). fold t.
    mstep (load_eq _ _ _ Hp). fold a.
    mstep (set_Accum_eq _ _ _ a Hp).
    now rewrite Hu.
  - exact Hv1.
  - apply (only_Accum_changed_set _ _ _ _ a Hp Hin).
  - exact Hl.
  - apply Hk; [exact Hw|exact Hin].
  - subst t. rewrite TotalVotingPower_value_cached.
    unfold TotalVotingPower_value. now rewrite Ht1.
  - intros Hc. apply cache_consistent_filled.
    unfold cache_consistent in *. now rewrite Ht1.
Qed.

Lemma IncrementAccum_loop_spec n deTime :
  forall i valSet h st vs,
    deref st (Validators valSet) = Some vs ->
    h <> [] ->
    heap_within (Validators valSet) h ->
    exists valSet' h' st',
      IncrementAccum_loop n deTime i (valSet, h) st = Some ((valSet', h'), st')
      /\ Validators valSet' = Validators valSet
      /\ only_Accum_changed (Validators valSet) st st'
      /\ TotalVotingPower_value valSet' vs = TotalVotingPower_value valSet vs
      /\ (cache_consistent valSet vs -> cache_consistent valSet' vs).
Proof.
  induction n as [|n IH]; intros i valSet h st vs Hd Hne Hw.
  - exists valSet, h, st. splits; try reflexivity; auto.
    apply only_Accum_changed_refl.
  - destruct (IncrementAccum_step_spec deTime i _ _ _ _ Hd Hne Hw)
      as (s1 & h1 & st1 & Hstep & Hv1 & Hc1 & Hl1 & Hw1 & Ht1 & Hk1).
    destruct (only_Accum_changed_deref _ _ _ _ _ Hc1 Hd) as (vs1 & Hd1 & Hf1).
    rewrite <- Hv1 in Hd1, Hw1.
    assert (Hne1 : h1 <> []) by (destruct h1, h; cbn in *; congruence).
    destruct (IH (i + 1) s1 h1 st1 vs1 Hd1 Hne1 Hw1)
      as (s2 & h2 & st2 & Hloop & Hv2 & Hc2 & Ht2 & Hk2).
    exists s2, h2, st2. splits.
    + cbn [IncrementAccum_loop]. now mstep Hstep.
    + congruence.
    + rewrite Hv1 in Hc2. apply (only_Accum_changed_trans _ _ _ _ Hc1 Hc2).
    + rewrite (TotalVotingPower_value_same s2 vs vs1 Hf1), Ht2.
      now rewrite <- (TotalVotingPower_value_same s1 vs vs1 Hf1).
    + intros Hk. apply (cache_consistent_same _ vs1 vs).
      * clear -Hf1. induction Hf1 as [|? ? ? ? (Ha & Hp & Hv)]; constructor; auto.
        repeat split; congruence.
      * apply Hk2, (cache_consistent_same _ vs vs1 Hf1), Hk1, Hk.
Qed.

(** C10: on a non-empty set whose pointers are live, [IncrementAccum]
    with [times >= 1] returns; the slice of members is the same slice of
    pointers; in the store only the accum of members may differ (every
    object keeps its address, key and voting power, no object appears or
    disappears, objects outside the set are untouched); the members are
    in the same address order and the invariant is kept; a consistent
    cache stays consistent; and [TotalVotingPower()] returns the same
    value before and after. *)
Theorem IncrementAccum_frame (st : Store) (valSet : ValidatorSet) (times : Z)
    (vs : list Validator) :
  deref st (Validators valSet) = Some vs ->
  Validators valSet <> [] ->
  1 <= times ->
  exists valSet' st' vs',
    IncrementAccum times valSet st = Some (valSet', st')
    /\ Validators valSet' = Validators valSet
    /\ only_Accum_changed (Validators valSet) st st'
    /\ deref st' (Validators valSet') = Some vs'
    /\ Forall2 same_but_Accum vs vs'
    /\ map Address vs' = map Address vs
    /\ (sorted_unique st valSet -> sorted_unique st' valSet')
    /\ (cache_consistent valSet vs -> cache_consistent valSet' vs')
    /\ exists t s1 s1',
         TotalVotingPower valSet st = Some ((t, s1), st)
         /\ TotalVotingPower valSet' st' = Some ((t, s1'), st').
Proof.
  intros Hd Hne Htimes.
  destruct (IncrementAccum_push_fold times (Validators valSet)
              (Validators valSet) Heap.NewHeap st)
    as (h & st1 & Hpush & Hc1 & Hw & Hl); auto.
  { intros p Hp. eapply deref_elem; eauto. }
  { constructor. }
  destruct (only_Accum_changed_deref _ _ _ _ _ Hc1 Hd) as (vs1 & Hd1 & Hf1).
  assert (Hne1 : h <> []).
  { destruct h; [|congruence]. destruct (Validators valSet); [congruence|].
    cbn in Hl. lia. }
  destruct (IncrementAccum_loop_spec (Z.to_nat times) (Int64.sub times 1)
              0 valSet h st1 vs1 Hd1 Hne1 Hw)
    as (s2 & h2 & st2 & Hloop & Hv2 & Hc2 & Ht2 & Hk2).
  pose proof (only_Accum_changed_trans _ _ _ _ Hc1 Hc2) as Hc.
  destruct (only_Accum_changed_deref _ _ _ _ _ Hc Hd) as (vs2 & Hd2 & Hf2).
  rewrite <- Hv2 in Hd2.
  exists s2, st2, vs2. splits.
  - unfold IncrementAccum, IncrementAccum_push.
    mstep Hpush. now mstep Hloop.
  - exact Hv2.
  - exact Hc.
  - exact Hd2.
  - exact Hf2.
  - apply same_but_Accum_addresses, Hf2.
  - intros (ws & Hws & Hsorted & Hnodup).
    assert (ws = vs) as -> by congruence.
    exists vs2. rewrite (same_but_Accum_addresses _ _ Hf2). auto.
  - intros Hk. apply (cache_consistent_same _ vs vs2 Hf2).
    apply (cache_consistent_same _ vs1 vs).
    + clear -Hf1. induction Hf1 as [|? ? ? ? (Ha & Hp & Hv)]; constructor; auto.
      repeat split; congruence.
    + apply Hk2, (cache_consistent_same _ vs vs1 Hf1), Hk.
  - exists (TotalVotingPower_value valSet vs). do 2 eexists. split.
    + apply TotalVotingPower_eq, Hd.
    + assert (Ht : TotalVotingPower_value s2 vs2 = TotalVotingPower_value valSet vs).
      { rewrite <- (TotalVotingPower_value_same s2 vs vs2 Hf2).
        rewrite (TotalVotingPower_value_same s2 vs vs1 Hf1), Ht2.
        now rewrite <- (TotalVotingPower_value_same valSet vs vs1 Hf1). }
      rewrite (TotalVotingPower_eq _ _ _ Hd2), Ht. reflexivity.
Qed.

(** ** Sorted address lists *)

Lemma StronglySorted_lookup_lt {A} (R : A -> A -> Prop) (l : list A) i j a b :
  StronglySorted R l -> (i < j)%nat -> l !! i = Some a -> l !! j = Some b -> R a b.
Proof.
  intros H. revert i j. induction H as [|x l Hs IH Hx]; intros i j Hij Hi Hj.
  - discriminate.
  - destruct j as [|j]; [lia|]. destruct i as [|i]; cbn in Hi, Hj.
    + injection Hi as <-. eapply Forall_lookup_1; eauto.
    + eapply (IH i j); eauto. lia.
Qed.

Lemma StronglySorted_addr_NoDup (l : list (list byte)) :
  StronglySorted addr_lt l -> NoDup l.
Proof.
  induction 1 as [|x l Hs IH Hx]; constructor; [|exact IH].
  intros Hin. apply (addr_lt_irrefl x).
  rewrite Forall_forall in Hx. apply Hx, Hin.
Qed.

Lemma StronglySorted_insert_at (l : list (list byte)) r a :
  StronglySorted addr_lt l ->
  Forall (fun x => addr_lt x a) (take r l) ->
  Forall (addr_lt a) (drop r l) ->
  StronglySorted addr_lt (take r l ++ a :: drop r l).
Proof.
  intros Hs Hl Hr. rewrite <- (take_drop r l) in Hs.
  apply StronglySorted_app in Hs as (Hx & Hs1 & Hs2).
  apply StronglySorted_app. split; [|split; [exact Hs1|]].
  - intros x1 x2 H1 H2. rewrite Forall_forall in Hl, Hr.
    apply elem_of_cons in H2 as [->|H2]; [now apply Hl|].
    eapply addr_lt_trans; [apply Hl, H1|apply Hr, H2].
  - now apply StronglySorted_cons.
Qed.

Lemma StronglySorted_delete_at {A} (R : A -> A -> Prop) (l : list A) r :
  StronglySorted R l -> StronglySorted R (take r l ++ drop (S r) l).
Proof.
  intros Hs. rewrite <- (take_drop r l) in Hs.
  apply StronglySorted_app in Hs as (Hx & Hs1 & Hs2).
  apply StronglySorted_app. split; [|split; [exact Hs1|]].
  - intros x1 x2 H1 H2. apply Hx; [exact H1|].
    rewrite <- (Nat.add_1_r r), <- drop_drop in H2.
    destruct (drop r l) as [|y k]; [exact H2|]. cbn in H2. now right.
  - rewrite <- (Nat.add_1_r r), <- drop_drop.
    destruct (drop r l) as [|y k]; [constructor|].
    cbn. now apply StronglySorted_cons in Hs2 as [_ ?].
Qed.

(** ** Binary search *)

Section Search.
Local Open Scope nat_scope.

Lemma half_between i j : i < j -> i <= (i + j) / 2 < j.
Proof.
  intros Hij. pose proof (Nat.div_mod_eq (i + j) 2) as E.
  pose proof (Nat.mod_upper_bound (i + j) 2 ltac:(lia)). lia.
Qed.

(** The loop returns, within its fuel, a boundary of [g]: [g] fails
    just below the result and holds at it. *)
Lemma sort_Search_loop_spec (f : nat -> M bool) (g : nat -> bool) st n :
  (forall h, h < n -> f h st = Some (g h, st)) ->
  forall fuel i j,
    i <= j <= n -> j - i <= fuel ->
    (i = 0 \/ g (i - 1) = false) -> (j = n \/ g j = true) ->
    exists r, sort_Search_loop fuel f i j st = Some (r, st)
              /\ r <= n
              /\ (r = 0 \/ g (r - 1) = false) /\ (r = n \/ g r = true).
Proof.
  intros Hf. induction fuel as [|fuel IH]; intros i j Hij Hfuel Hi Hj.
  - assert (i = j) as -> by lia. exists j. cbn. splits; auto. lia.
  - cbn [sort_Search_loop]. destruct (i <? j) eqn:E.
    + apply Nat.ltb_lt in E. pose proof (half_between i j E) as Hh.
      mstep (Hf ((i + j) / 2) ltac:(lia)).
      destruct (g ((i + j) / 2)) eqn:G; cbn [negb].
      * apply IH; [lia|lia|exact Hi|right; exact G].
      * apply IH; [lia|lia| |exact Hj]. right.
        now replace ((i + j) / 2 + 1 - 1) with ((i + j) / 2) by lia.
    + apply Nat.ltb_ge in E. assert (i = j) as -> by lia.
      exists j. splits; auto. lia.
Qed.

Lemma search_pred_eq st valSet vs address i v :
  deref st (Validators valSet) = Some vs -> vs !! i = Some v ->
  search_pred address valSet i st
  = Some ((bytes_Compare address (Address v) <=? 0)%Z, st).
Proof.
  intros Hd Hi. unfold search_pred.
  apply deref_Forall2 in Hd.
  destruct (Forall2_lookup_r _ _ _ _ _ Hd Hi) as (p & Hp & Hv).
  mstep (index_eq _ _ _ _ Hp). now mstep (load_eq _ _ _ Hv).
Qed.

(** On a sorted set the search returns the lower bound of [address]:
    the members before the result have smaller addresses, the others
    do not. *)
Lemma search_address_spec st valSet vs address :
  deref st (Validators valSet) = Some vs ->
  StronglySorted addr_lt (map Address vs) ->
  exists r, search_address address valSet st = Some (r, st)
            /\ r <= length vs
            /\ Forall (fun a => addr_lt a address) (take r (map Address vs))
            /\ Forall (addr_le address) (drop r (map Address vs)).
Proof.
  intros Hd Hs.
  pose (g := fun h => match vs !! h with
                      | Some v => (bytes_Compare address (Address v) <=? 0)%Z
                      | None => false
                      end).
  pose proof (deref_length _ _ _ Hd) as Hlen.
  destruct (sort_Search_loop_spec (search_pred address valSet) g st (length vs))
    with (fuel := length vs) (i := 0) (j := length vs)
    as (r & Hr & Hle & Hlo & Hhi); auto; try lia.
  { intros h Hh. destruct (lookup_lt_is_Some_2 vs h Hh) as [v Hv].
    rewrite (search_pred_eq _ _ _ _ _ _ Hd Hv). unfold g. now rewrite Hv. }
  exists r. splits; [|exact Hle| |].
  - unfold search_address, sort_Search. now rewrite <- Hlen.
  - apply Forall_lookup. intros k a Hk.
    apply lookup_take_Some in Hk as [Hk Hkr].
    destruct Hlo as [->|Hlo]; [lia|].
    unfold g in Hlo. destruct (vs !! (r - 1)) as [v|] eqn:Ev.
    2:{ apply lookup_ge_None in Ev. lia. }
    assert (Hv : addr_lt (Address v) address).
    { unfold addr_lt. rewrite bytes_Compare_antisym.
      apply Z.leb_gt in Hlo. pose proof (bytes_Compare_range address (Address v)).
      lia. }
    assert (Hav : map Address vs !! (r - 1) = Some (Address v)).
    { change (map Address vs) with (Address <$> vs).
      now rewrite list_lookup_fmap, Ev. }
    destruct (decide (k = r - 1)) as [->|Hne].
    + congruence.
    + eapply addr_lt_trans; [|exact Hv].
      eapply (StronglySorted_lookup_lt _ _ k (r - 1)); eauto. lia.
  - apply Forall_lookup. intros k a Hk. rewrite lookup_drop in Hk.
    assert (r + k < length vs).
    { apply lookup_lt_Some in Hk. now rewrite length_map in Hk. }
    destruct Hhi as [->|Hhi]; [lia|].
    unfold g in Hhi. destruct (vs !! r) as [v|] eqn:Ev.
    2:{ apply lookup_ge_None in Ev. lia. }
    assert (Hv : addr_le address (Address v)).
    { unfold addr_le. apply Z.leb_le in Hhi. lia. }
    assert (Hav : map Address vs !! r = Some (Address v)).
    { change (map Address vs) with (Address <$> vs).
      now rewrite list_lookup_fmap, Ev. }
    destruct (decide (k = 0)) as [->|Hne].
    + rewrite Nat.add_0_r in Hk. congruence.
    + eapply addr_le_trans; [exact Hv|]. apply addr_lt_le.
      eapply (StronglySorted_lookup_lt _ _ r (r + k)); eauto. lia.
Qed.
End Search.

(** ** Add, Update and Remove keep the registry sorted *)

Lemma sorted_unique_intro st valSet vs :
  deref st (Validators valSet) = Some vs ->
  StronglySorted addr_lt (map Address vs) ->
  sorted_unique st valSet.
Proof.
  intros Hd Hs. exists vs. auto using StronglySorted_addr_NoDup.
Qed.

Lemma map_Address_lookup (vs : list Validator) i v :
  vs !! i = Some v -> map Address vs !! i = Some (Address v).
Proof.
  intros Hv. change (map Address vs) with (Address <$> vs).
  now rewrite list_lookup_fmap, Hv.
Qed.

Lemma found_at_spec st valSet vs address r :
  deref st (Validators valSet) = Some vs ->
  (r <= length vs)%nat ->
  exists b, found_at address valSet r st = Some (b, st)
            /\ (b = true <-> exists v, vs !! r = Some v /\ Address v = address).
Proof.
  intros Hd Hr. pose proof (deref_length _ _ _ Hd) as Hlen.
  unfold found_at. destruct (r =? length (Validators valSet))%nat eqn:E.
  - apply Nat.eqb_eq in E. exists false. split; [reflexivity|].
    split; [discriminate|]. intros (v & Hv & _).
    apply lookup_lt_Some in Hv. lia.
  - apply Nat.eqb_neq in E.
    destruct (lookup_lt_is_Some_2 (Validators valSet) r ltac:(lia)) as [p Hp].
    destruct (deref_lookup _ _ _ _ _ Hd Hp) as (v & Hv & Hpv).
    exists (bytes_Compare (Address v) address =? 0). split.
    + mstep (index_eq _ _ _ _ Hp). now mstep (load_eq _ _ _ Hpv).
    + rewrite Z.eqb_eq, bytes_Compare_eq. split.
      * intros <-. eauto.
      * intros (w & Hw & <-). congruence.
Qed.

Lemma lookup_alloc (st : Store) v : (st ++ [v]) !! length st = Some v.
Proof. now rewrite lookup_app_r, Nat.sub_diag by lia. Qed.

Lemma Add_sorted st valSet val :
  sorted_unique st valSet ->
  exists b valSet' st',
    Add val valSet st = Some ((b, valSet'), st') /\ sorted_unique st' valSet'.
Proof.
  intros (vs & Hd & Hs & _).
  pose proof (deref_length _ _ _ Hd) as Hlen.
  pose proof (deref_app st [val] _ _ Hd) as Hd1.
  destruct (search_address_spec _ _ _ (Address val) Hd1 Hs)
    as (r & Hsearch & Hr & Hlo & Hhi).
  unfold Add.
  mstep (eq_refl : alloc val st = Some (length st, st ++ [val])).
  mstep Hsearch.
  destruct (r =? length (Validators valSet))%nat eqn:E.
  - apply Nat.eqb_eq in E. do 3 eexists. split; [reflexivity|].
    apply (sorted_unique_intro _ _ (vs ++ [val])).
    + cbn. apply deref_Forall2, Forall2_app.
      * now apply deref_Forall2.
      * repeat constructor. apply lookup_alloc.
    + rewrite map_app. cbn.
      rewrite firstn_all2 in Hlo by (rewrite length_map; lia).
      apply StronglySorted_app. split; [|split; [exact Hs|repeat constructor]].
      intros x1 x2 H1 H2. apply list_elem_of_singleton in H2 as ->.
      rewrite Forall_forall in Hlo. now apply Hlo.
  - apply Nat.eqb_neq in E.
    destruct (found_at_spec _ _ _ (Address val) r Hd1 Hr) as (b & Hfound & Hb).
    mstep Hfound. destruct b.
    + do 3 eexists. split; [reflexivity|]. exact (sorted_unique_intro _ _ _ Hd1 Hs).
    + do 3 eexists. split; [reflexivity|].
      apply (sorted_unique_intro _ _ (take r vs ++ val :: drop r vs)).
      * cbn. apply deref_Forall2, Forall2_app.
        -- apply Forall2_take. now apply deref_Forall2.
        -- constructor; [apply lookup_alloc|].
           apply Forall2_drop. now apply deref_Forall2.
      * rewrite map_app. cbn. rewrite <- firstn_map, <- skipn_map.
        apply StronglySorted_insert_at; [exact Hs|exact Hlo|].
        destruct (lookup_lt_is_Some_2 vs r ltac:(lia)) as [v Hv].
        pose proof (map_Address_lookup _ _ _ Hv) as Hav.
        assert (Hdrop : StronglySorted addr_lt (drop r (map Address vs))).
        { rewrite <- (take_drop r (map Address vs)) in Hs.
          now apply StronglySorted_app in Hs as (_ & _ & ?). }
        rewrite (drop_S _ _ _ Hav) in Hhi, Hdrop |- *.
        apply StronglySorted_cons in Hdrop as [Hall _].
        inversion Hhi as [|? ? Hle _]; subst.
        assert (Hlt : addr_lt (Address val) (Address v)).
        { apply addr_le_cases in Hle as [Hlt|Heq]; [exact Hlt|].
          assert (false = true) by (apply Hb; eauto). discriminate. }
        constructor; [exact Hlt|].
        eapply Forall_impl; [exact Hall|].
        intros y Hy. eapply addr_lt_trans; eauto.
Qed.

Lemma Update_sorted st valSet val :
  sorted_unique st valSet ->
  exists b valSet' st',
    Update val valSet st = Some ((b, valSet'), st') /\ sorted_unique st' valSet'.
Proof.
  intros (vs & Hd & Hs & Hn).
  pose proof (deref_length _ _ _ Hd) as Hlen.
  destruct (search_address_spec _ _ _ (Address val) Hd Hs)
    as (r & Hsearch & Hr & _ & _).
  destruct (found_at_spec _ _ _ (Address val) r Hd Hr) as (b & Hfound & Hb).
  unfold Update, GetByAddress.
  mstep Hsearch. mstep Hfound.
  destruct b.
  - destruct (proj1 Hb eq_refl) as (v & Hv & Ha).
    apply deref_Forall2 in Hd as Hf.
    destruct (Forall2_lookup_r _ _ _ _ _ Hf Hv) as (p & Hp & Hpv).
    mstep (index_eq _ _ _ _ Hp).
    unfold Validator_Copy.
    mstep (load_eq _ _ _ Hpv).
    mstep (eq_refl : alloc v st = Some (length st, st ++ [v])).
    mstep (eq_refl : alloc val (st ++ [v])
                     = Some (length (st ++ [v]), (st ++ [v]) ++ [val])).
    assert (Hlt : (r <? length (Validators valSet))%nat = true).
    { apply Nat.ltb_lt. eapply lookup_lt_Some, Hp. }
    rewrite Hlt. do 3 eexists. split; [reflexivity|].
    apply (sorted_unique_intro _ _ (<[r := val]> vs)).
    + cbn. apply deref_Forall2, Forall2_insert.
      * eapply Forall2_impl; [exact Hf|].
        intros q w Hq. rewrite !lookup_app_l; auto;
          rewrite ?length_app; cbn; apply lookup_lt_Some in Hq; lia.
      * apply lookup_alloc.
    + change (map Address (<[r := val]> vs)) with (Address <$> <[r := val]> vs).
      rewrite list_fmap_insert, list_insert_id; [exact Hs|].
      rewrite <- Ha. now apply map_Address_lookup.
  - do 3 eexists. split; [reflexivity|]. exists vs. auto.
Qed.

Lemma Remove_sorted st valSet address :
  sorted_unique st valSet ->
  exists r valSet' st',
    Remove address valSet st = Some ((r, valSet'), st') /\ sorted_unique st' valSet'.
Proof.
  intros (vs & Hd & Hs & Hn).
  pose proof (deref_length _ _ _ Hd) as Hlen.
  destruct (search_address_spec _ _ _ address Hd Hs)
    as (r & Hsearch & Hr & _ & _).
  destruct (found_at_spec _ _ _ address r Hd Hr) as (b & Hfound & Hb).
  unfold Remove.
  mstep Hsearch. mstep Hfound.
  destruct b; cbn [negb].
  - destruct (proj1 Hb eq_refl) as (v & Hv & Ha).
    apply deref_Forall2 in Hd as Hf.
    destruct (Forall2_lookup_r _ _ _ _ _ Hf Hv) as (p & Hp & Hpv).
    mstep (index_eq _ _ _ _ Hp).
    do 3 eexists. split; [reflexivity|].
    apply (sorted_unique_intro _ _ (take r vs ++ drop (S r) vs)).
    + cbn [Validators invalidate]. apply deref_Forall2.
      replace (if (r + 1 <? length (Validators valSet))%nat
               then take r (Validators valSet) ++ drop (r + 1) (Validators valSet)
               else take r (Validators valSet))
        with (take r (Validators valSet) ++ drop (S r) (Validators valSet)).
      * apply Forall2_app; [now apply Forall2_take|now apply Forall2_drop].
      * rewrite Nat.add_1_r. destruct (S r <? length (Validators valSet))%nat eqn:E;
          [reflexivity|].
        apply Nat.ltb_ge in E. rewrite drop_ge by lia. apply app_nil_r.
    + rewrite map_app, <- firstn_map, <- skipn_map.
      now apply StronglySorted_delete_at.
  - do 3 eexists. split; [reflexivity|]. exists vs. auto.
Qed.

Lemma apply_op_sorted st valSet op :
  sorted_unique st valSet ->
  exists valSet' st',
    apply_op op valSet st = Some (valSet', st') /\ sorted_unique st' valSet'.
Proof.
  intros H. destruct op as [val|val|address]; cbn.
  - destruct (Add_sorted _ _ val H) as (b & s' & st' & E & Hs).
    exists s', st'. split; [now mstep E|exact Hs].
  - destruct (Update_sorted _ _ val H) as (b & s' & st' & E & Hs).
    exists s', st'. split; [now mstep E|exact Hs].
  - destruct (Remove_sorted _ _ address H) as (r & s' & st' & E & Hs).
    exists s', st'. split; [now mstep E|exact Hs].
Qed.

Lemma run_ops_sorted ops :
  forall st valSet,
    sorted_unique st valSet ->
    exists valSet' st',
      run_ops ops valSet st = Some (valSet', st') /\ sorted_unique st' valSet'.
Proof.
  induction ops as [|op ops IH]; intros st valSet H.
  - exists valSet, st. auto.
  - destruct (apply_op_sorted _ _ op H) as (s1 & st1 & E & H1).
    destruct (IH _ _ H1) as (s2 & st2 & E2 & H2).
    exists s2, st2. split; [|exact H2].
    unfold run_ops. cbn [Mfold]. mstep E. exact E2.
Qed.

(** C5: from a set strictly sorted by ascending address without
    duplicate addresses, every sequence of [Add], [Update] and [Remove]
    calls runs without a fault and, after each of its calls (after the
    first [k] calls, for every [k]), leaves the set strictly sorted by
    ascending address without duplicate addresses. *)
Theorem mutations_keep_sorted_unique (ops : list Op) (k : nat)
    (st : Store) (valSet : ValidatorSet) :
  sorted_unique st valSet ->
  exists valSet' st',
    run_ops (take k ops) valSet st = Some (valSet', st')
    /\ sorted_unique st' valSet'.
Proof. apply run_ops_sorted. Qed.

(** ** Construction: copying and sorting *)

Lemma Mmap_alloc vals :
  forall st, Mmap alloc vals st = Some (seq (length st) (length vals), st ++ vals).
Proof.
  induction vals as [|v vals IH]; intros st.
  - cbn. now rewrite app_nil_r.
  - cbn [Mmap].
    mstep (eq_refl : alloc v st = Some (length st, st ++ [v])).
    mstep (IH (st ++ [v])).
    rewrite length_app, Nat.add_1_r, <- app_assoc. reflexivity.
Qed.

Lemma deref_fresh vals :
  forall st, deref (st ++ vals) (seq (length st) (length vals)) = Some vals.
Proof.
  induction vals as [|v vals IH]; intros st; [reflexivity|].
  cbn [length seq]. apply deref_cons.
  - now rewrite lookup_app_r, Nat.sub_diag by lia.
  - specialize (IH (st ++ [v])).
    rewrite length_app, Nat.add_1_r, <- app_assoc in IH. exact IH.
Qed.

Lemma ValidatorsByAddress_Less_eq st a b va vb :
  st !! a = Some va -> st !! b = Some vb ->
  ValidatorsByAddress_Less a b st
  = Some (bytes_Compare (Address va) (Address vb) =? -1, st).
Proof.
  intros Ha Hb. unfold ValidatorsByAddress_Less.
  mstep (load_eq _ _ _ Ha). now mstep (load_eq _ _ _ Hb).
Qed.

(** Inserting into a sorted slice keeps it sorted and adds exactly the
    new element. *)
Lemma sort_insert_spec st x vx :
  st !! x = Some vx ->
  forall l vl,
    deref st l = Some vl ->
    exists l' vl',
      sort_insert x l st = Some (l', st)
      /\ deref st l' = Some vl'
      /\ Permutation (vx :: vl) vl'
      /\ (StronglySorted addr_le (map Address vl) ->
          StronglySorted addr_le (map Address vl')).
Proof.
  intros Hx. induction l as [|y l IH]; intros vl Hd.
  - cbn in Hd. injection Hd as <-. exists [x], [vx]. splits; auto.
    + now apply deref_cons.
    + intros _. repeat constructor.
  - apply deref_cons_inv in Hd as (vy & vl0 & -> & Hy & Hd).
    cbn [sort_insert]. mstep (ValidatorsByAddress_Less_eq _ _ _ _ _ Hx Hy).
    destruct (bytes_Compare (Address vx) (Address vy) =? -1) eqn:E.
    + apply Z.eqb_eq in E. exists (x :: y :: l), (vx :: vy :: vl0). splits; auto.
      * now repeat apply deref_cons.
      * intros Hs. cbn. apply StronglySorted_cons. split; [|exact Hs].
        cbn in Hs. apply StronglySorted_cons in Hs as [Hall _].
        constructor; [now apply addr_lt_le|].
        eapply Forall_impl; [exact Hall|]. intros z Hz.
        eapply addr_le_trans; [apply addr_lt_le, E|exact Hz].
    + apply Z.eqb_neq in E.
      destruct (IH _ Hd) as (l' & vl' & Hins & Hd' & Hperm & Hsorted).
      mstep Hins. exists (y :: l'), (vy :: vl'). splits.
      * reflexivity.
      * now apply deref_cons.
      * rewrite perm_swap. now constructor.
      * intros Hs. cbn in Hs |- *.
        apply StronglySorted_cons in Hs as [Hall Hs].
        apply StronglySorted_cons. split; [|now apply Hsorted].
        assert (Hall' : Forall (addr_le (Address vy)) (map Address (vx :: vl0))).
        { constructor; [|exact Hall]. now apply not_addr_lt. }
        eapply Permutation_Forall; [|exact Hall']. now apply Permutation_map.
Qed.

Lemma sort_fold_spec st l :
  forall vl acc vacc,
    deref st l = Some vl -> deref st acc = Some vacc ->
    StronglySorted addr_le (map Address vacc) ->
    exists l' vl',
      Mfold (fun acc x => sort_insert x acc) acc l st = Some (l', st)
      /\ deref st l' = Some vl'
      /\ Permutation (vacc ++ vl) vl'
      /\ StronglySorted addr_le (map Address vl').
Proof.
  induction l as [|x l IH]; intros vl acc vacc Hd Hacc Hs.
  - cbn in Hd. injection Hd as <-. exists acc, vacc.
    rewrite app_nil_r. splits; auto.
  - apply deref_cons_inv in Hd as (vx & vl0 & -> & Hx & Hd).
    destruct (sort_insert_spec _ _ _ Hx _ _ Hacc)
      as (acc1 & vacc1 & Hins & Hacc1 & Hperm1 & Hs1).
    destruct (IH _ _ _ Hd Hacc1 (Hs1 Hs)) as (l' & vl' & Hf & Hd' & Hperm & Hs').
    exists l', vl'. splits; auto.
    + cbn [Mfold]. now mstep Hins.
    + rewrite <- Hperm, <- Hperm1. symmetry. apply Permutation_middle.
Qed.

(** [sort.Sort] over live pointers returns a permutation in ascending
    address order and leaves the store alone. *)
Lemma sort_Sort_spec st l vl :
  deref st l = Some vl ->
  exists l' vl',
    sort_Sort l st = Some (l', st)
    /\ deref st l' = Some vl'
    /\ Permutation vl vl'
    /\ StronglySorted addr_le (map Address vl').
Proof.
  intros Hd. apply (sort_fold_spec st l vl [] [] Hd); [reflexivity|constructor].
Qed.

Lemma StronglySorted_le_NoDup (l : list (list byte)) :
  StronglySorted addr_le l -> NoDup l -> StronglySorted addr_lt l.
Proof.
  induction 1 as [|x l Hs IH Hx]; intros Hn; [constructor|].
  apply NoDup_cons in Hn as [Hnotin Hn]. constructor; [now apply IH|].
  rewrite Forall_forall in Hx |- *. intros y Hy.
  destruct (proj1 (addr_le_cases x y) (Hx y Hy)) as [Hlt| ->]; [exact Hlt|].
  contradiction.
Qed.

Lemma StronglySorted_lt_le (l : list (list byte)) :
  StronglySorted addr_lt l -> StronglySorted addr_le l.
Proof.
  induction 1 as [|x l Hs IH Hx]; constructor; auto.
  eapply Forall_impl; [exact Hx|]. intros y. apply addr_lt_le.
Qed.

(** An element no smaller than the whole slice goes to its end. *)
Lemma sort_insert_last st x vx :
  st !! x = Some vx ->
  forall l vl,
    deref st l = Some vl ->
    Forall (fun a => addr_le a (Address vx)) (map Address vl) ->
    sort_insert x l st = Some (l ++ [x], st).
Proof.
  intros Hx. induction l as [|y l IH]; intros vl Hd Hall; [reflexivity|].
  apply deref_cons_inv in Hd as (vy & vl0 & -> & Hy & Hd).
  cbn in Hall. apply Forall_cons in Hall as [Hle Hall].
  cbn [sort_insert]. mstep (ValidatorsByAddress_Less_eq _ _ _ _ _ Hx Hy).
  destruct (bytes_Compare (Address vx) (Address vy) =? -1) eqn:E.
  - apply Z.eqb_eq in E. apply not_addr_lt in Hle. contradiction.
  - mstep (IH _ Hd Hall). reflexivity.
Qed.

(** A slice that is already in ascending address order is left as it
    is. *)
Lemma sort_fold_sorted st l :
  forall vl acc vacc,
    deref st l = Some vl -> deref st acc = Some vacc ->
    StronglySorted addr_le (map Address (vacc ++ vl)) ->
    Mfold (fun acc x => sort_insert x acc) acc l st = Some (acc ++ l, st).
Proof.
  induction l as [|x l IH]; intros vl acc vacc Hd Hacc Hs.
  - cbn. now rewrite app_nil_r.
  - apply deref_cons_inv in Hd as (vx & vl0 & -> & Hx & Hd).
    assert (Hlast : sort_insert x acc st = Some (acc ++ [x], st)).
    { apply (sort_insert_last _ _ _ Hx _ _ Hacc).
      rewrite map_app in Hs. apply StronglySorted_app in Hs as (Hxs & _ & _).
      apply Forall_forall. intros a Ha. apply Hxs; [exact Ha|]. cbn. left. }
    cbn [Mfold]. mstep Hlast.
    rewrite (IH vl0 (acc ++ [x]) (vacc ++ [vx])); auto.
    + now rewrite <- app_assoc.
    + apply deref_Forall2, Forall2_app; [now apply deref_Forall2|].
      now repeat constructor.
    + now rewrite <- app_assoc.
Qed.

Lemma sort_Sort_sorted st l vl :
  deref st l = Some vl ->
  StronglySorted addr_le (map Address vl) ->
  sort_Sort l st = Some (l, st).
Proof.
  intros Hd Hs. apply (sort_fold_sorted st l vl [] [] Hd); [reflexivity|exact Hs].
Qed.

Lemma genValidatorSet_spec vals st :
  exists l' vl',
    genValidatorSet vals st = Some (invalidate l', st ++ vals)
    /\ deref (st ++ vals) l' = Some vl'
    /\ Permutation vals vl'
    /\ StronglySorted addr_le (map Address vl').
Proof.
  destruct (sort_Sort_spec _ _ _ (deref_fresh vals st))
    as (l' & vl' & Hsort & Hd & Hperm & Hs).
  exists l', vl'. splits; auto.
  unfold genValidatorSet. mstep (Mmap_alloc vals st). now mstep Hsort.
Qed.

(** ** Serialisation *)

Section Serialisation.
Context `{Collaborators}.

Lemma ValSetFromJsonBytes_error (data : list byte) (st : Store) :
  json_Unmarshal data = None ->
  ValSetFromJsonBytes data st = Some (None, st).
Proof. intros E. unfold ValSetFromJsonBytes. now rewrite E. Qed.

(** C6, as the code has it: deserialisation copies the decoded records
    and sorts them by address, without looking for duplicates.  The
    members of the result are the decoded records, each exactly once
    (a permutation, duplicates included), in ascending address order,
    with both caches unset; and the result is strictly sorted without
    duplicate addresses if and only if the decoded addresses are
    pairwise distinct. *)
Theorem ValSetFromJsonBytes_sorted (data : list byte) (vset : list Validator)
    (st : Store) :
  json_Unmarshal data = Some vset ->
  exists valSet st' vs,
    ValSetFromJsonBytes data st = Some (Some valSet, st')
    /\ deref st' (Validators valSet) = Some vs
    /\ Permutation vset vs
    /\ StronglySorted addr_le (map Address vs)
    /\ proposer valSet = None /\ totalVotingPower valSet = 0
    /\ (sorted_unique st' valSet <-> NoDup (map Address vset)).
Proof.
  intros E. destruct (genValidatorSet_spec vset st)
    as (l' & vl' & Hgen & Hd & Hperm & Hs).
  exists (invalidate l'), (st ++ vset), vl'. splits; auto.
  - unfold ValSetFromJsonBytes. rewrite E. now mstep Hgen.
  - split.
    + intros (ws & Hws & Hsorted & Hnodup). cbn [Validators invalidate] in Hws.
      assert (ws = vl') as -> by congruence.
      now rewrite (Permutation_map Address Hperm).
    + intros Hnodup. apply (sorted_unique_intro _ _ vl'); [exact Hd|].
      apply StronglySorted_le_NoDup; [exact Hs|].
      now rewrite <- (Permutation_map Address Hperm).
Qed.

(** C8: a set that is strictly sorted by address and whose cache is
    zero or the total of its members, serialised by [JSONBytes] and read
    back by [ValSetFromJsonBytes] through a codec that returns the
    records it was given, yields a set with the same [Hash()] and the
    same [TotalVotingPower()]. *)
Theorem JSON_round_trip (st : Store) (valSet : ValidatorSet)
    (vs : list Validator) (data : list byte) :
  deref st (Validators valSet) = Some vs ->
  StronglySorted addr_lt (map Address vs) ->
  cache_consistent valSet vs ->
  json_Marshal vs = Some data ->
  json_Unmarshal data = Some vs ->
  JSONBytes valSet st = Some (Some data, st)
  /\ exists valSet' st' h t s1 s1',
       ValSetFromJsonBytes data st = Some (Some valSet', st')
       /\ Hash valSet st = Some (h, st)
       /\ Hash valSet' st' = Some (h, st')
       /\ TotalVotingPower valSet st = Some ((t, s1), st)
       /\ TotalVotingPower valSet' st' = Some ((t, s1'), st').
Proof.
  intros Hd Hs Hcache Hm Hu. split.
  { unfold JSONBytes. mstep (Mmap_load _ _ _ Hd). now rewrite Hm. }
  pose proof (deref_fresh vs st) as Hfresh.
  pose proof (sort_Sort_sorted _ _ _ Hfresh (StronglySorted_lt_le _ Hs)) as Hsort.
  set (l' := seq (length st) (length vs)) in *.
  pose proof (deref_length _ _ _ Hd) as Hlen.
  pose proof (deref_length _ _ _ Hfresh) as Hlen'.
  exists (invalidate l'), (st ++ vs).
  exists (if (length vs =? 0)%nat then None
          else Some (SimpleHashFromHashables vs)).
  exists (total_of vs). do 2 eexists. splits.
  - unfold ValSetFromJsonBytes, genValidatorSet. rewrite Hu.
    mstep (Mmap_alloc vs st). fold l'. now mstep Hsort.
  - unfold Hash. rewrite <- Hlen.
    destruct (length vs =? 0)%nat; [reflexivity|].
    now mstep (Mmap_load _ _ _ Hd).
  - unfold Hash. cbn [Validators invalidate]. rewrite <- Hlen'.
    destruct (length vs =? 0)%nat; [reflexivity|].
    now mstep (Mmap_load _ _ _ Hfresh).
  - rewrite (TotalVotingPower_eq _ _ _ Hd). do 3 f_equal.
    unfold TotalVotingPower_value.
    destruct Hcache as [-> | ->]; [reflexivity|].
    now destruct (total_of vs =? 0) eqn:E; [apply Z.eqb_eq in E|].
  - rewrite (TotalVotingPower_eq (st ++ vs) (invalidate l') vs Hfresh).
    reflexivity.
Qed.
End Serialisation.

(** ** VerifyCommit *)

Lemma sum_VotingPower_cons v vs :
  sum_VotingPower (v :: vs) = VotingPower v + sum_VotingPower vs.
Proof. reflexivity. Qed.

Lemma sum_VotingPower_nonneg vs :
  Forall (fun v => 0 <= VotingPower v) vs -> 0 <= sum_VotingPower vs.
Proof.
  induction 1 as [|v vs Hv _ IH]; [reflexivity|].
  rewrite sum_VotingPower_cons. lia.
Qed.

Lemma total_fold_exact vs :
  forall acc,
    Forall (fun v => 0 <= VotingPower v) vs ->
    0 <= acc -> acc + sum_VotingPower vs <= Int64.max_signed ->
    fold_left (fun acc v => Int64.add acc (VotingPower v)) vs acc
    = acc + sum_VotingPower vs.
Proof.
  induction vs as [|v vs IH]; intros acc Hpos Hacc Hmax.
  - cbn. lia.
  - apply Forall_cons in Hpos as [Hv Hpos].
    pose proof (sum_VotingPower_nonneg _ Hpos) as Hsum.
    rewrite sum_VotingPower_cons in *. cbn [fold_left].
    unfold Int64.add at 2. rewrite wrap_small.
    + rewrite IH; auto; lia.
    + unfold Int64.in_range, Int64.min_signed. lia.
Qed.

(** Without overflow the loop of [TotalVotingPower] computes the sum. *)
Lemma total_of_exact vs :
  Forall (fun v => 0 <= VotingPower v) vs ->
  sum_VotingPower vs <= Int64.max_signed ->
  total_of vs = sum_VotingPower vs.
Proof.
  intros Hpos Hmax. unfold total_of. rewrite total_fold_exact; auto; lia.
Qed.

Section Verify.
Context `{Collaborators}.
Variables (chainID : string) (blockID : BlockID) (height round : Z).

Lemma tally_bounds vs precommits :
  Forall (fun v => 0 <= VotingPower v) vs ->
  0 <= tally chainID blockID vs precommits <= sum_VotingPower vs.
Proof.
  intros Hpos. revert precommits.
  induction Hpos as [|v vs Hv Hpos IH]; intros [|pc pcs];
    rewrite ?sum_VotingPower_cons; cbn [tally]; try (cbn; lia).
  - pose proof (sum_VotingPower_nonneg _ Hpos). lia.
  - specialize (IH pcs). destruct (counted _ _ _ _); lia.
Qed.

Lemma GetByIndex_eq st valSet vs idx v :
  deref st (Validators valSet) = Some vs -> vs !! idx = Some v ->
  GetByIndex idx valSet st = Some ((Address v, length st), st ++ [v]).
Proof.
  intros Hd Hv. apply deref_Forall2 in Hd.
  destruct (Forall2_lookup_r _ _ _ _ _ Hd Hv) as (p & Hp & Hpv).
  unfold GetByIndex, Validator_Copy.
  mstep (index_eq _ _ _ _ Hp). mstep (load_eq _ _ _ Hpv).
  mstep (load_eq _ _ _ Hpv). reflexivity.
Qed.

(** The body of the loop reads the validator of its index and, at
    most, allocates its copy. *)
Lemma VerifyCommit_slot_eq st valSet vs idx v precommit t :
  deref st (Validators valSet) = Some vs -> vs !! idx = Some v ->
  exists ext,
    VerifyCommit_slot chainID blockID height round valSet idx precommit t st
    = Some (slot_outcome chainID blockID height round v idx precommit t,
            st ++ ext).
Proof.
  intros Hd Hv. unfold VerifyCommit_slot, slot_outcome.
  destruct precommit as [pc|]; [|exists []; now rewrite app_nil_r].
  destruct (negb (Height (Data pc) =? height));
    [exists []; now rewrite app_nil_r|].
  destruct (negb (Round (Data pc) =? round));
    [exists []; now rewrite app_nil_r|].
  destruct (negb (VoteType_eqb (Type_ (Data pc)) VoteType_Precommit));
    [exists []; now rewrite app_nil_r|].
  exists [v]. mstep (GetByIndex_eq _ _ _ _ _ Hd Hv).
  mstep (load_eq (st ++ [v]) (length st) v (lookup_alloc st v)).
  destruct (negb (VerifyBytes _ _ _)); [reflexivity|].
  destruct (negb (BlockID_Equals _ _)); reflexivity.
Qed.

Lemma VerifyCommit_loop_eq valSet vs precommits :
  forall st idx t,
    deref st (Validators valSet) = Some vs ->
    length precommits = length (drop idx vs) ->
    exists ext,
      VerifyCommit_loop chainID blockID height round valSet idx precommits t st
      = Some (loop_outcome chainID blockID height round (drop idx vs) idx
                precommits t, st ++ ext).
Proof.
  induction precommits as [|pc pcs IH]; intros st idx t Hd Hlen.
  - exists []. rewrite app_nil_r. cbn. now destruct (drop idx vs).
  - destruct (drop idx vs) as [|v rest] eqn:Edrop; [discriminate|].
    assert (Hv : vs !! idx = Some v).
    { rewrite <- (Nat.add_0_r idx), <- lookup_drop, Edrop. reflexivity. }
    assert (Hrest : drop (S idx) vs = rest).
    { rewrite <- (Nat.add_1_r idx), <- drop_drop, Edrop. reflexivity. }
    destruct (VerifyCommit_slot_eq st valSet vs idx v pc t Hd Hv) as (ext & Hslot).
    cbn [VerifyCommit_loop loop_outcome]. mstep Hslot.
    destruct (slot_outcome _ _ _ _ _ _ _ _) as [err|t'].
    + exists ext. reflexivity.
    + destruct (IH (st ++ ext) (S idx) t' (deref_app _ ext _ _ Hd))
        as (ext' & Hloop).
      { rewrite Hrest. cbn in Hlen. lia. }
      exists (ext ++ ext'). rewrite Hloop, Hrest, app_assoc. reflexivity.
Qed.

(** When every slot passes, the loop ends with the exact tally. *)
Lemma loop_outcome_pass vs precommits :
  Forall2 (fun v pc => precommit_passes chainID height round v pc = true)
          vs precommits ->
  forall idx t,
    Forall (fun v => 0 <= VotingPower v) vs ->
    0 <= t -> t + sum_VotingPower vs <= Int64.max_signed ->
    loop_outcome chainID blockID height round vs idx precommits t
    = inr (t + tally chainID blockID vs precommits).
Proof.
  induction 1 as [|v pc vs pcs Hpass Hrest IH]; intros idx t Hpos Ht Hmax.
  - cbn. f_equal. lia.
  - apply Forall_cons in Hpos as [Hv Hpos].
    pose proof (sum_VotingPower_nonneg _ Hpos) as Hsum.
    rewrite sum_VotingPower_cons in Hmax. cbn [loop_outcome tally].
    destruct pc as [pc|]; cbn [slot_outcome counted precommit_passes] in *.
    + apply andb_prop in Hpass as [Hpass Hsig].
      apply andb_prop in Hpass as [Hpass Htype].
      apply andb_prop in Hpass as [Hheight Hround].
      rewrite Hheight, Hround, Htype, Hsig. cbn [negb andb].
      destruct (BlockID_Equals blockID (Data_BlockID (Data pc))); cbn [negb].
      * unfold Int64.add. rewrite wrap_small.
        -- rewrite IH; auto; try lia. f_equal. lia.
        -- unfold Int64.in_range, Int64.min_signed. lia.
      * rewrite IH; auto; try lia.
    + rewrite IH; auto; try lia.
Qed.

(** A slot that is present and whose signature does not verify makes
    the loop return an error, whatever the other slots hold. *)
Lemma loop_outcome_bad_signature vs precommits :
  forall idx t i v pc,
    vs !! i = Some v -> precommits !! i = Some (Some pc) ->
    VerifyBytes (PubKey v) (SignBytes chainID (Data pc)) (Signature pc) = false ->
    exists err, loop_outcome chainID blockID height round vs idx precommits t
                = inl err.
Proof.
  revert precommits.
  induction vs as [|w vs IH]; intros [|qc pcs] idx t i v pc Hv Hpc Hsig;
    try discriminate.
  cbn [loop_outcome]. destruct i as [|i]; cbn in Hv, Hpc.
  - injection Hv as ->. injection Hpc as ->. cbn [slot_outcome].
    rewrite Hsig. cbn [negb].
    destruct (negb _); [eauto|]. destruct (negb _); [eauto|].
    destruct (negb _); eauto.
  - destruct (slot_outcome _ _ _ _ _ _ _ _) as [err|t']; [eauto|].
    eapply IH; eauto.
Qed.

(** If the slots before the offending one pass and it passes the
    checks made before the signature, the error is the signature
    error. *)
Lemma loop_outcome_first_bad_signature vs precommits :
  forall idx t i v pc,
    Forall2 (fun v pc => precommit_passes chainID height round v pc = true)
            (take i vs) (take i precommits) ->
    vs !! i = Some v -> precommits !! i = Some (Some pc) ->
    Height (Data pc) = height -> Round (Data pc) = round ->
    Type_ (Data pc) = VoteType_Precommit ->
    VerifyBytes (PubKey v) (SignBytes chainID (Data pc)) (Signature pc) = false ->
    loop_outcome chainID blockID height round vs idx precommits t
    = inl (ErrInvalidSignature pc).
Proof.
  revert precommits.
  induction vs as [|w vs IH];
    intros [|qc pcs] idx t i v pc Hpass Hv Hpc Hh Hr Ht Hsig;
    try discriminate.
  cbn [loop_outcome]. destruct i as [|i]; cbn in Hv, Hpc.
  - injection Hv as ->. injection Hpc as ->. cbn [slot_outcome].
    rewrite Hh, Hr, Ht, Hsig, !Z.eqb_refl. reflexivity.
  - cbn in Hpass. apply Forall2_cons in Hpass as [Hq Hpass].
    assert (Hslot : exists t', slot_outcome chainID blockID height round w idx qc t
                               = inr t').
    { destruct qc as [qc|]; cbn [slot_outcome precommit_passes] in *; [|eauto].
      apply andb_prop in Hq as [Hq Hs4]. apply andb_prop in Hq as [Hq Hs3].
      apply andb_prop in Hq as [Hs1 Hs2].
      rewrite Hs1, Hs2, Hs3, Hs4. cbn [negb].
      destruct (negb _); eauto. }
    destruct Hslot as (t' & ->). eapply IH; eauto.
Qed.

(** The loop ends with a tally only if every slot passes. *)
Lemma loop_outcome_inr vs precommits :
  forall idx t t',
    length precommits = length vs ->
    loop_outcome chainID blockID height round vs idx precommits t = inr t' ->
    Forall2 (fun v pc => precommit_passes chainID height round v pc = true)
            vs precommits.
Proof.
  revert precommits.
  induction vs as [|v vs IH]; intros [|pc pcs] idx t t' Hlen Hout;
    try discriminate; [constructor|].
  cbn [loop_outcome] in Hout.
  destruct (slot_outcome chainID blockID height round v idx pc t) as [err|t1] eqn:E;
    [discriminate|].
  constructor; [|eapply IH; eauto].
  destruct pc as [pc|]; [|reflexivity].
  cbn [slot_outcome precommit_passes] in *.
  destruct (Height (Data pc) =? height); [|discriminate].
  destruct (Round (Data pc) =? round); [|discriminate].
  destruct (VoteType_eqb (Type_ (Data pc)) VoteType_Precommit); [|discriminate].
  destruct (VerifyBytes _ _ _); [reflexivity|discriminate].
Qed.
End Verify.

Section VerifyCommit.
Context `{Collaborators}.
Variables (chainID : string) (blockID : BlockID) (height : Z).

Lemma VerifyCommit_wrong_size st valSet vs commit :
  deref st (Validators valSet) = Some vs ->
  length (Precommits commit) <> length vs ->
  VerifyCommit chainID blockID height commit valSet st
  = Some ((Some (ErrWrongSetSize (Size valSet) (length (Precommits commit))),
           valSet), st).
Proof.
  intros Hd Hlen. pose proof (deref_length _ _ _ Hd) as Hvs.
  unfold VerifyCommit, Size.
  destruct (Nat.eqb_spec (length (Validators valSet)) (length (Precommits commit)));
    [congruence|reflexivity].
Qed.

Lemma VerifyCommit_wrong_height st valSet vs commit :
  deref st (Validators valSet) = Some vs ->
  length (Precommits commit) = length vs ->
  commit_Height commit <> height ->
  VerifyCommit chainID blockID height commit valSet st
  = Some ((Some (ErrWrongHeight height (commit_Height commit)), valSet), st).
Proof.
  intros Hd Hlen Hh. pose proof (deref_length _ _ _ Hd) as Hvs.
  unfold VerifyCommit, Size.
  destruct (Nat.eqb_spec (length (Validators valSet)) (length (Precommits commit)));
    [|congruence].
  destruct (Z.eqb_spec height (commit_Height commit)); [congruence|reflexivity].
Qed.

(** Past the two checks on the commit itself, the call returns the
    error of the loop, or decides on the tally against
    [TotalVotingPower()]. *)
Lemma VerifyCommit_decides st valSet vs commit :
  deref st (Validators valSet) = Some vs ->
  length (Precommits commit) = length vs ->
  commit_Height commit = height ->
  exists ext,
    VerifyCommit chainID blockID height commit valSet st
    = Some
        (match loop_outcome chainID blockID height (commit_Round commit) vs 0
                 (Precommits commit) 0 with
         | inl err => (Some err, valSet)
         | inr t =>
             let total := TotalVotingPower_value valSet vs in
             (if Int64.quot (Int64.mul total 2) 3 <? t then None
              else Some (ErrInsufficientVotingPower t
                           (Int64.add (Int64.quot (Int64.mul total 2) 3) 1)),
              with_totalVotingPower valSet total)
         end, st ++ ext).
Proof.
  intros Hd Hlen Hh. pose proof (deref_length _ _ _ Hd) as Hvs.
  destruct (VerifyCommit_loop_eq chainID blockID height (commit_Round commit)
              valSet vs (Precommits commit) st 0%nat 0 Hd Hlen) as (ext & Hloop).
  cbn [drop] in Hloop. exists ext.
  unfold VerifyCommit, Size.
  destruct (Nat.eqb_spec (length (Validators valSet)) (length (Precommits commit)));
    [|congruence].
  destruct (Z.eqb_spec height (commit_Height commit)); [|congruence].
  cbn [negb]. mstep Hloop.
  destruct (loop_outcome _ _ _ _ _ _ _ _) as [err|t]; [reflexivity|].
  pose proof (deref_app _ ext _ _ Hd) as Hd'.
  mstep (TotalVotingPower_eq _ _ _ Hd').
  destruct (_ <? t); [reflexivity|].
  assert (Hd'' : deref (st ++ ext)
                   (Validators (with_totalVotingPower valSet
                                  (TotalVotingPower_value valSet vs))) = Some vs)
    by exact Hd'.
  mstep (TotalVotingPower_eq _ _ _ Hd'').
  rewrite TotalVotingPower_value_cached. reflexivity.
Qed.

(** C1: for a set with live members, non-negative voting powers whose
    doubled sum fits the machine integer and a cache that is zero or the
    total, and for every commit, [VerifyCommit] returns.  A commit
    reaches the final decision when it has one slot per member and the
    height asked for, and every present precommit has that height, the
    commit's round, the precommit tag and a valid signature.  The call
    returns no error only if the commit reaches the decision and the
    voting power of its present, validly signed precommits for [blockID]
    exceeds [floor(total * 2 / 3)]; and on a commit that reaches the
    decision it returns no error if and only if that tally exceeds
    [floor(total * 2 / 3)], and otherwise the insufficient-voting-power
    error with the tally and [floor(total * 2 / 3) + 1]. *)
Theorem VerifyCommit_quorum (commit : CommitCache) (valSet : ValidatorSet)
    (st : Store) (vs : list Validator) :
  deref st (Validators valSet) = Some vs ->
  cache_consistent valSet vs ->
  Forall (fun v => 0 <= VotingPower v) vs ->
  2 * sum_VotingPower vs <= Int64.max_signed ->
  let tallied := tally chainID blockID vs (Precommits commit) in
  let total := sum_VotingPower vs in
  let decided :=
    length (Precommits commit) = length vs
    /\ commit_Height commit = height
    /\ Forall2 (fun v pc =>
                  precommit_passes chainID height (commit_Round commit) v pc = true)
               vs (Precommits commit) in
  exists err valSet' st',
    VerifyCommit chainID blockID height commit valSet st
    = Some ((err, valSet'), st')
    /\ (err = None -> decided /\ total * 2 / 3 < tallied)
    /\ (decided ->
        (err = None <-> total * 2 / 3 < tallied)
        /\ (~ total * 2 / 3 < tallied ->
            err = Some (ErrInsufficientVotingPower tallied (total * 2 / 3 + 1)))).
Proof.
  intros Hd Hcache Hpos Hmax tallied total decided.
  pose proof (sum_VotingPower_nonneg _ Hpos) as Hsum. fold total in Hsum, Hmax.
  assert (Htotal : TotalVotingPower_value valSet vs = total).
  { unfold TotalVotingPower_value.
    assert (Hexact : total_of vs = total)
      by (apply total_of_exact; [exact Hpos|fold total; lia]).
    destruct Hcache as [-> | ->]; [exact Hexact|].
    rewrite Hexact. now destruct (total =? 0) eqn:E; [apply Z.eqb_eq in E|]. }
  assert (Hq : Int64.quot (Int64.mul total 2) 3 = total * 2 / 3).
  { unfold Int64.quot, Int64.mul, Int64.max_signed in *.
    rewrite (wrap_small (total * 2))
      by (unfold Int64.in_range, Int64.min_signed, Int64.max_signed; lia).
    rewrite Z.quot_div_nonneg by lia.
    apply wrap_small. unfold Int64.in_range, Int64.min_signed, Int64.max_signed.
    pose proof (Z.div_pos (total * 2) 3 ltac:(lia) ltac:(lia)).
    pose proof (Z.div_le_upper_bound (total * 2) 3 (total * 2) ltac:(lia) ltac:(lia)).
    lia. }
  assert (Hq1 : Int64.add (total * 2 / 3) 1 = total * 2 / 3 + 1).
  { unfold Int64.add, Int64.max_signed in *. apply wrap_small.
    unfold Int64.in_range, Int64.min_signed, Int64.max_signed.
    pose proof (Z.div_pos (total * 2) 3 ltac:(lia) ltac:(lia)).
    pose proof (Z.div_le_upper_bound (total * 2) 3 (total * 2) ltac:(lia) ltac:(lia)).
    lia. }
  destruct (Nat.eq_dec (length (Precommits commit)) (length vs)) as [Hlen|Hlen].
  2:{ do 3 eexists. split; [now apply (VerifyCommit_wrong_size _ _ vs)|].
      split; [discriminate|]. intros (Hl & _). contradiction. }
  destruct (Z.eq_dec (commit_Height commit) height) as [Hh|Hh].
  2:{ do 3 eexists. split; [now apply (VerifyCommit_wrong_height _ _ vs)|].
      split; [discriminate|]. intros (_ & Hc & _). contradiction. }
  destruct (VerifyCommit_decides st valSet vs commit Hd Hlen Hh) as (ext & Heq).
  destruct (loop_outcome chainID blockID height (commit_Round commit) vs 0
              (Precommits commit) 0) as [e|t] eqn:Hloop.
  { do 3 eexists. split; [exact Heq|]. split; [discriminate|].
    intros (_ & _ & Hpass).
    rewrite (loop_outcome_pass chainID blockID height (commit_Round commit)
               vs (Precommits commit) Hpass 0%nat 0 Hpos) in Hloop;
      [discriminate|lia|fold total; unfold Int64.max_signed in *; lia]. }
  pose proof (loop_outcome_inr chainID blockID height (commit_Round commit)
                vs (Precommits commit) 0%nat 0 t Hlen Hloop) as Hpass.
  rewrite (loop_outcome_pass chainID blockID height (commit_Round commit)
             vs (Precommits commit) Hpass 0%nat 0 Hpos) in Hloop;
    [|lia|fold total; unfold Int64.max_signed in *; lia].
  fold tallied in Hloop. rewrite Z.add_0_l in Hloop. injection Hloop as <-.
  cbn zeta in Heq. rewrite Htotal, Hq, Hq1 in Heq.
  assert (Hdecided : decided) by (subst decided; auto).
  destruct (Z.ltb_spec (total * 2 / 3) tallied) as [Hlt|Hge];
    do 3 eexists; (split; [exact Heq|]); split.
  - auto.
  - intros _. split; [tauto|]. intros Hn. contradiction.
  - discriminate.
  - intros _. split; [|reflexivity]. split; [discriminate|lia].
Qed.

(** C3: a present precommit [pc] in slot [i], for the validator [v] of
    that index.  If it passes the checks on height, round and tag,
    then: with a valid signature and a block other than [blockID] the
    slot is skipped without error and the tally is left as it was; with
    a signature that does not verify the slot ends the call with the
    signature error, for [blockID] and for any other block alike.
    Whatever else the commit holds, a signature that does not verify
    makes the whole call return an error; and when the commit has the
    right size and height and the earlier slots pass, that error is
    the signature error. *)
Theorem VerifyCommit_abstention_and_signature (commit : CommitCache)
    (valSet : ValidatorSet) (st : Store) (vs : list Validator)
    (i : nat) (v : Validator) (pc : Vote) :
  deref st (Validators valSet) = Some vs ->
  vs !! i = Some v ->
  Precommits commit !! i = Some (Some pc) ->
  let round := commit_Round commit in
  let signed :=
    VerifyBytes (PubKey v) (SignBytes chainID (Data pc)) (Signature pc) in
  let checked :=
    Height (Data pc) = height /\ Round (Data pc) = round
    /\ Type_ (Data pc) = VoteType_Precommit in
  (checked -> signed = true ->
   BlockID_Equals blockID (Data_BlockID (Data pc)) = false ->
   forall t, exists st',
     VerifyCommit_slot chainID blockID height round valSet i (Some pc) t st
     = Some (inr t, st'))
  /\ (checked -> signed = false ->
      forall t, exists st',
        VerifyCommit_slot chainID blockID height round valSet i (Some pc) t st
        = Some (inl (ErrInvalidSignature pc), st'))
  /\ (signed = false ->
      exists err valSet' st',
        VerifyCommit chainID blockID height commit valSet st
        = Some ((Some err, valSet'), st'))
  /\ (checked -> signed = false ->
      length (Precommits commit) = length vs ->
      commit_Height commit = height ->
      Forall2 (fun v pc => precommit_passes chainID height round v pc = true)
              (take i vs) (take i (Precommits commit)) ->
      exists valSet' st',
        VerifyCommit chainID blockID height commit valSet st
        = Some ((Some (ErrInvalidSignature pc), valSet'), st')).
Proof.
  intros Hd Hv Hpc round signed checked. splits.
  - intros (Hh & Hr & Ht) Hsig Hblock t.
    destruct (VerifyCommit_slot_eq chainID blockID height round st valSet vs i v
                (Some pc) t Hd Hv) as (ext & Heq).
    exists (st ++ ext). rewrite Heq. cbn [slot_outcome]. fold signed.
    now rewrite Hh, Hr, Ht, Hsig, Hblock, !Z.eqb_refl.
  - intros (Hh & Hr & Ht) Hsig t.
    destruct (VerifyCommit_slot_eq chainID blockID height round st valSet vs i v
                (Some pc) t Hd Hv) as (ext & Heq).
    exists (st ++ ext). rewrite Heq. cbn [slot_outcome]. fold signed.
    now rewrite Hh, Hr, Ht, Hsig, !Z.eqb_refl.
  - intros Hsig.
    destruct (Nat.eq_dec (length (Precommits commit)) (length vs)) as [Hlen|Hlen].
    2:{ do 3 eexists. now apply (VerifyCommit_wrong_size _ _ vs). }
    destruct (Z.eq_dec (commit_Height commit) height) as [Hh|Hh].
    2:{ do 3 eexists. now apply (VerifyCommit_wrong_height _ _ vs). }
    destruct (VerifyCommit_decides st valSet vs commit Hd Hlen Hh) as (ext & Heq).
    destruct (loop_outcome_bad_signature chainID blockID height round vs
                (Precommits commit) 0%nat 0 i v pc Hv Hpc Hsig) as (err & Herr).
    fold round in Heq. rewrite Herr in Heq. eauto.
  - intros (Hh & Hr & Ht) Hsig Hlen Hheight Hpass.
    destruct (VerifyCommit_decides st valSet vs commit Hd Hlen Hheight)
      as (ext & Heq).
    fold round in Heq.
    rewrite (loop_outcome_first_bad_signature chainID blockID height round vs
               (Precommits commit) 0%nat 0 i v pc Hpass Hv Hpc Hh Hr Ht Hsig)
      in Heq.
    eauto.
Qed.
End VerifyCommit.

(** ** Concrete runs *)

#[local] Existing Instance Example.collaborators.

Lemma four_sorted_unique : sorted_unique Example.four_store Example.four_set.
Proof.
  apply (sorted_unique_intro _ _ Example.four); [reflexivity|].
  repeat constructor.
Qed.

Lemma NewValidatorSet_four :
  NewValidatorSet (Some Example.four) []
  = Some (Example.rotated_set, Example.rotated).
Proof. vm_compute. reflexivity. Qed.

(** The quorum boundary: with four validators of voting power 1 the
    threshold is [floor(4 * 2 / 3) = 2]; three matching precommits pass
    and two do not. *)
Lemma VerifyCommit_three_of_four :
  fst <$> VerifyCommit Example.chain (Example.block x0a) 7 Example.commit3
            Example.four_set Example.four_store
  = Some (None, mkValidatorSet [0; 1; 2; 3]%nat None 4).
Proof. vm_compute. reflexivity. Qed.

Lemma VerifyCommit_two_of_four :
  fst <$> VerifyCommit Example.chain (Example.block x0a) 7 Example.commit2
            Example.four_set Example.four_store
  = Some (Some (ErrInsufficientVotingPower 2 3),
          mkValidatorSet [0; 1; 2; 3]%nat None 4).
Proof. vm_compute. reflexivity. Qed.

(** The quorum theorem on the commit of three precommits out of four:
    the tally 3 exceeds [floor(4 * 2 / 3) = 2] and the call returns no
    error. *)
Lemma VerifyCommit_quorum_witness :
  tally Example.chain (Example.block x0a) Example.four
    (Precommits Example.commit3) = 3
  /\ sum_VotingPower Example.four = 4
  /\ exists valSet' st',
       VerifyCommit Example.chain (Example.block x0a) 7 Example.commit3
         Example.four_set Example.four_store = Some ((None, valSet'), st').
Proof.
  split; [reflexivity|]. split; [reflexivity|].
  destruct (VerifyCommit_quorum Example.chain (Example.block x0a) 7
              Example.commit3 Example.four_set Example.four_store Example.four)
    as (err & valSet' & st' & Heq & _ & Hdecided).
  - reflexivity.
  - left. reflexivity.
  - repeat constructor; vm_compute; discriminate.
  - vm_compute. discriminate.
  - exists valSet', st'. rewrite Heq.
    assert (err = None) as ->; [|reflexivity].
    apply Hdecided; [|reflexivity].
    split; [reflexivity|]. split; [reflexivity|]. repeat constructor.
Defined.

(** In the mixed commit the validly signed precommit for the other block
    leaves every tally as it is, and the vote for the other block whose
    signature does not verify ends the call with the signature error. *)
Lemma VerifyCommit_abstention_and_signature_witness :
  (forall t, exists st',
     VerifyCommit_slot Example.chain (Example.block x0a) 7 0 Example.four_set 1
       (Some (Example.precommit x02 (Example.block x0b))) t Example.four_store
     = Some (inr t, st'))
  /\ (exists valSet' st',
        VerifyCommit Example.chain (Example.block x0a) 7 Example.commit_mixed
          Example.four_set Example.four_store
        = Some ((Some (ErrInvalidSignature
                         (Example.forged x03 (Example.block x0b))), valSet'), st')).
Proof.
  split.
  - pose proof (VerifyCommit_abstention_and_signature Example.chain
                  (Example.block x0a) 7 Example.commit_mixed Example.four_set
                  Example.four_store Example.four 1 (Example.val x02 1 0)
                  (Example.precommit x02 (Example.block x0b))
                  eq_refl eq_refl eq_refl) as W.
    cbv zeta in W. destruct W as (W & _).
    apply W; [splits; reflexivity|vm_compute; reflexivity|vm_compute; reflexivity].
  - pose proof (VerifyCommit_abstention_and_signature Example.chain
                  (Example.block x0a) 7 Example.commit_mixed Example.four_set
                  Example.four_store Example.four 2 (Example.val x03 1 0)
                  (Example.forged x03 (Example.block x0b))
                  eq_refl eq_refl eq_refl) as W.
    cbv zeta in W. destruct W as (_ & _ & _ & W).
    apply W; [splits; reflexivity|vm_compute; reflexivity|reflexivity|reflexivity|].
    repeat constructor.
Defined.

(** Three mutations of the set of four: an insertion at the end, an
    update in place and a removal at the front. *)
Lemma mutations_keep_sorted_unique_witness :
  sorted_unique Example.four_store Example.four_set
  /\ exists valSet' st',
       run_ops (take 3 Example.ops) Example.four_set Example.four_store
       = Some (valSet', st')
       /\ sorted_unique st' valSet'.
Proof.
  assert (Hfour : sorted_unique Example.four_store Example.four_set).
  { apply (sorted_unique_intro _ _ Example.four); [reflexivity|].
    repeat constructor. }
  split; [exact Hfour|].
  apply (mutations_keep_sorted_unique Example.ops 3 _ _ Hfour).
Defined.

(** Three rotation steps at once on the set of four. *)
Lemma IncrementAccum_frame_witness :
  exists valSet' st' vs',
    IncrementAccum 3 Example.four_set Example.four_store = Some (valSet', st')
    /\ Validators valSet' = Validators Example.four_set
    /\ only_Accum_changed (Validators Example.four_set) Example.four_store st'
    /\ deref st' (Validators valSet') = Some vs'
    /\ Forall2 same_but_Accum Example.four vs'
    /\ map Address vs' = map Address Example.four
    /\ (sorted_unique Example.four_store Example.four_set ->
        sorted_unique st' valSet')
    /\ (cache_consistent Example.four_set Example.four ->
        cache_consistent valSet' vs')
    /\ exists t s1 s1',
         TotalVotingPower Example.four_set Example.four_store
         = Some ((t, s1), Example.four_store)
         /\ TotalVotingPower valSet' st' = Some ((t, s1'), st').
Proof.
  apply (IncrementAccum_frame Example.four_store Example.four_set 3 Example.four).
  - reflexivity.
  - discriminate.
  - vm_compute. discriminate.
Defined.

(** Records out of order are put in order. *)
Lemma ValSetFromJsonBytes_sorted_witness :
  exists valSet st' vs,
    ValSetFromJsonBytes (Example.encode Example.shuffled) []
    = Some (Some valSet, st')
    /\ deref st' (Validators valSet) = Some vs
    /\ Permutation Example.shuffled vs
    /\ StronglySorted addr_le (map Address vs)
    /\ proposer valSet = None /\ totalVotingPower valSet = 0
    /\ (sorted_unique st' valSet <-> NoDup (map Address Example.shuffled)).
Proof.
  apply (ValSetFromJsonBytes_sorted (Example.encode Example.shuffled)
           Example.shuffled []).
  vm_compute. reflexivity.
Defined.

(** Two records with the same address are both kept, side by side: the
    set read back has two members and is not strictly sorted. *)
Lemma ValSetFromJsonBytes_keeps_duplicates :
  exists valSet st',
    ValSetFromJsonBytes (Example.encode Example.duplicated) []
    = Some (Some valSet, st')
    /\ length (Validators valSet) = 2%nat
    /\ ~ sorted_unique st' valSet.
Proof.
  do 2 eexists. split; [vm_compute; reflexivity|]. split; [reflexivity|].
  intros (vs & Hd & Hs & _). vm_compute in Hd. injection Hd as <-.
  cbn in Hs. inversion Hs as [|? ? _ Hall]. inversion Hall as [|? ? Hlt _].
  vm_compute in Hlt. discriminate.
Qed.

(** The set of four after its first rotation, written and read back. *)
Lemma JSON_round_trip_witness :
  JSONBytes Example.rotated_set Example.rotated
  = Some (Some (Example.encode Example.rotated), Example.rotated)
  /\ exists valSet' st' h t s1 s1',
       ValSetFromJsonBytes (Example.encode Example.rotated) Example.rotated
       = Some (Some valSet', st')
       /\ Hash Example.rotated_set Example.rotated = Some (h, Example.rotated)
       /\ Hash valSet' st' = Some (h, st')
       /\ TotalVotingPower Example.rotated_set Example.rotated
          = Some ((t, s1), Example.rotated)
       /\ TotalVotingPower valSet' st' = Some ((t, s1'), st').
Proof.
  apply (JSON_round_trip Example.rotated Example.rotated_set Example.rotated
           (Example.encode Example.rotated)).
  - reflexivity.
  - repeat constructor.
  - right. reflexivity.
  - reflexivity.
  - vm_compute. reflexivity.
Defined.

(** * Part III: further properties *)

(** ** Lookups *)

Section Lookup.
Local Open Scope nat_scope.

(** The search returns on every set with live members, sorted or not. *)
Lemma search_address_live st valSet vs address :
  deref st (Validators valSet) = Some vs ->
  exists r, search_address address valSet st = Some (r, st) /\ r <= length vs.
Proof.
  intros Hd.
  pose (g := fun h => match vs !! h with
                      | Some v => (bytes_Compare address (Address v) <=? 0)%Z
                      | None => false
                      end).
  pose proof (deref_length _ _ _ Hd) as Hlen.
  destruct (sort_Search_loop_spec (search_pred address valSet) g st (length vs))
    with (fuel := length vs) (i := 0) (j := length vs)
    as (r & Hr & Hle & _); auto; try lia.
  { intros h Hh. destruct (lookup_lt_is_Some_2 vs h Hh) as [v Hv].
    rewrite (search_pred_eq _ _ _ _ _ _ Hd Hv). unfold g. now rewrite Hv. }
  exists r. split; [|exact Hle].
  unfold search_address, sort_Search. now rewrite <- Hlen.
Qed.

(** On a sorted set the search and the comparison that follows it find
    an address exactly when a member has it. *)
Lemma lookup_sorted st valSet vs address :
  deref st (Validators valSet) = Some vs ->
  StronglySorted addr_lt (map Address vs) ->
  exists r b,
    search_address address valSet st = Some (r, st)
    /\ found_at address valSet r st = Some (b, st)
    /\ r <= length vs
    /\ Forall (fun a => addr_lt a address) (take r (map Address vs))
    /\ Forall (addr_le address) (drop r (map Address vs))
    /\ (b = true <-> exists v, vs !! r = Some v /\ Address v = address)
    /\ (b = true <-> address ∈ map Address vs).
Proof.
  intros Hd Hs.
  destruct (search_address_spec _ _ _ address Hd Hs) as (r & Hsearch & Hr & Hlo & Hhi).
  destruct (found_at_spec _ _ _ address r Hd Hr) as (b & Hfound & Hb).
  exists r, b. splits; auto.
  rewrite Hb. split.
  - intros (v & Hv & <-). apply list_elem_of_lookup. exists r.
    now apply map_Address_lookup.
  - intros Hin. apply list_elem_of_lookup in Hin as [k Hk].
    destruct (Nat.lt_ge_cases k r) as [Hlt|Hge].
    + exfalso. apply (addr_lt_irrefl address).
      rewrite Forall_lookup in Hlo. apply (Hlo k).
      now rewrite lookup_take_lt.
    + assert (Hrlen : r < length vs).
      { apply lookup_lt_Some in Hk. rewrite length_map in Hk. lia. }
      destruct (lookup_lt_is_Some_2 vs r Hrlen) as [w Hw].
      exists w. split; [exact Hw|].
      pose proof (map_Address_lookup _ _ _ Hw) as Haw.
      destruct (decide (k = r)) as [->|Hne]; [congruence|].
      exfalso. apply (addr_lt_irrefl address).
      eapply addr_le_lt_trans.
      * rewrite Forall_lookup in Hhi. apply (Hhi 0).
        rewrite lookup_drop, Nat.add_0_r. exact Haw.
      * eapply (StronglySorted_lookup_lt _ _ r k); eauto. lia.
Qed.

(** X1: on every set with live members, sorted or not, [HasAddress] and
    [GetByAddress] agree: either both find the address, and then
    [GetByAddress] returns an index whose member has that address
    together with a freshly allocated copy of that member; or neither
    does, and then [GetByAddress] returns index 0 and nil and allocates
    nothing.  [HasAddress] never touches the store. *)
Theorem HasAddress_agrees_with_GetByAddress (st : Store) (valSet : ValidatorSet)
    (vs : list Validator) (address : list byte) :
  deref st (Validators valSet) = Some vs ->
  (exists i v,
      HasAddress address valSet st = Some (true, st)
      /\ GetByAddress address valSet st
         = Some ((i, Some (length st)), st ++ [v])
      /\ vs !! i = Some v /\ Address v = address)
  \/ (HasAddress address valSet st = Some (false, st)
      /\ GetByAddress address valSet st = Some ((0, None), st)).
Proof.
  intros Hd.
  destruct (search_address_live _ _ _ address Hd) as (r & Hsearch & Hr).
  destruct (found_at_spec _ _ _ address r Hd Hr) as (b & Hfound & Hb).
  destruct b.
  - left. destruct (proj1 Hb eq_refl) as (v & Hv & Ha).
    apply deref_Forall2 in Hd as Hf.
    destruct (Forall2_lookup_r _ _ _ _ _ Hf Hv) as (p & Hp & Hpv).
    exists r, v. splits; auto.
    + unfold HasAddress. now mstep Hsearch.
    + unfold GetByAddress, Validator_Copy. mstep Hsearch. mstep Hfound.
      mstep (index_eq _ _ _ _ Hp). mstep (load_eq _ _ _ Hpv). reflexivity.
  - right. split.
    + unfold HasAddress. now mstep Hsearch.
    + unfold GetByAddress. mstep Hsearch. now mstep Hfound.
Qed.

(** X2: on a set sorted by address the binary search is complete:
    [HasAddress] returns true exactly for the addresses of the members,
    and leaves the store as it is. *)
Theorem HasAddress_iff_member (st : Store) (valSet : ValidatorSet)
    (vs : list Validator) (address : list byte) :
  deref st (Validators valSet) = Some vs ->
  StronglySorted addr_lt (map Address vs) ->
  exists b, HasAddress address valSet st = Some (b, st)
            /\ (b = true <-> address ∈ map Address vs).
Proof.
  intros Hd Hs.
  destruct (lookup_sorted _ _ _ address Hd Hs)
    as (r & b & Hsearch & Hfound & _ & _ & _ & _ & Hb).
  exists b. split; [|exact Hb]. unfold HasAddress. now mstep Hsearch.
Qed.

(** X3: [GetByIndex] returns the address of the member at the index and
    a freshly allocated copy of it when the index is below the size, and
    faults (index out of range) otherwise. *)
Theorem GetByIndex_bounds (st : Store) (valSet : ValidatorSet)
    (vs : list Validator) (i : nat) :
  deref st (Validators valSet) = Some vs ->
  (i < Size valSet ->
   exists v, vs !! i = Some v
             /\ GetByIndex i valSet st
                = Some ((Address v, length st), st ++ [v]))
  /\ (Size valSet <= i -> GetByIndex i valSet st = None).
Proof.
  intros Hd. pose proof (deref_length _ _ _ Hd) as Hlen. unfold Size. split.
  - intros Hi. destruct (lookup_lt_is_Some_2 vs i ltac:(lia)) as [v Hv].
    exists v. split; [exact Hv|].
    apply deref_Forall2 in Hd.
    destruct (Forall2_lookup_r _ _ _ _ _ Hd Hv) as (p & Hp & Hpv).
    unfold GetByIndex, Validator_Copy.
    mstep (index_eq _ _ _ _ Hp). mstep (load_eq _ _ _ Hpv).
    mstep (load_eq _ _ _ Hpv). reflexivity.
  - intros Hi. unfold GetByIndex, Mbind, index.
    now rewrite (proj2 (lookup_ge_None _ _) Hi).
Qed.
End Lookup.

(** ** What Add, Update and Remove do to the members *)

Section Mutations.
Local Open Scope nat_scope.

Lemma deref_insert_at st ps vs r p v :
  deref st ps = Some vs -> st !! p = Some v ->
  deref st (take r ps ++ p :: drop r ps) = Some (take r vs ++ v :: drop r vs).
Proof.
  rewrite !deref_Forall2. intros Hf Hp.
  apply Forall2_app; [now apply Forall2_take|].
  constructor; [exact Hp|now apply Forall2_drop].
Qed.

Lemma deref_delete st ps vs i :
  deref st ps = Some vs -> deref st (delete i ps) = Some (delete i vs).
Proof. rewrite !deref_Forall2. apply Forall2_delete. Qed.

Lemma Add_run st valSet vs val :
  deref st (Validators valSet) = Some vs ->
  StronglySorted addr_lt (map Address vs) ->
  ((Address val ∈ map Address vs)
   /\ Add val valSet st = Some ((false, valSet), st ++ [val]))
  \/ ((Address val ∉ map Address vs)
      /\ exists r,
           r <= length vs
           /\ Forall (fun a => addr_lt a (Address val)) (take r (map Address vs))
           /\ Forall (addr_lt (Address val)) (drop r (map Address vs))
           /\ Add val valSet st
              = Some ((true, invalidate (take r (Validators valSet) ++ length st
                                           :: drop r (Validators valSet))),
                      st ++ [val])).
Proof.
  intros Hd Hs.
  pose proof (deref_length _ _ _ Hd) as Hlen.
  pose proof (deref_app st [val] _ _ Hd) as Hd1.
  destruct (lookup_sorted _ _ _ (Address val) Hd1 Hs)
    as (r & b & Hsearch & Hfound & Hr & Hlo & Hhi & Hbv & Hb).
  assert (Hrun : Add val valSet st
                 = Some ((negb b, if b then valSet
                                  else invalidate (take r (Validators valSet)
                                                     ++ length st
                                                     :: drop r (Validators valSet))),
                         st ++ [val])).
  { unfold Add.
    mstep (eq_refl : alloc val st = Some (length st, st ++ [val])).
    mstep Hsearch.
    destruct (r =? length (Validators valSet)) eqn:E.
    - apply Nat.eqb_eq in E.
      destruct b.
      + destruct (proj1 Hbv eq_refl) as (v & Hv & _).
        apply lookup_lt_Some in Hv. lia.
      + cbn [negb]. rewrite take_ge, drop_ge by lia. reflexivity.
    - mstep Hfound. now destruct b. }
  destruct b; cbn [negb] in Hrun.
  - left. split; [now apply Hb|exact Hrun].
  - right. assert (Hnot : Address val ∉ map Address vs).
    { intros Hin. apply Hb in Hin. discriminate. }
    split; [exact Hnot|]. exists r. splits; auto.
    rewrite Forall_forall in Hhi |- *. intros a Ha.
    destruct (proj1 (addr_le_cases _ _) (Hhi a Ha)) as [Hlt|Heq]; [exact Hlt|].
    exfalso. apply Hnot. rewrite Heq.
    exact (subseteq_drop r _ _ Ha).
Qed.

Lemma Update_run st valSet vs val :
  deref st (Validators valSet) = Some vs ->
  StronglySorted addr_lt (map Address vs) ->
  ((Address val ∉ map Address vs)
   /\ Update val valSet st = Some ((false, valSet), st))
  \/ (exists i old,
        vs !! i = Some old /\ Address old = Address val
        /\ Update val valSet st
           = Some ((true, invalidate (<[i := S (length st)]> (Validators valSet))),
                   st ++ [old; val])).
Proof.
  intros Hd Hs.
  pose proof (deref_length _ _ _ Hd) as Hlen.
  destruct (lookup_sorted _ _ _ (Address val) Hd Hs)
    as (r & b & Hsearch & Hfound & Hr & _ & _ & Hbv & Hb).
  unfold Update, GetByAddress, Validator_Copy.
  mstep Hsearch. mstep Hfound. destruct b.
  - right. destruct (proj1 Hbv eq_refl) as (old & Hold & Ha).
    apply deref_Forall2 in Hd as Hf.
    destruct (Forall2_lookup_r _ _ _ _ _ Hf Hold) as (p & Hp & Hpv).
    exists r, old. splits; auto.
    mstep (index_eq _ _ _ _ Hp). mstep (load_eq _ _ _ Hpv).
    mstep (eq_refl : alloc old st = Some (length st, st ++ [old])).
    mstep (eq_refl : alloc val (st ++ [old])
                     = Some (length (st ++ [old]), (st ++ [old]) ++ [val])).
    apply lookup_lt_Some in Hp. apply Nat.ltb_lt in Hp as ->.
    rewrite length_app, <- app_assoc. cbn. now rewrite Nat.add_1_r.
  - left. split; [|reflexivity]. intros Hin. apply Hb in Hin. discriminate.
Qed.

Lemma Remove_run st valSet vs address :
  deref st (Validators valSet) = Some vs ->
  StronglySorted addr_lt (map Address vs) ->
  ((address ∉ map Address vs)
   /\ Remove address valSet st = Some ((None, false, valSet), st))
  \/ (exists i p v,
        Validators valSet !! i = Some p /\ st !! p = Some v
        /\ vs !! i = Some v /\ Address v = address
        /\ Remove address valSet st
           = Some ((Some p, true, invalidate (delete i (Validators valSet))), st)).
Proof.
  intros Hd Hs.
  pose proof (deref_length _ _ _ Hd) as Hlen.
  destruct (lookup_sorted _ _ _ address Hd Hs)
    as (r & b & Hsearch & Hfound & Hr & _ & _ & Hbv & Hb).
  unfold Remove. mstep Hsearch. mstep Hfound. destruct b; cbn [negb].
  - right. destruct (proj1 Hbv eq_refl) as (v & Hv & Ha).
    apply deref_Forall2 in Hd as Hf.
    destruct (Forall2_lookup_r _ _ _ _ _ Hf Hv) as (p & Hp & Hpv).
    exists r, p, v. splits; auto.
    mstep (index_eq _ _ _ _ Hp).
    replace (if r + 1 <? length (Validators valSet)
             then take r (Validators valSet) ++ drop (r + 1) (Validators valSet)
             else take r (Validators valSet))
      with (delete r (Validators valSet)); [reflexivity|].
    rewrite delete_take_drop, Nat.add_1_r.
    destruct (S r <? length (Validators valSet)) eqn:E; [reflexivity|].
    apply Nat.ltb_ge in E. rewrite drop_ge by lia. apply app_nil_r.
  - left. split; [|reflexivity]. intros Hin. apply Hb in Hin. discriminate.
Qed.
(** X4: on a set sorted by address, [Add] returns false exactly when a
    member already has the address of the new validator, and then the
    set is left as it is; otherwise it returns true and the members are
    the old members, in their order, with a copy of the new validator
    put between those of smaller and those of greater address: the size
    grows by one and both caches are cleared. *)
Theorem Add_inserts_in_order (st : Store) (valSet : ValidatorSet)
    (vs : list Validator) (val : Validator) :
  deref st (Validators valSet) = Some vs ->
  StronglySorted addr_lt (map Address vs) ->
  exists added valSet',
    Add val valSet st = Some ((added, valSet'), st ++ [val])
    /\ (added = false <-> Address val ∈ map Address vs)
    /\ (added = false -> valSet' = valSet)
    /\ (added = true ->
        exists front back,
          vs = front ++ back
          /\ deref (st ++ [val]) (Validators valSet') = Some (front ++ val :: back)
          /\ StronglySorted addr_lt (map Address (front ++ val :: back))
          /\ Size valSet' = S (Size valSet)
          /\ proposer valSet' = None
          /\ totalVotingPower valSet' = 0%Z).
Proof.
  intros Hd Hs. pose proof (deref_length _ _ _ Hd) as Hlen.
  destruct (Add_run _ _ _ val Hd Hs) as [[Hin Hrun]|(Hnot & r & Hr & Hlo & Hhi & Hrun)].
  - exists false, valSet. splits; auto; [tauto|discriminate].
  - eexists true, _. splits; [exact Hrun| |discriminate|intros _].
    { split; [discriminate|]. intros Hin. now destruct Hnot. }
    exists (take r vs), (drop r vs). splits.
    + symmetry. apply take_drop.
    + apply deref_insert_at; [now apply deref_app|apply lookup_alloc].
    + rewrite map_app. cbn [map]. rewrite <- firstn_map, <- skipn_map.
      now apply StronglySorted_insert_at.
    + unfold Size. cbn [Validators invalidate].
      rewrite length_app, length_take. cbn [length]. rewrite length_drop. lia.
    + reflexivity.
    + reflexivity.
Qed.

(** X5: on a set sorted by address, [Update] returns true exactly when a
    member has the address of the given validator; it then replaces
    that member, and only that one, by a copy of the given validator, so
    that the addresses and their order stay as they were, and clears
    both caches.  Otherwise neither the set nor the store changes. *)
Theorem Update_replaces_member (st : Store) (valSet : ValidatorSet)
    (vs : list Validator) (val : Validator) :
  deref st (Validators valSet) = Some vs ->
  StronglySorted addr_lt (map Address vs) ->
  exists updated valSet' st',
    Update val valSet st = Some ((updated, valSet'), st')
    /\ (updated = true <-> Address val ∈ map Address vs)
    /\ (updated = false -> valSet' = valSet /\ st' = st)
    /\ (updated = true ->
        exists i old,
          vs !! i = Some old /\ Address old = Address val
          /\ deref st' (Validators valSet') = Some (<[i := val]> vs)
          /\ map Address (<[i := val]> vs) = map Address vs
          /\ Size valSet' = Size valSet
          /\ proposer valSet' = None
          /\ totalVotingPower valSet' = 0%Z).
Proof.
  intros Hd Hs.
  destruct (Update_run _ _ _ val Hd Hs) as [[Hnot Hrun]|(i & old & Hi & Ha & Hrun)].
  - exists false, valSet, st. splits; auto; [|discriminate].
    split; [discriminate|]. intros Hin. now destruct Hnot.
  - eexists true, _, _. splits; [exact Hrun| |discriminate|intros _].
    { split; [intros _|reflexivity]. rewrite <- Ha.
      apply list_elem_of_lookup. exists i. now apply map_Address_lookup. }
    exists i, old. splits; auto.
    + cbn [Validators invalidate]. apply deref_Forall2, Forall2_insert.
      * apply deref_Forall2. now apply deref_app.
      * rewrite lookup_app_r by lia. now rewrite Nat.sub_succ_l, Nat.sub_diag by lia.
    + change (map Address (<[i:=val]> vs)) with (Address <$> <[i:=val]> vs).
      rewrite list_fmap_insert. apply list_insert_id.
      rewrite <- Ha. now apply map_Address_lookup.
    + unfold Size. cbn [Validators invalidate]. apply length_insert.
Qed.

(** X6: on a set sorted by address, [Remove] returns (nil, false)
    exactly when no member has the address, and then the set is left as
    it is; otherwise it returns true together with the member itself
    (the set's own pointer, not a copy), the remaining members keep
    their order, and both caches are cleared.  [Remove] never changes
    the store. *)
Theorem Remove_deletes_member (st : Store) (valSet : ValidatorSet)
    (vs : list Validator) (address : list byte) :
  deref st (Validators valSet) = Some vs ->
  StronglySorted addr_lt (map Address vs) ->
  exists removedVal removed valSet',
    Remove address valSet st = Some ((removedVal, removed, valSet'), st)
    /\ (removed = true <-> address ∈ map Address vs)
    /\ (removed = false -> removedVal = None /\ valSet' = valSet)
    /\ (removed = true ->
        exists i p v,
          removedVal = Some p
          /\ Validators valSet !! i = Some p
          /\ st !! p = Some v /\ vs !! i = Some v /\ Address v = address
          /\ Validators valSet' = delete i (Validators valSet)
          /\ deref st (Validators valSet') = Some (delete i vs)
          /\ proposer valSet' = None
          /\ totalVotingPower valSet' = 0%Z).
Proof.
  intros Hd Hs.
  destruct (Remove_run _ _ _ address Hd Hs)
    as [[Hnot Hrun]|(i & p & v & Hp & Hpv & Hv & Ha & Hrun)].
  - exists None, false, valSet. splits; auto; [|discriminate].
    split; [discriminate|]. intros Hin. now destruct Hnot.
  - eexists (Some p), true, _. splits; [exact Hrun| |discriminate|intros _].
    { split; [intros _|reflexivity]. rewrite <- Ha.
      apply list_elem_of_lookup. exists i. now apply map_Address_lookup. }
    exists i, p, v. splits; auto.
    cbn [Validators invalidate]. now apply deref_delete.
Qed.

(** X7: adding a validator whose address is new and then removing that
    address gives back the slice of members the set had before: [Add]
    returns true, [Remove] returns the stored copy of the validator,
    and the members are again the same pointers in the same order. *)
Theorem Add_then_Remove_restores (st : Store) (valSet : ValidatorSet)
    (vs : list Validator) (val : Validator) :
  deref st (Validators valSet) = Some vs ->
  StronglySorted addr_lt (map Address vs) ->
  Address val ∉ map Address vs ->
  exists valSet1 valSet2 p,
    Add val valSet st = Some ((true, valSet1), st ++ [val])
    /\ Remove (Address val) valSet1 (st ++ [val])
       = Some ((Some p, true, valSet2), st ++ [val])
    /\ (st ++ [val]) !! p = Some val
    /\ Validators valSet2 = Validators valSet
    /\ deref (st ++ [val]) (Validators valSet2) = Some vs.
Proof.
  intros Hd Hs Hnot. pose proof (deref_length _ _ _ Hd) as Hlen.
  destruct (Add_run _ _ _ val Hd Hs) as [[Hin _]|(_ & r & Hr & Hlo & Hhi & Hrun)];
    [now destruct Hnot|].
  set (V1 := take r (Validators valSet) ++ length st :: drop r (Validators valSet)) in *.
  assert (Hd1 : deref (st ++ [val]) (Validators (invalidate V1))
                = Some (take r vs ++ val :: drop r vs)).
  { apply deref_insert_at; [now apply deref_app|apply lookup_alloc]. }
  assert (Hs1 : StronglySorted addr_lt (map Address (take r vs ++ val :: drop r vs))).
  { rewrite map_app. cbn [map]. rewrite <- firstn_map, <- skipn_map.
    now apply StronglySorted_insert_at. }
  assert (Hmid : (take r vs ++ val :: drop r vs) !! r = Some val).
  { apply list_lookup_middle. rewrite length_take. lia. }
  destruct (Remove_run _ _ _ (Address val) Hd1 Hs1)
    as [[Hout _]|(i & p & v & Hp & Hpv & Hv & Ha & Hrem)].
  { destruct Hout. apply list_elem_of_lookup. exists r.
    now apply map_Address_lookup. }
  assert (i = r) as ->.
  { apply (NoDup_lookup (map Address (take r vs ++ val :: drop r vs)) i r (Address val)).
    - now apply StronglySorted_addr_NoDup.
    - rewrite <- Ha. now apply map_Address_lookup.
    - now apply map_Address_lookup. }
  assert (v = val) as -> by congruence.
  assert (Hdel : delete r V1 = Validators valSet).
  { subst V1. rewrite <- (take_drop r (Validators valSet)) at 3.
    rewrite <- (delete_middle (take r (Validators valSet))
                  (drop r (Validators valSet)) (length st)).
    f_equal. rewrite length_take. lia. }
  exists (invalidate V1), (invalidate (delete r V1)), p.
  splits; auto.
  - cbn [Validators invalidate]. rewrite Hdel. now apply deref_app.
Qed.

(** X8: removing a member and then adding the removed validator again
    gives back the members the set had before, value for value and in
    the same order. *)
Theorem Remove_then_Add_restores (st : Store) (valSet : ValidatorSet)
    (vs : list Validator) (address : list byte) :
  deref st (Validators valSet) = Some vs ->
  StronglySorted addr_lt (map Address vs) ->
  address ∈ map Address vs ->
  exists p v valSet1 valSet2,
    Remove address valSet st = Some ((Some p, true, valSet1), st)
    /\ st !! p = Some v
    /\ Add v valSet1 st = Some ((true, valSet2), st ++ [v])
    /\ deref (st ++ [v]) (Validators valSet2) = Some vs.
Proof.
  intros Hd Hs Hin.
  destruct (Remove_run _ _ _ address Hd Hs)
    as [[Hnot _]|(i & p & v & Hp & Hpv & Hv & Ha & Hrem)]; [now destruct Hnot|].
  pose proof (deref_delete _ _ _ i Hd) as Hd1.
  assert (Hs1 : StronglySorted addr_lt (map Address (delete i vs))).
  { rewrite delete_take_drop, map_app, <- firstn_map, <- skipn_map.
    now apply StronglySorted_delete_at. }
  pose proof (map_Address_lookup _ _ _ Hv) as Hav.
  assert (Hi : i < length vs) by (eapply lookup_lt_Some, Hv).
  change (map Address (delete i vs)) with (Address <$> delete i vs) in *.
  change (map Address vs) with (Address <$> vs) in *.
  destruct (Add_run st (invalidate (delete i (Validators valSet))) _ v Hd1 Hs1)
    as [[Hdup _]|(_ & r & Hr & Hlo & Hhi & Hadd)].
  { exfalso. apply list_elem_of_lookup in Hdup as [k Hk].
    rewrite list_lookup_fmap in Hk.
    destruct (decide (k < i)) as [Hlt|Hge].
    - rewrite list_lookup_delete_lt in Hk by exact Hlt.
      rewrite <- list_lookup_fmap in Hk.
      pose proof (NoDup_lookup _ _ _ _ (StronglySorted_addr_NoDup _ Hs) Hk Hav). lia.
    - rewrite list_lookup_delete_ge in Hk by lia.
      rewrite <- list_lookup_fmap in Hk.
      pose proof (NoDup_lookup _ _ _ _ (StronglySorted_addr_NoDup _ Hs) Hk Hav). lia. }
  assert (Hlen1 : length (delete i vs) = length vs - 1).
  { apply length_delete. eauto. }
  assert (r = i) as ->.
  { destruct (Nat.lt_trichotomy r i) as [Hlt|[Heq|Hgt]]; [|exact Heq|]; exfalso.
    - destruct (lookup_lt_is_Some_2 vs r ltac:(lia)) as [w Hw].
      apply (addr_lt_irrefl (Address v)).
      eapply addr_lt_trans.
      + rewrite Forall_lookup in Hhi. apply (Hhi 0 (Address w)).
        rewrite lookup_drop, Nat.add_0_r, list_lookup_fmap.
        rewrite list_lookup_delete_lt by exact Hlt. now rewrite Hw.
      + apply (StronglySorted_lookup_lt _ _ r i _ _ Hs Hlt);
          [now rewrite list_lookup_fmap, Hw|exact Hav].
    - destruct (lookup_lt_is_Some_2 vs (S i) ltac:(lia)) as [w Hw].
      apply (addr_lt_irrefl (Address v)).
      eapply addr_lt_trans.
      + apply (StronglySorted_lookup_lt _ _ i (S i) _ _ Hs ltac:(lia) Hav).
        now rewrite list_lookup_fmap, Hw.
      + rewrite Forall_lookup in Hlo. apply (Hlo i (Address w)).
        rewrite lookup_take_lt by exact Hgt. rewrite list_lookup_fmap.
        rewrite list_lookup_delete_ge by lia. now rewrite Hw. }
  exists p, v, (invalidate (delete i (Validators valSet))). eexists.
  splits; [exact Hrem|exact Hpv|exact Hadd|].
  cbn [Validators invalidate].
  rewrite (deref_insert_at _ _ _ i (length st) v
             (deref_app _ [v] _ _ Hd1) (lookup_alloc st v)).
  f_equal. rewrite delete_take_drop.
  rewrite take_app_length', drop_app_length' by (rewrite length_take; lia).
  now apply take_drop_middle.
Qed.
End Mutations.

(** ** Concrete runs of the lookups and the mutations *)

Lemma four_live :
  deref Example.four_store (Validators Example.four_set) = Some Example.four.
Proof. reflexivity. Qed.

Lemma four_sorted : StronglySorted addr_lt (map Address Example.four).
Proof. repeat constructor. Qed.

(** The set of four, asked for the address 03. *)
Lemma HasAddress_agrees_with_GetByAddress_witness :
  (exists i v,
      HasAddress [x03] Example.four_set Example.four_store
      = Some (true, Example.four_store)
      /\ GetByAddress [x03] Example.four_set Example.four_store
         = Some ((i, Some (length Example.four_store)), Example.four_store ++ [v])
      /\ Example.four !! i = Some v /\ Address v = [x03])
  \/ (HasAddress [x03] Example.four_set Example.four_store
      = Some (false, Example.four_store)
      /\ GetByAddress [x03] Example.four_set Example.four_store
         = Some ((0%nat, None), Example.four_store)).
Proof.
  apply (HasAddress_agrees_with_GetByAddress
           Example.four_store Example.four_set Example.four [x03]).
  reflexivity.
Defined.

Lemma HasAddress_iff_member_witness :
  exists b,
    HasAddress [x05] Example.four_set Example.four_store
    = Some (b, Example.four_store)
    /\ (b = true <-> [x05] ∈ map Address Example.four).
Proof.
  apply (HasAddress_iff_member Example.four_store Example.four_set Example.four [x05]).
  - reflexivity.
  - repeat constructor.
Defined.

Lemma GetByIndex_bounds_witness :
  ((2 < Size Example.four_set)%nat ->
   exists v, Example.four !! 2%nat = Some v
             /\ GetByIndex 2 Example.four_set Example.four_store
                = Some ((Address v, length Example.four_store),
                        Example.four_store ++ [v]))
  /\ ((Size Example.four_set <= 2)%nat ->
      GetByIndex 2 Example.four_set Example.four_store = None).
Proof.
  apply (GetByIndex_bounds Example.four_store Example.four_set Example.four 2).
  reflexivity.
Defined.

(** A validator of address 05 is added to the set of four. *)
Lemma Add_inserts_in_order_witness :
  exists added valSet',
    Add (Example.val x05 3 0) Example.four_set Example.four_store
    = Some ((added, valSet'), Example.four_store ++ [Example.val x05 3 0])
    /\ (added = false <-> Address (Example.val x05 3 0) ∈ map Address Example.four)
    /\ (added = false -> valSet' = Example.four_set)
    /\ (added = true ->
        exists front back,
          Example.four = front ++ back
          /\ deref (Example.four_store ++ [Example.val x05 3 0]) (Validators valSet')
             = Some (front ++ Example.val x05 3 0 :: back)
          /\ StronglySorted addr_lt
               (map Address (front ++ Example.val x05 3 0 :: back))
          /\ Size valSet' = S (Size Example.four_set)
          /\ proposer valSet' = None
          /\ totalVotingPower valSet' = 0).
Proof.
  apply (Add_inserts_in_order Example.four_store Example.four_set Example.four).
  - reflexivity.
  - repeat constructor.
Defined.

(** The validator of address 02 gets the voting power 9. *)
Lemma Update_replaces_member_witness :
  exists updated valSet' st',
    Update (Example.val x02 9 0) Example.four_set Example.four_store
    = Some ((updated, valSet'), st')
    /\ (updated = true
        <-> Address (Example.val x02 9 0) ∈ map Address Example.four)
    /\ (updated = false -> valSet' = Example.four_set /\ st' = Example.four_store)
    /\ (updated = true ->
        exists i old,
          Example.four !! i = Some old
          /\ Address old = Address (Example.val x02 9 0)
          /\ deref st' (Validators valSet')
             = Some (<[i := Example.val x02 9 0]> Example.four)
          /\ map Address (<[i := Example.val x02 9 0]> Example.four)
             = map Address Example.four
          /\ Size valSet' = Size Example.four_set
          /\ proposer valSet' = None
          /\ totalVotingPower valSet' = 0).
Proof.
  apply (Update_replaces_member Example.four_store Example.four_set Example.four).
  - reflexivity.
  - repeat constructor.
Defined.

(** The validator of address 01 is removed. *)
Lemma Remove_deletes_member_witness :
  exists removedVal removed valSet',
    Remove [x01] Example.four_set Example.four_store
    = Some ((removedVal, removed, valSet'), Example.four_store)
    /\ (removed = true <-> [x01] ∈ map Address Example.four)
    /\ (removed = false -> removedVal = None /\ valSet' = Example.four_set)
    /\ (removed = true ->
        exists i p v,
          removedVal = Some p
          /\ Validators Example.four_set !! i = Some p
          /\ Example.four_store !! p = Some v /\ Example.four !! i = Some v
          /\ Address v = [x01]
          /\ Validators valSet' = delete i (Validators Example.four_set)
          /\ deref Example.four_store (Validators valSet')
             = Some (delete i Example.four)
          /\ proposer valSet' = None
          /\ totalVotingPower valSet' = 0).
Proof.
  apply (Remove_deletes_member Example.four_store Example.four_set Example.four).
  - reflexivity.
  - repeat constructor.
Defined.

Lemma Add_then_Remove_restores_witness :
  exists valSet1 valSet2 p,
    Add (Example.val x00 5 0) Example.four_set Example.four_store
    = Some ((true, valSet1), Example.four_store ++ [Example.val x00 5 0])
    /\ Remove (Address (Example.val x00 5 0)) valSet1
         (Example.four_store ++ [Example.val x00 5 0])
       = Some ((Some p, true, valSet2), Example.four_store ++ [Example.val x00 5 0])
    /\ (Example.four_store ++ [Example.val x00 5 0]) !! p
       = Some (Example.val x00 5 0)
    /\ Validators valSet2 = Validators Example.four_set
    /\ deref (Example.four_store ++ [Example.val x00 5 0]) (Validators valSet2)
       = Some Example.four.
Proof.
  apply (Add_then_Remove_restores Example.four_store Example.four_set Example.four).
  - reflexivity.
  - repeat constructor.
  - cbn. rewrite !elem_of_cons, elem_of_nil.
    intros [H|[H|[H|[H|[]]]]]; discriminate H.
Defined.

Lemma Remove_then_Add_restores_witness :
  exists p v valSet1 valSet2,
    Remove [x03] Example.four_set Example.four_store
    = Some ((Some p, true, valSet1), Example.four_store)
    /\ Example.four_store !! p = Some v
    /\ Add v valSet1 Example.four_store
       = Some ((true, valSet2), Example.four_store ++ [v])
    /\ deref (Example.four_store ++ [v]) (Validators valSet2) = Some Example.four.
Proof.
  apply (Remove_then_Add_restores Example.four_store Example.four_set Example.four).
  - reflexivity.
  - repeat constructor.
  - cbn. do 2 right. left.
Defined.

(** ** The rotation: faults, the proposer and the sum of the accums *)

Section Rotation.
Local Open Scope Z_scope.

Lemma range_cases (i deTime : Z) (n : nat) :
  i <= deTime < i + Z.of_nat n \/ ~ i <= deTime < i + Z.of_nat n.
Proof. lia. Qed.

Lemma congruent_refl a : congruent a a.
Proof. exists 0. lia. Qed.

Lemma congruent_trans a b c : congruent a b -> congruent b c -> congruent a c.
Proof. intros [k ->] [l ->]. exists (k + l). lia. Qed.

Lemma congruent_wrap z : congruent (Int64.wrap z) z.
Proof.
  unfold Int64.wrap. exists (- ((z + 2 ^ 63) / 2 ^ 64)).
  pose proof (Z.div_mod (z + 2 ^ 63) (2 ^ 64) ltac:(lia)). lia.
Qed.

Lemma congruent_wrap_eq a b : congruent a b -> Int64.wrap a = Int64.wrap b.
Proof.
  intros [k ->]. unfold Int64.wrap.
  replace (b + k * 2 ^ 64 + 2 ^ 63) with (b + 2 ^ 63 + k * 2 ^ 64) by lia.
  now rewrite Z_mod_plus_full.
Qed.

Lemma congruent_add a a' b b' :
  congruent a a' -> congruent b b' -> congruent (a + b) (a' + b').
Proof. intros [k ->] [l ->]. exists (k + l). lia. Qed.

Lemma congruent_mul_l c a a' : congruent a a' -> congruent (c * a) (c * a').
Proof. intros [k ->]. exists (c * k). lia. Qed.

Lemma sum_Accum_insert vs k v v' :
  vs !! k = Some v ->
  sum_Accum (<[k := v']> vs) = sum_Accum vs - Accum v + Accum v'.
Proof.
  revert k. induction vs as [|w vs IH]; intros [|k] Hk; try discriminate.
  - injection Hk as ->. cbn. lia.
  - cbn in Hk. cbn. change (fold_right _ 0 (<[k:=v']> vs)) with (sum_Accum (<[k:=v']> vs)).
    rewrite (IH _ Hk). unfold sum_Accum. lia.
Qed.

Lemma sum_VotingPower_same vs vs' :
  Forall2 same_but_Accum vs vs' -> sum_VotingPower vs' = sum_VotingPower vs.
Proof.
  induction 1 as [|v v' vs vs' (_ & _ & Hp) _ IH]; [reflexivity|].
  rewrite !sum_VotingPower_cons. lia.
Qed.

Lemma Forall2_same_but_Accum_refl vs : Forall2 same_but_Accum vs vs.
Proof. induction vs; constructor; auto using same_but_Accum_refl. Qed.

Lemma Forall2_same_but_Accum_trans vs1 vs2 vs3 :
  Forall2 same_but_Accum vs1 vs2 -> Forall2 same_but_Accum vs2 vs3 ->
  Forall2 same_but_Accum vs1 vs3.
Proof.
  intros H. revert vs3. induction H as [|v1 v2 vs1 vs2 Hv _ IH]; intros vs3 H3.
  - inversion H3. constructor.
  - inversion H3 as [|? v3 ? vs3' Hv3 H3']; subst.
    constructor; [eapply same_but_Accum_trans; eauto|now apply IH].
Qed.

(** The wrapped total of the voting powers is their sum up to
    wrap-around. *)
Lemma total_fold_congruent vs acc :
  congruent (fold_left (fun acc v => Int64.add acc (VotingPower v)) vs acc)
            (acc + sum_VotingPower vs).
Proof.
  revert acc. induction vs as [|v vs IH]; intros acc.
  - cbn. exists 0. lia.
  - cbn [fold_left]. rewrite sum_VotingPower_cons.
    eapply congruent_trans; [apply IH|].
    destruct (congruent_wrap (acc + VotingPower v)) as [k Hk].
    unfold Int64.add. rewrite Hk. exists k. lia.
Qed.

Lemma total_of_congruent vs : congruent (total_of vs) (sum_VotingPower vs).
Proof. apply (total_fold_congruent vs 0). Qed.

(** Writing the accum of one member of a slice without repeated
    pointers changes that member only. *)
Lemma deref_set_Accum st ps vs k p v v' :
  deref st ps = Some vs -> NoDup ps ->
  ps !! k = Some p -> vs !! k = Some v ->
  deref (<[p := v']> st) ps = Some (<[k := v']> vs).
Proof.
  rewrite !deref_Forall2. intros Hf Hn Hp Hv.
  apply Forall2_same_length_lookup. split.
  - rewrite length_insert. eapply Forall2_length, Hf.
  - intros i q w Hq Hw.
    destruct (Forall2_lookup_l _ _ _ _ _ Hf Hq) as (w0 & Hw0 & Hqw).
    destruct (decide (i = k)) as [->|Hne].
    + assert (q = p) as -> by congruence.
      rewrite list_lookup_insert_eq in Hw by (eapply lookup_lt_Some, Hv).
      injection Hw as <-.
      apply list_lookup_insert_eq. eapply lookup_lt_Some, Hqw.
    + rewrite list_lookup_insert_ne in Hw by auto.
      rewrite list_lookup_insert_ne; [congruence|].
      intros ->. apply Hne. symmetry. eapply NoDup_lookup; eauto.
Qed.
(** The first loop adds [VotingPower * times] to the accum of every
    member. *)
Lemma IncrementAccum_push_sum times ps :
  NoDup ps ->
  forall qs h st vs ws,
    deref st ps = Some vs -> deref st qs = Some ws ->
    (forall q, q ∈ qs -> q ∈ ps) ->
    exists h' st' vs',
      Mfold (IncrementAccum_push_one times) h qs st = Some (h', st')
      /\ deref st' ps = Some vs'
      /\ Forall2 same_but_Accum vs vs'
      /\ congruent (sum_Accum vs') (sum_Accum vs + times * sum_VotingPower ws).
Proof.
  intros Hn. induction qs as [|q qs IH]; intros h st vs ws Hd Hq Hsub.
  - cbn in Hq. injection Hq as <-. exists h, st, vs.
    splits; auto using Forall2_same_but_Accum_refl.
    exists 0. cbn. lia.
  - apply deref_cons_inv in Hq as (w & ws' & -> & Hw & Hqs).
    destruct (proj1 (list_elem_of_lookup _ _) (Hsub q ltac:(left))) as [k Hk].
    destruct (deref_lookup _ _ _ _ _ Hd Hk) as (w0 & Hvk & Hw0).
    assert (w0 = w) as -> by congruence.
    set (a := Int64.add (Accum w) (Int64.mul (VotingPower w) times)).
    pose proof (deref_set_Accum _ _ _ _ _ _ (with_Accum w a) Hd Hn Hk Hvk) as Hd1.
    pose proof (only_Accum_changed_set ps st q w a Hw (Hsub q ltac:(left))) as Hc.
    destruct (only_Accum_changed_deref _ _ _ _ _ Hc Hqs) as (ws1 & Hqs1 & Hf1).
    destruct (IH (Heap.Push h q a) _ _ _ Hd1 Hqs1) as (h' & st' & vs' & Hf & Hd' & Hs' & Hsum).
    { intros x Hx. apply Hsub. now right. }
    exists h', st', vs'. splits.
    + cbn [Mfold]. unfold IncrementAccum_push_one at 1.
      mstep (load_eq _ _ _ Hw). fold a.
      mstep (set_Accum_eq _ _ _ a Hw). exact Hf.
    + exact Hd'.
    + eapply Forall2_same_but_Accum_trans; [|exact Hs'].
      rewrite <- (list_insert_id _ _ _ Hvk) at 1.
      apply Forall2_insert; [apply Forall2_same_but_Accum_refl|].
      now repeat split.
    + eapply congruent_trans; [exact Hsum|].
      rewrite (sum_Accum_insert _ _ _ _ Hvk), (sum_VotingPower_same _ _ Hf1).
      rewrite sum_VotingPower_cons. cbn [Accum with_Accum].
      destruct (congruent_wrap (Accum w + Int64.mul (VotingPower w) times)) as [k1 H1].
      destruct (congruent_wrap (VotingPower w * times)) as [k2 H2].
      unfold a, Int64.add. rewrite H1. unfold Int64.mul. rewrite H2.
      exists (k1 + k2). lia.
Qed.

(** One iteration of the second loop: the top of the queue becomes the
    proposer when the counter has reached [deTime], and its accum is
    decreased by the total voting power. *)
Lemma IncrementAccum_step_run deTime i valSet h st vs p v :
  deref st (Validators valSet) = Some vs ->
  heap_within (Validators valSet) h ->
  Heap.Peek h = Some p -> st !! p = Some v ->
  let s1 := if i =? deTime then with_proposer valSet (Some p) else valSet in
  let t := TotalVotingPower_value s1 vs in
  exists h',
    IncrementAccum_step deTime i (valSet, h) st
    = Some ((with_totalVotingPower s1 t, h'),
            <[p := with_Accum v (Int64.sub (Accum v) t)]> st)
    /\ length h' = length h
    /\ heap_within (Validators valSet) h'.
Proof.
  intros Hd Hw Hpeek Hp s1 t.
  assert (Hne : h <> []) by (destruct h; [discriminate|congruence]).
  assert (Hin : p ∈ Validators valSet).
  { destruct (Peek_within _ _ Hw Hne) as (q & Hq & Hqin). congruence. }
  assert (Hd1 : deref st (Validators s1) = Some vs).
  { subst s1. now destruct (i =? deTime). }
  destruct (Update_keeps (fun it => value it ∈ Validators valSet) h p
              (Int64.sub (Accum v) t) Hne) as (h' & Hu & Hl & Hk).
  exists h'. splits; [|exact Hl|now apply Hk].
  unfold IncrementAccum_step. rewrite Hpeek. fold s1.
  mstep (TotalVotingPower_eq _ _ _ Hd1). fold t.
  mstep (load_eq _ _ _ Hp).
  mstep (set_Accum_eq _ _ _ (Int64.sub (Accum v) t) Hp).
  now rewrite Hu.
Qed.

(** The second loop, from counter [i] with [n] iterations to go: the
    proposer is a member once the counter has passed [deTime], and is
    left alone otherwise. *)
Lemma IncrementAccum_loop_proposer n deTime :
  forall i valSet h st vs,
    deref st (Validators valSet) = Some vs ->
    h <> [] ->
    heap_within (Validators valSet) h ->
    exists valSet' h' st',
      IncrementAccum_loop n deTime i (valSet, h) st = Some ((valSet', h'), st')
      /\ Validators valSet' = Validators valSet
      /\ (i <= deTime < i + Z.of_nat n ->
          exists p, proposer valSet' = Some p /\ p ∈ Validators valSet)
      /\ (~ i <= deTime < i + Z.of_nat n -> proposer valSet' = proposer valSet).
Proof.
  induction n as [|n IH]; intros i valSet h st vs Hd Hne Hw.
  - exists valSet, h, st. splits; auto. lia.
  - destruct (Peek_within _ _ Hw Hne) as (p & Hpeek & Hin).
    destruct (deref_elem _ _ _ _ Hd Hin) as [v Hp].
    destruct (IncrementAccum_step_run deTime i _ _ _ _ _ _ Hd Hw Hpeek Hp)
      as (h1 & Hstep & Hl1 & Hw1).
    set (s1 := if i =? deTime then with_proposer valSet (Some p) else valSet) in *.
    set (t := TotalVotingPower_value s1 vs) in *.
    assert (Hv1 : Validators (with_totalVotingPower s1 t) = Validators valSet).
    { subst s1. now destruct (i =? deTime). }
    pose proof (only_Accum_changed_set (Validators valSet) st p v
                  (Int64.sub (Accum v) t) Hp Hin) as Hc.
    destruct (only_Accum_changed_deref _ _ _ _ _ Hc Hd) as (vs1 & Hd1 & _).
    rewrite <- Hv1 in Hd1, Hw1.
    assert (Hne1 : h1 <> []) by (destruct h1, h; cbn in *; congruence).
    destruct (IH (i + 1) _ h1 _ vs1 Hd1 Hne1 Hw1)
      as (s2 & h2 & st2 & Hloop & Hv2 & Hset & Hkeep).
    exists s2, h2, st2. splits.
    + cbn [IncrementAccum_loop]. now mstep Hstep.
    + congruence.
    + intros Hrange. destruct (Z.eq_dec i deTime) as [Heq|Hne'].
      * destruct (range_cases (i + 1) deTime n) as [Hin'|Hout]; [lia|].
        rewrite (Hkeep Hout). exists p. split; [|exact Hin].
        subst s1. apply Z.eqb_eq in Heq. now rewrite Heq.
      * destruct Hset as (q & Hq & Hqin); [lia|].
        exists q. split; [exact Hq|]. now rewrite <- Hv1.
    + intros Hout. rewrite Hkeep by lia.
      subst s1. destruct (i =? deTime) eqn:E; [|reflexivity].
      apply Z.eqb_eq in E. lia.
Qed.
Lemma cache_consistent_value valSet vs :
  cache_consistent valSet vs -> TotalVotingPower_value valSet vs = total_of vs.
Proof.
  unfold cache_consistent, TotalVotingPower_value.
  intros [E|E]; rewrite E; [reflexivity|]. now destruct (total_of vs =? 0) eqn:E0.
Qed.

(** The second loop takes the total voting power from one member in
    each iteration. *)
Lemma IncrementAccum_loop_sum n deTime :
  forall i valSet h st vs,
    deref st (Validators valSet) = Some vs ->
    NoDup (Validators valSet) ->
    h <> [] ->
    heap_within (Validators valSet) h ->
    cache_consistent valSet vs ->
    exists valSet' h' st' vs',
      IncrementAccum_loop n deTime i (valSet, h) st = Some ((valSet', h'), st')
      /\ deref st' (Validators valSet) = Some vs'
      /\ Forall2 same_but_Accum vs vs'
      /\ congruent (sum_Accum vs')
                   (sum_Accum vs - Z.of_nat n * sum_VotingPower vs).
Proof.
  induction n as [|n IH]; intros i valSet h st vs Hd Hn Hne Hw Hc.
  - exists valSet, h, st, vs. splits; auto using Forall2_same_but_Accum_refl.
    exists 0. lia.
  - destruct (Peek_within _ _ Hw Hne) as (p & Hpeek & Hin).
    destruct (proj1 (list_elem_of_lookup _ _) Hin) as [k Hk].
    destruct (deref_lookup _ _ _ _ _ Hd Hk) as (v & Hvk & Hp).
    destruct (IncrementAccum_step_run deTime i _ _ _ _ _ _ Hd Hw Hpeek Hp)
      as (h1 & Hstep & Hl1 & Hw1).
    set (s1 := if i =? deTime then with_proposer valSet (Some p) else valSet) in *.
    assert (Hs1 : Validators s1 = Validators valSet
                  /\ totalVotingPower s1 = totalVotingPower valSet)
      by (subst s1; destruct (i =? deTime); auto).
    destruct Hs1 as [Hv1 Ht1].
    assert (Hc1 : cache_consistent s1 vs)
      by (unfold cache_consistent in *; now rewrite Ht1).
    set (t := TotalVotingPower_value s1 vs) in *.
    assert (Ht : t = total_of vs) by (apply cache_consistent_value, Hc1).
    set (v1 := with_Accum v (Int64.sub (Accum v) t)) in *.
    pose proof (deref_set_Accum _ _ _ _ _ _ v1 Hd Hn Hk Hvk) as Hd1.
    assert (Hf1 : Forall2 same_but_Accum vs (<[k := v1]> vs)).
    { rewrite <- (list_insert_id _ _ _ Hvk) at 1.
      apply Forall2_insert; [apply Forall2_same_but_Accum_refl|].
      now repeat split. }
    assert (Hne1 : h1 <> []) by (destruct h1, h; cbn in *; congruence).
    assert (Hv1' : Validators (with_totalVotingPower s1 t) = Validators valSet)
      by exact Hv1.
    destruct (IH (i + 1) (with_totalVotingPower s1 t) h1
                (<[p := v1]> st) (<[k := v1]> vs))
      as (s2 & h2 & st2 & vs2 & Hloop & Hd2 & Hf2 & Hsum);
      rewrite ?Hv1'; auto.
    { apply (cache_consistent_same _ vs _ Hf1), cache_consistent_filled, Hc1. }
    rewrite Hv1' in Hd2.
    exists s2, h2, st2, vs2. splits.
    + cbn [IncrementAccum_loop]. now mstep Hstep.
    + exact Hd2.
    + eapply Forall2_same_but_Accum_trans; eauto.
    + eapply congruent_trans; [exact Hsum|].
      rewrite (sum_Accum_insert _ _ _ _ Hvk), (sum_VotingPower_same _ _ Hf1).
      cbn [Accum v1 with_Accum].
      destruct (congruent_wrap (Accum v - t)) as [k1 H1].
      destruct (total_of_congruent vs) as [k2 H2].
      unfold Int64.sub. rewrite H1, Ht, H2. exists (k1 - k2). lia.
Qed.

(** Members of distinct addresses are distinct objects. *)
Lemma deref_NoDup st ps vs :
  deref st ps = Some vs -> NoDup (map Address vs) -> NoDup ps.
Proof.
  intros Hd Hn. apply NoDup_alt. intros i j p Hi Hj.
  destruct (deref_lookup _ _ _ _ _ Hd Hi) as (v & Hvi & Hv).
  destruct (deref_lookup _ _ _ _ _ Hd Hj) as (w & Hwj & Hw).
  assert (w = v) as -> by congruence.
  apply (NoDup_lookup _ i j (Address v) Hn); now apply map_Address_lookup.
Qed.

(** X9: [IncrementAccum] faults exactly when it is asked for one round
    or more on a set without members; on every other set with live
    members, and for every [times], it returns. *)
Theorem IncrementAccum_faults_iff_empty (st : Store) (valSet : ValidatorSet)
    (vs : list Validator) (times : Z) :
  deref st (Validators valSet) = Some vs ->
  IncrementAccum times valSet st = None
  <-> Validators valSet = [] /\ 1 <= times.
Proof.
  intros Hd. unfold IncrementAccum, IncrementAccum_push.
  destruct (Validators valSet) as [|p ps] eqn:EV.
  - cbn [Mfold]. mnorm. destruct (Z.to_nat times) as [|n] eqn:En.
    + cbn. split; [discriminate|]. lia.
    + cbn. split; [|reflexivity]. intros _. split; [reflexivity|lia].
  - rewrite <- EV in *.
    destruct (IncrementAccum_push_fold times (Validators valSet)
                (Validators valSet) Heap.NewHeap st)
      as (h & st1 & Hpush & Hc1 & Hw & Hl); auto.
    { intros q Hq. eapply deref_elem; eauto. }
    { constructor. }
    destruct (only_Accum_changed_deref _ _ _ _ _ Hc1 Hd) as (vs1 & Hd1 & _).
    assert (Hne1 : h <> []).
    { destruct h; [|congruence]. rewrite EV in Hl. cbn in Hl. lia. }
    destruct (IncrementAccum_loop_proposer (Z.to_nat times) (Int64.sub times 1)
                0 valSet h st1 vs1 Hd1 Hne1 Hw)
      as (s2 & h2 & st2 & Hloop & _).
    mstep Hpush. mstep Hloop. rewrite EV. split; [discriminate|].
    intros [? _]. discriminate.
Qed.

(** X10: on a set with members, [IncrementAccum] with [times] between 1
    and the greatest machine integer leaves in the proposer cache a
    member of the set; with [times <= 0] it selects nothing: the set,
    with both caches, is returned as it was.  In both cases the slice
    of members is the same. *)
Theorem IncrementAccum_sets_proposer (st : Store) (valSet : ValidatorSet)
    (vs : list Validator) (times : Z) :
  deref st (Validators valSet) = Some vs ->
  Validators valSet <> [] ->
  exists valSet' st',
    IncrementAccum times valSet st = Some (valSet', st')
    /\ Validators valSet' = Validators valSet
    /\ (1 <= times <= Int64.max_signed ->
        exists p, proposer valSet' = Some p /\ p ∈ Validators valSet'
                  /\ is_Some (st' !! p))
    /\ (times <= 0 -> valSet' = valSet).
Proof.
  intros Hd Hne.
  destruct (IncrementAccum_push_fold times (Validators valSet)
              (Validators valSet) Heap.NewHeap st)
    as (h & st1 & Hpush & Hc1 & Hw & Hl); auto.
  { intros q Hq. eapply deref_elem; eauto. }
  { constructor. }
  destruct (only_Accum_changed_deref _ _ _ _ _ Hc1 Hd) as (vs1 & Hd1 & _).
  assert (Hne1 : h <> []).
  { destruct h; [|congruence]. destruct (Validators valSet); [congruence|].
    cbn in Hl. lia. }
  destruct (IncrementAccum_loop_spec (Z.to_nat times) (Int64.sub times 1)
              0 valSet h st1 vs1 Hd1 Hne1 Hw)
    as (s2 & h2 & st2 & Hloop & Hv2 & Hc2 & _).
  destruct (IncrementAccum_loop_proposer (Z.to_nat times) (Int64.sub times 1)
              0 valSet h st1 vs1 Hd1 Hne1 Hw)
    as (s2' & h2' & st2' & Hloop' & _ & Hset & _).
  rewrite Hloop in Hloop'. injection Hloop' as <- <- <-.
  exists s2, st2. splits.
  - unfold IncrementAccum, IncrementAccum_push. mstep Hpush. now mstep Hloop.
  - exact Hv2.
  - intros Hrange. destruct Hset as (p & Hp & Hin).
    { unfold Int64.sub. rewrite wrap_small.
      - lia.
      - unfold Int64.in_range, Int64.min_signed, Int64.max_signed in *. lia. }
    exists p. splits; [exact Hp|now rewrite Hv2|].
    destruct (only_Accum_changed_deref _ _ _ _ _ Hc2 Hd1) as (vs2 & Hd2 & _).
    eapply deref_elem; eauto.
  - intros Hle. replace (Z.to_nat times) with 0%nat in Hloop by lia.
    cbn in Hloop. now injection Hloop as <- _ _.
Qed.

(** X11: the rotation moves priority around without creating any: on a
    set with members of distinct addresses and a cache that is zero or
    the total, [IncrementAccum] with [times >= 0] leaves the sum of the
    members' accums as it was, up to the wrap-around of the machine
    integer; the sums are equal when both fit the machine integer. *)
Theorem IncrementAccum_conserves_accum (st : Store) (valSet : ValidatorSet)
    (vs : list Validator) (times : Z) :
  deref st (Validators valSet) = Some vs ->
  NoDup (map Address vs) ->
  Validators valSet <> [] ->
  cache_consistent valSet vs ->
  0 <= times ->
  exists valSet' st' vs',
    IncrementAccum times valSet st = Some (valSet', st')
    /\ deref st' (Validators valSet') = Some vs'
    /\ Forall2 same_but_Accum vs vs'
    /\ Int64.wrap (sum_Accum vs') = Int64.wrap (sum_Accum vs)
    /\ (Int64.in_range (sum_Accum vs) -> Int64.in_range (sum_Accum vs') ->
        sum_Accum vs' = sum_Accum vs).
Proof.
  intros Hd Hnd Hne Hcache Htimes.
  pose proof (deref_NoDup _ _ _ Hd Hnd) as Hn.
  destruct (IncrementAccum_push_fold times (Validators valSet)
              (Validators valSet) Heap.NewHeap st)
    as (h & st1 & Hpush & Hc1 & Hw & Hl); auto.
  { intros q Hq. eapply deref_elem; eauto. }
  { constructor. }
  destruct (IncrementAccum_push_sum times (Validators valSet) Hn
              (Validators valSet) Heap.NewHeap st vs vs Hd Hd)
    as (h' & st1' & vs1 & Hpush' & Hd1 & Hf1 & Hsum1); auto.
  rewrite Hpush in Hpush'. injection Hpush' as <- <-.
  assert (Hne1 : h <> []).
  { destruct h; [|congruence]. destruct (Validators valSet); [congruence|].
    cbn in Hl. lia. }
  destruct (IncrementAccum_loop_spec (Z.to_nat times) (Int64.sub times 1)
              0 valSet h st1 vs1 Hd1 Hne1 Hw)
    as (s2 & h2 & st2 & Hloop & Hv2 & _).
  destruct (IncrementAccum_loop_sum (Z.to_nat times) (Int64.sub times 1)
              0 valSet h st1 vs1 Hd1 Hn Hne1 Hw)
    as (s2' & h2' & st2' & vs2 & Hloop' & Hd2 & Hf2 & Hsum2).
  { apply (cache_consistent_same _ vs _ Hf1), Hcache. }
  rewrite Hloop in Hloop'. injection Hloop' as <- <- <-.
  assert (Hcong : congruent (sum_Accum vs2) (sum_Accum vs)).
  { eapply congruent_trans; [exact Hsum2|].
    destruct Hsum1 as [k Hk]. rewrite Hk, (sum_VotingPower_same _ _ Hf1).
    exists k. rewrite Z2Nat.id by lia. lia. }
  exists s2, st2, vs2. splits.
  - unfold IncrementAccum, IncrementAccum_push. mstep Hpush. now mstep Hloop.
  - now rewrite Hv2.
  - eapply Forall2_same_but_Accum_trans; eauto.
  - now apply congruent_wrap_eq.
  - intros Hr Hr'. apply congruent_wrap_eq in Hcong.
    now rewrite !wrap_small in Hcong.
Qed.
End Rotation.

(** ** Concrete runs of the rotation *)

(** One round on the set without members. *)
Lemma IncrementAccum_faults_iff_empty_witness :
  IncrementAccum 1 (mkValidatorSet [] None 0) Example.four_store = None
  <-> Validators (mkValidatorSet [] None 0) = [] /\ 1 <= 1.
Proof.
  apply (IncrementAccum_faults_iff_empty Example.four_store
           (mkValidatorSet [] None 0) [] 1).
  reflexivity.
Defined.

(** Three rounds on the set of four. *)
Lemma IncrementAccum_sets_proposer_witness :
  exists valSet' st',
    IncrementAccum 3 Example.four_set Example.four_store = Some (valSet', st')
    /\ Validators valSet' = Validators Example.four_set
    /\ (1 <= 3 <= Int64.max_signed ->
        exists p, proposer valSet' = Some p /\ p ∈ Validators valSet'
                  /\ is_Some (st' !! p))
    /\ (3 <= 0 -> valSet' = Example.four_set).
Proof.
  apply (IncrementAccum_sets_proposer Example.four_store Example.four_set
           Example.four 3).
  - reflexivity.
  - discriminate.
Defined.

Lemma IncrementAccum_conserves_accum_witness :
  exists valSet' st' vs',
    IncrementAccum 3 Example.four_set Example.four_store = Some (valSet', st')
    /\ deref st' (Validators valSet') = Some vs'
    /\ Forall2 same_but_Accum Example.four vs'
    /\ Int64.wrap (sum_Accum vs') = Int64.wrap (sum_Accum Example.four)
    /\ (Int64.in_range (sum_Accum Example.four) ->
        Int64.in_range (sum_Accum vs') ->
        sum_Accum vs' = sum_Accum Example.four).
Proof.
  apply (IncrementAccum_conserves_accum Example.four_store Example.four_set
           Example.four 3).
  - reflexivity.
  - apply StronglySorted_addr_NoDup, four_sorted.
  - discriminate.
  - left. reflexivity.
  - lia.
Defined.

(** ** The caches after membership changes *)

Section Caches.
Local Open Scope nat_scope.

Lemma apply_op_consistent st valSet vs op :
  deref st (Validators valSet) = Some vs ->
  StronglySorted addr_lt (map Address vs) ->
  cache_consistent valSet vs ->
  exists valSet' st' vs',
    apply_op op valSet st = Some (valSet', st')
    /\ deref st' (Validators valSet') = Some vs'
    /\ StronglySorted addr_lt (map Address vs')
    /\ cache_consistent valSet' vs'.
Proof.
  intros Hd Hs Hc. destruct op as [val|val|address]; cbn [apply_op].
  - destruct (Add_run _ _ _ val Hd Hs)
      as [[_ Hrun]|(_ & r & Hr & Hlo & Hhi & Hrun)].
    + exists valSet, (st ++ [val]), vs. splits; auto.
      * now mstep Hrun.
      * now apply deref_app.
    + eexists _, _, (take r vs ++ val :: drop r vs). splits.
      * now mstep Hrun.
      * apply deref_insert_at; [now apply deref_app|apply lookup_alloc].
      * rewrite map_app. cbn [map]. rewrite <- firstn_map, <- skipn_map.
        now apply StronglySorted_insert_at.
      * now left.
  - destruct (Update_run _ _ _ val Hd Hs)
      as [[_ Hrun]|(i & old & Hi & Ha & Hrun)].
    + exists valSet, st, vs. splits; auto. now mstep Hrun.
    + eexists _, _, (<[i := val]> vs). splits.
      * now mstep Hrun.
      * cbn [snd Validators invalidate]. apply deref_Forall2, Forall2_insert.
        -- apply deref_Forall2. now apply deref_app.
        -- rewrite lookup_app_r by lia.
           now rewrite Nat.sub_succ_l, Nat.sub_diag by lia.
      * change (map Address (<[i:=val]> vs)) with (Address <$> <[i:=val]> vs).
        rewrite list_fmap_insert, list_insert_id; [exact Hs|].
        rewrite <- Ha. now apply map_Address_lookup.
      * now left.
  - destruct (Remove_run _ _ _ address Hd Hs)
      as [[_ Hrun]|(i & p & v & Hp & Hpv & Hv & Ha & Hrun)].
    + exists valSet, st, vs. splits; auto. now mstep Hrun.
    + eexists _, _, (delete i vs). splits.
      * now mstep Hrun.
      * cbn [snd Validators invalidate]. now apply deref_delete.
      * rewrite delete_take_drop, map_app, <- firstn_map, <- skipn_map.
        now apply StronglySorted_delete_at.
      * now left.
Qed.

(** X12: the total voting power is never stale after membership
    changes: from a sorted set whose cache is zero or the total of its
    members, after every sequence of [Add], [Update] and [Remove] calls
    [TotalVotingPower()] returns the (wrapped) sum of the voting powers
    of the members the set has then, and leaves that value in the cache
    without touching the store. *)
Theorem TotalVotingPower_after_mutations (ops : list Op) (st : Store)
    (valSet : ValidatorSet) (vs : list Validator) :
  deref st (Validators valSet) = Some vs ->
  StronglySorted addr_lt (map Address vs) ->
  cache_consistent valSet vs ->
  exists valSet' st' vs',
    run_ops ops valSet st = Some (valSet', st')
    /\ deref st' (Validators valSet') = Some vs'
    /\ TotalVotingPower valSet' st'
       = Some ((total_of vs', with_totalVotingPower valSet' (total_of vs')), st').
Proof.
  revert st valSet vs. induction ops as [|op ops IH]; intros st valSet vs Hd Hs Hc.
  - exists valSet, st, vs. splits; auto.
    rewrite (TotalVotingPower_eq _ _ _ Hd). now rewrite cache_consistent_value.
  - destruct (apply_op_consistent _ _ _ op Hd Hs Hc)
      as (s1 & st1 & vs1 & Hop & Hd1 & Hs1 & Hc1).
    destruct (IH _ _ _ Hd1 Hs1 Hc1) as (s2 & st2 & vs2 & Hrun & Hd2 & Ht).
    exists s2, st2, vs2. splits; auto.
    unfold run_ops. cbn [Mfold]. mstep Hop. exact Hrun.
Qed.
End Caches.

(** ** The linear scan of Proposer *)

Section ProposerScan.
Local Open Scope Z_scope.

Lemma precedes_trans a b c : precedes a b -> precedes b c -> precedes a c.
Proof.
  unfold precedes. intros [H1|[H1 A1]] [H2|[H2 A2]]; try (left; lia).
  right. split; [lia|]. exact (addr_lt_trans _ _ _ A1 A2).
Qed.

(** The comparison of two validators of distinct addresses returns the
    one that precedes the other. *)
Lemma Validator_CompareAccum_eq st a b va vb :
  st !! a = Some va -> st !! b = Some vb -> Address va <> Address vb ->
  exists c,
    Validator_CompareAccum (Some a) b st = Some (c, st)
    /\ ((c = a /\ precedes va vb) \/ (c = b /\ precedes vb va)).
Proof.
  intros Ha Hb Hne. unfold Validator_CompareAccum.
  mstep (load_eq _ _ _ Ha). mstep (load_eq _ _ _ Hb).
  pose proof (bytes_Compare_range (Address va) (Address vb)) as Hr.
  pose proof (bytes_Compare_antisym (Address va) (Address vb)) as Hanti.
  assert (H0 : bytes_Compare (Address va) (Address vb) <> 0)
    by (now rewrite bytes_Compare_eq).
  unfold precedes.
  destruct (Z.ltb_spec (Accum vb) (Accum va)); [exists a; auto|].
  destruct (Z.ltb_spec (Accum va) (Accum vb)); [exists b; auto|].
  destruct (Z.ltb_spec (bytes_Compare (Address va) (Address vb)) 0).
  - exists a. split; [reflexivity|]. left. split; [reflexivity|].
    right. split; lia.
  - destruct (Z.ltb_spec 0 (bytes_Compare (Address va) (Address vb))); [|lia].
    exists b. split; [reflexivity|]. right. split; [reflexivity|].
    right. split; lia.
Qed.
(** The scan from a candidate [b] over the pointers [qs]: the result
    precedes the candidate and every validator scanned. *)
Lemma Proposer_scan st :
  forall qs valSet b vb ws,
    proposer valSet = Some b -> st !! b = Some vb ->
    deref st qs = Some ws ->
    NoDup (map Address (vb :: ws)) ->
    exists valSet' b' vb',
      Mfold (fun vs val =>
               p <- Validator_CompareAccum (proposer vs) val ;;
               Mret (with_proposer vs (Some p))) valSet qs st
      = Some (valSet', st)
      /\ Validators valSet' = Validators valSet
      /\ totalVotingPower valSet' = totalVotingPower valSet
      /\ proposer valSet' = Some b'
      /\ st !! b' = Some vb'
      /\ (b' = b \/ b' ∈ qs)
      /\ (forall w, w ∈ vb :: ws -> w = vb' \/ precedes vb' w).
Proof.
  induction qs as [|q qs IH]; intros valSet b vb ws Hb Hvb Hd Hn.
  - cbn in Hd. injection Hd as <-. exists valSet, b, vb. splits; auto.
    intros w Hw. apply list_elem_of_singleton in Hw. now left.
  - apply deref_cons_inv in Hd as (w & ws' & -> & Hq & Hqs).
    cbn [map] in Hn. apply NoDup_cons in Hn as [Hvb_out Hn].
    apply NoDup_cons in Hn as Hn'. destruct Hn' as [Hw_out Hn'].
    assert (Hne : Address vb <> Address w).
    { intros E. apply Hvb_out. rewrite E. left. }
    destruct (Validator_CompareAccum_eq st b q vb w Hvb Hq Hne)
      as (c & Hcmp & Hc).
    cbn [Mfold]. rewrite Hb.
    destruct Hc as [[-> Hpre]|[-> Hpre]].
    + destruct (IH (with_proposer valSet (Some b)) b vb ws' eq_refl Hvb Hqs)
        as (s' & b' & vb' & Hfold & Hv & Ht & Hp & Hvb' & Hin & Hmax).
      { cbn [map]. apply NoDup_cons. split; [|exact Hn'].
        intros Hx. apply Hvb_out. now right. }
      exists s', b', vb'. splits; auto.
      * mstep Hcmp. exact Hfold.
      * destruct Hin as [->|Hin]; [now left|right; now right].
      * intros x Hx. apply elem_of_cons in Hx as [->|Hx]; [apply Hmax; left|].
        apply elem_of_cons in Hx as [->|Hx]; [|apply Hmax; now right].
        destruct (Hmax vb ltac:(left)) as [<-|Hvb'vb]; [now right|].
        right. eapply precedes_trans; eauto.
    + destruct (IH (with_proposer valSet (Some q)) q w ws' eq_refl Hq Hqs Hn)
        as (s' & b' & vb' & Hfold & Hv & Ht & Hp & Hvb' & Hin & Hmax).
      exists s', b', vb'. splits; auto.
      * mstep Hcmp. exact Hfold.
      * right. destruct Hin as [->|Hin]; [left|now right].
      * intros x Hx. apply elem_of_cons in Hx as [->|Hx]; [|now apply Hmax].
        destruct (Hmax w ltac:(left)) as [<-|Hvb'w]; [now right|].
        right. eapply precedes_trans; eauto.
Qed.

(** X13: on a set whose members have distinct addresses and whose
    proposer cache is empty, [Proposer()] returns nil when there is no
    member, and otherwise scans the members: it leaves in the cache the
    member that has the greatest accum and, among those of the greatest
    accum, the smallest address, and returns a freshly allocated copy of
    it, never the member itself. *)
Theorem Proposer_selects_maximum (st : Store) (valSet : ValidatorSet)
    (vs : list Validator) :
  deref st (Validators valSet) = Some vs ->
  NoDup (map Address vs) ->
  proposer valSet = None ->
  (Validators valSet = [] /\ Proposer valSet st = Some ((None, valSet), st))
  \/ (exists p v valSet',
        Proposer valSet st = Some ((Some (length st), valSet'), st ++ [v])
        /\ proposer valSet' = Some p
        /\ Validators valSet' = Validators valSet
        /\ totalVotingPower valSet' = totalVotingPower valSet
        /\ p ∈ Validators valSet
        /\ st !! p = Some v
        /\ (forall w, w ∈ vs -> w = v \/ precedes v w)).
Proof.
  intros Hd Hn Hnone. unfold Proposer.
  destruct (Validators valSet) as [|q qs] eqn:EV.
  - left. auto.
  - right. cbn [length Nat.eqb]. rewrite Hnone.
    apply deref_cons_inv in Hd as (w & ws & -> & Hq & Hqs).
    cbn [Mfold]. rewrite Hnone. cbn [Validator_CompareAccum]. mnorm.
    destruct (Proposer_scan st qs (with_proposer valSet (Some q)) q w ws
                eq_refl Hq Hqs Hn)
      as (s' & b' & vb' & Hfold & Hv & Ht & Hp & Hvb' & Hin & Hmax).
    exists b', vb', s'. splits; auto.
    + mstep Hfold. rewrite Hp. unfold Validator_Copy.
      mstep (load_eq _ _ _ Hvb'). reflexivity.
    + rewrite Hv. cbn. exact EV.
    + destruct Hin as [->|Hin]; [left|now right].
Qed.
End ProposerScan.

(** ** Concrete runs of the caches and the scan *)

Lemma TotalVotingPower_after_mutations_witness :
  exists valSet' st' vs',
    run_ops Example.ops Example.four_set Example.four_store = Some (valSet', st')
    /\ deref st' (Validators valSet') = Some vs'
    /\ TotalVotingPower valSet' st'
       = Some ((total_of vs', with_totalVotingPower valSet' (total_of vs')), st').
Proof.
  apply (TotalVotingPower_after_mutations Example.ops Example.four_store
           Example.four_set Example.four).
  - reflexivity.
  - repeat constructor.
  - left. reflexivity.
Defined.

(** The scan of the four validators after one rotation, with the cache
    cleared: the accums are -3, 1, 1 and 1. *)
Lemma Proposer_selects_maximum_witness :
  (Validators Example.four_set = []
   /\ Proposer Example.four_set Example.rotated
      = Some ((None, Example.four_set), Example.rotated))
  \/ (exists p v valSet',
        Proposer Example.four_set Example.rotated
        = Some ((Some (length Example.rotated), valSet'), Example.rotated ++ [v])
        /\ proposer valSet' = Some p
        /\ Validators valSet' = Validators Example.four_set
        /\ totalVotingPower valSet' = totalVotingPower Example.four_set
        /\ p ∈ Validators Example.four_set
        /\ Example.rotated !! p = Some v
        /\ (forall w, w ∈ Example.rotated -> w = v \/ precedes v w)).
Proof.
  apply (Proposer_selects_maximum Example.rotated Example.four_set Example.rotated).
  - reflexivity.
  - apply StronglySorted_addr_NoDup. repeat constructor.
  - reflexivity.
Defined.

(** ** Copies *)

Section Copies.
Local Open Scope nat_scope.

Lemma Mmap_Validator_Copy ps :
  forall st vs,
    deref st ps = Some vs ->
    Mmap Validator_Copy ps st = Some (seq (length st) (length vs), st ++ vs).
Proof.
  induction ps as [|p ps IH]; intros st vs Hd.
  - cbn in Hd. injection Hd as <-. cbn. now rewrite app_nil_r.
  - apply deref_cons_inv in Hd as (v & vs' & -> & Hp & Hps).
    cbn [Mmap]. unfold Validator_Copy at 1.
    mstep (load_eq _ _ _ Hp).
    mstep (eq_refl : alloc v st = Some (length st, st ++ [v])).
    mstep (IH (st ++ [v]) vs' (deref_app _ [v] _ _ Hps)).
    rewrite length_app, Nat.add_1_r, <- app_assoc. reflexivity.
Qed.

Lemma Copy_run st valSet vs :
  deref st (Validators valSet) = Some vs ->
  Copy valSet st
  = Some ({| Validators := seq (length st) (length vs);
             proposer := proposer valSet;
             totalVotingPower := totalVotingPower valSet |}, st ++ vs).
Proof.
  intros Hd. unfold Copy. now mstep (Mmap_Validator_Copy _ _ _ Hd).
Qed.

(** Objects outside the slice a rotation works on are read back as
    they were. *)
Lemma deref_outside ps st st' qs :
  only_Accum_changed ps st st' ->
  (forall q, q ∈ qs -> q ∉ ps) ->
  deref st' qs = deref st qs.
Proof.
  intros (_ & _ & Hout). induction qs as [|q qs IH]; intros Hq; [reflexivity|].
  unfold deref in *. cbn [mapM].
  rewrite (Hout q) by (apply Hq; left).
  rewrite IH; [reflexivity|]. intros x Hx. apply Hq. now right.
Qed.

(** On a set with members the rotation returns, for every [times], and
    changes the accum of members only. *)
Lemma IncrementAccum_runs st valSet vs times :
  deref st (Validators valSet) = Some vs ->
  Validators valSet <> [] ->
  exists valSet' st',
    IncrementAccum times valSet st = Some (valSet', st')
    /\ Validators valSet' = Validators valSet
    /\ only_Accum_changed (Validators valSet) st st'
    /\ (cache_consistent valSet vs -> cache_consistent valSet' vs).
Proof.
  intros Hd Hne.
  destruct (IncrementAccum_push_fold times (Validators valSet)
              (Validators valSet) Heap.NewHeap st)
    as (h & st1 & Hpush & Hc1 & Hw & Hl); auto.
  { intros q Hq. eapply deref_elem; eauto. }
  { constructor. }
  destruct (only_Accum_changed_deref _ _ _ _ _ Hc1 Hd) as (vs1 & Hd1 & Hf1).
  assert (Hne1 : h <> []).
  { destruct h; [|congruence]. destruct (Validators valSet); [congruence|].
    cbn in Hl. lia. }
  destruct (IncrementAccum_loop_spec (Z.to_nat times) (Int64.sub times 1)
              0 valSet h st1 vs1 Hd1 Hne1 Hw)
    as (s2 & h2 & st2 & Hloop & Hv2 & Hc2 & _ & Hk2).
  exists s2, st2. splits.
  - unfold IncrementAccum, IncrementAccum_push. mstep Hpush. now mstep Hloop.
  - exact Hv2.
  - apply (only_Accum_changed_trans _ _ _ _ Hc1 Hc2).
  - intros Hk. apply (cache_consistent_same _ vs1 vs).
    + clear -Hf1. induction Hf1 as [|? ? ? ? (Ha & Hp & Hv)]; constructor; auto.
      repeat split; congruence.
    + apply Hk2, (cache_consistent_same _ vs vs1 Hf1), Hk.
Qed.

(** X14: [Copy] gives the copy members of its own: freshly allocated
    objects with the values of the original's members, in the same
    order, and the same cached total.  A rotation of the original
    afterwards does not change the members of the copy, and a rotation
    of the copy does not change the members of the original. *)
Theorem Copy_members_independent (st : Store) (valSet : ValidatorSet)
    (vs : list Validator) (times : Z) :
  deref st (Validators valSet) = Some vs ->
  Validators valSet <> [] ->
  exists copy st1,
    Copy valSet st = Some (copy, st1)
    /\ deref st1 (Validators copy) = Some vs
    /\ deref st1 (Validators valSet) = Some vs
    /\ (forall p, p ∈ Validators copy -> p ∉ Validators valSet)
    /\ totalVotingPower copy = totalVotingPower valSet
    /\ (exists valSet2 st2,
          IncrementAccum times valSet st1 = Some (valSet2, st2)
          /\ deref st2 (Validators copy) = Some vs)
    /\ (exists copy2 st2,
          IncrementAccum times copy st1 = Some (copy2, st2)
          /\ deref st2 (Validators valSet) = Some vs).
Proof.
  intros Hd Hne. pose proof (deref_length _ _ _ Hd) as Hlen.
  eexists _, _. split; [apply (Copy_run _ _ _ Hd)|].
  cbn [Validators totalVotingPower].
  pose proof (deref_fresh vs st) as Hdc.
  pose proof (deref_app st vs _ _ Hd) as Hdo.
  assert (Hdisj : forall p, p ∈ seq (length st) (length vs) ->
                            p ∉ Validators valSet).
  { intros p Hp Hin. apply elem_of_seq in Hp.
    destruct (deref_elem _ _ _ _ Hd Hin) as [v Hv].
    apply lookup_lt_Some in Hv. lia. }
  splits; auto.
  - destruct (IncrementAccum_runs _ _ _ times Hdo Hne)
      as (s2 & st2 & Hrun & _ & Hc & _).
    exists s2, st2. split; [exact Hrun|].
    rewrite (deref_outside _ _ _ _ Hc Hdisj). exact Hdc.
  - destruct (IncrementAccum_runs (st ++ vs)
                {| Validators := seq (length st) (length vs);
                   proposer := proposer valSet;
                   totalVotingPower := totalVotingPower valSet |} vs times Hdc)
      as (s2 & st2 & Hrun & _ & Hc & _).
    { cbn [Validators]. destruct vs; [|discriminate].
      destruct (Validators valSet); [congruence|discriminate]. }
    exists s2, st2. split; [exact Hrun|].
    rewrite (deref_outside _ _ _ _ Hc); [exact Hdo|].
    intros q Hq Hin. exact (Hdisj q Hin Hq).
Qed.
End Copies.

Section CopyDigest.
Context `{Collaborators}.
Local Open Scope nat_scope.

Lemma Hash_eq st valSet vs :
  deref st (Validators valSet) = Some vs ->
  Hash valSet st
  = Some (match vs with
          | [] => None
          | _ :: _ => Some (SimpleHashFromHashables vs)
          end, st).
Proof.
  intros Hd. pose proof (deref_length _ _ _ Hd) as Hlen. unfold Hash.
  destruct (Validators valSet) as [|p ps] eqn:EV.
  - destruct vs; [reflexivity|discriminate].
  - destruct vs as [|v vs']; [discriminate|].
    cbn [length Nat.eqb]. now mstep (Mmap_load _ _ _ Hd).
Qed.

(** X15: [Hash] and [JSONBytes] read the members only: [Hash] returns
    nil exactly on the set without members and otherwise the Merkle
    hash of the members' values in their order, [JSONBytes] marshals
    those values, neither changes the store, and a copy of the set has
    the same hash and the same serialisation as the original. *)
Theorem Copy_keeps_Hash_and_JSON (st : Store) (valSet : ValidatorSet)
    (vs : list Validator) :
  deref st (Validators valSet) = Some vs ->
  exists copy st1 h,
    Copy valSet st = Some (copy, st1)
    /\ Hash valSet st = Some (h, st)
    /\ Hash copy st1 = Some (h, st1)
    /\ (h = None <-> Validators valSet = [])
    /\ (Validators valSet <> [] -> h = Some (SimpleHashFromHashables vs))
    /\ JSONBytes valSet st = Some (json_Marshal vs, st)
    /\ JSONBytes copy st1 = Some (json_Marshal vs, st1).
Proof.
  intros Hd. pose proof (deref_length _ _ _ Hd) as Hlen.
  pose proof (deref_fresh vs st) as Hdc.
  eexists _, _, _. split; [apply (Copy_run _ _ _ Hd)|].
  split; [apply (Hash_eq _ _ _ Hd)|].
  split; [apply (Hash_eq _ _ vs); exact Hdc|].
  splits.
  - destruct vs, (Validators valSet); try discriminate; split; congruence.
  - destruct vs, (Validators valSet); try discriminate; congruence.
  - unfold JSONBytes. now mstep (Mmap_load _ _ _ Hd).
  - unfold JSONBytes. cbn [Validators]. now mstep (Mmap_load _ _ _ Hdc).
Qed.
End CopyDigest.

(** ** VerifyCommit: what it leaves alone, and which error it reports *)

Section VerifyFrame.
Context `{Collaborators}.
Variables (chainID : string) (blockID : BlockID) (height : Z).
Local Open Scope nat_scope.

Lemma VerifyCommit_slot_copies round st valSet vs idx v precommit t :
  deref st (Validators valSet) = Some vs -> vs !! idx = Some v ->
  exists ext,
    VerifyCommit_slot chainID blockID height round valSet idx precommit t st
    = Some (slot_outcome chainID blockID height round v idx precommit t,
            st ++ ext)
    /\ (ext = [] \/ ext = [v]).
Proof.
  intros Hd Hv. unfold VerifyCommit_slot, slot_outcome.
  destruct precommit as [pc|]; [|exists []; now rewrite app_nil_r; auto].
  destruct (negb (Height (Data pc) =? height)%Z);
    [exists []; now rewrite app_nil_r; auto|].
  destruct (negb (Round (Data pc) =? round)%Z);
    [exists []; now rewrite app_nil_r; auto|].
  destruct (negb (VoteType_eqb (Type_ (Data pc)) VoteType_Precommit));
    [exists []; now rewrite app_nil_r; auto|].
  exists [v]. split; [|now right].
  mstep (GetByIndex_eq _ _ _ _ _ Hd Hv).
  mstep (load_eq (st ++ [v]) (length st) v (lookup_alloc st v)).
  destruct (negb (VerifyBytes _ _ _)); [reflexivity|].
  destruct (negb (BlockID_Equals _ _)); reflexivity.
Qed.

Lemma VerifyCommit_loop_copies round valSet vs precommits :
  forall st idx t,
    deref st (Validators valSet) = Some vs ->
    length precommits = length (drop idx vs) ->
    exists ext,
      VerifyCommit_loop chainID blockID height round valSet idx precommits t st
      = Some (loop_outcome chainID blockID height round (drop idx vs) idx
                precommits t, st ++ ext)
      /\ Forall (fun x => x ∈ vs) ext
      /\ length ext <= length precommits.
Proof.
  induction precommits as [|pc pcs IH]; intros st idx t Hd Hlen.
  - exists []. rewrite app_nil_r. cbn. splits; auto.
    now destruct (drop idx vs).
  - destruct (drop idx vs) as [|v rest] eqn:Edrop; [discriminate|].
    assert (Hv : vs !! idx = Some v).
    { rewrite <- (Nat.add_0_r idx), <- lookup_drop, Edrop. reflexivity. }
    assert (Hrest : drop (S idx) vs = rest).
    { rewrite <- (Nat.add_1_r idx), <- drop_drop, Edrop. reflexivity. }
    destruct (VerifyCommit_slot_copies round st valSet vs idx v pc t Hd Hv)
      as (ext & Hslot & Hext).
    assert (Hin : Forall (fun x => x ∈ vs) ext /\ length ext <= 1).
    { destruct Hext as [->| ->]; cbn; split; auto.
      repeat constructor. eapply list_elem_of_lookup_2, Hv. }
    destruct Hin as [Hin Hle].
    cbn [VerifyCommit_loop loop_outcome]. mstep Hslot.
    destruct (slot_outcome _ _ _ _ _ _ _ _) as [err|t'].
    + exists ext. splits; auto. cbn [length]. lia.
    + destruct (IH (st ++ ext) (S idx) t' (deref_app _ ext _ _ Hd))
        as (ext' & Hloop & Hin' & Hle').
      { rewrite Hrest. cbn in Hlen. lia. }
      exists (ext ++ ext'). rewrite Hloop, Hrest, app_assoc. splits; auto.
      * now apply Forall_app.
      * rewrite length_app. cbn [length]. lia.
Qed.

(** X16: for every commit and every set with live members,
    [VerifyCommit] returns, with or without an error, and is read-only
    up to the cache of the total: the members and the proposer cache
    are as before, the total cache is as before or, when it was zero,
    holds the total of the members, every object of the store is
    untouched, and the objects allocated are copies of members, at most
    one for each slot. *)
Theorem VerifyCommit_frame (st : Store) (valSet : ValidatorSet)
    (vs : list Validator) (commit : CommitCache) :
  deref st (Validators valSet) = Some vs ->
  exists err valSet' ext,
    VerifyCommit chainID blockID height commit valSet st
    = Some ((err, valSet'), st ++ ext)
    /\ Validators valSet' = Validators valSet
    /\ proposer valSet' = proposer valSet
    /\ (totalVotingPower valSet' = totalVotingPower valSet
        \/ (totalVotingPower valSet = 0%Z
            /\ totalVotingPower valSet' = total_of vs))
    /\ deref (st ++ ext) (Validators valSet') = Some vs
    /\ Forall (fun x => x ∈ vs) ext
    /\ length ext <= length vs.
Proof.
  intros Hd. pose proof (deref_length _ _ _ Hd) as Hvs.
  unfold VerifyCommit, Size.
  destruct (Nat.eqb_spec (length (Validators valSet)) (length (Precommits commit)))
    as [Hlen|Hlen]; cbn [negb].
  2:{ exists (Some (ErrWrongSetSize (length (Validators valSet))
                      (length (Precommits commit)))), valSet, [].
      rewrite app_nil_r. splits; auto. cbn [length]. lia. }
  destruct (Z.eqb_spec height (commit_Height commit)) as [Hh|Hh]; cbn [negb].
  2:{ exists (Some (ErrWrongHeight height (commit_Height commit))), valSet, [].
      rewrite app_nil_r. splits; auto. cbn [length]. lia. }
  destruct (VerifyCommit_loop_copies (commit_Round commit) valSet vs
              (Precommits commit) st 0 0%Z Hd) as (ext & Hloop & Hin & Hle).
  { rewrite drop_0. lia. }
  cbn [drop] in Hloop. pose proof (deref_app _ ext _ _ Hd) as Hd'.
  mstep Hloop.
  destruct (loop_outcome _ _ _ _ _ _ _ _) as [err|t].
  { exists (Some err), valSet, ext. splits; auto. lia. }
  mstep (TotalVotingPower_eq _ _ _ Hd').
  assert (Hcache :
    totalVotingPower (with_totalVotingPower valSet (TotalVotingPower_value valSet vs))
    = totalVotingPower valSet
    \/ (totalVotingPower valSet = 0%Z
        /\ totalVotingPower
             (with_totalVotingPower valSet (TotalVotingPower_value valSet vs))
           = total_of vs)).
  { cbn [totalVotingPower with_totalVotingPower]. unfold TotalVotingPower_value.
    destruct (Z.eqb_spec (totalVotingPower valSet) 0); auto. }
  destruct (_ <? t)%Z.
  { eexists None, _, ext. splits; [reflexivity| | | | | |]; auto. lia. }
  assert (Hd'' : deref (st ++ ext)
                   (Validators (with_totalVotingPower valSet
                                  (TotalVotingPower_value valSet vs))) = Some vs)
    by exact Hd'.
  mstep (TotalVotingPower_eq _ _ _ Hd'').
  rewrite TotalVotingPower_value_cached.
  eexists (Some _), _, ext. splits; [reflexivity| | | | | |]; auto. lia.
Qed.

Lemma loop_outcome_first_offence round vs precommits :
  forall idx t i v pc,
    Forall2 (fun v pc => precommit_passes chainID height round v pc = true)
            (take i vs) (take i precommits) ->
    vs !! i = Some v -> precommits !! i = Some (Some pc) ->
    precommit_passes chainID height round v (Some pc) = false ->
    loop_outcome chainID blockID height round vs idx precommits t
    = inl (if negb (Height (Data pc) =? height)%Z
           then ErrWrongHeight height (Height (Data pc))
           else if negb (Round (Data pc) =? round)%Z
           then ErrWrongRound round (Round (Data pc))
           else if negb (VoteType_eqb (Type_ (Data pc)) VoteType_Precommit)
           then ErrNotPrecommit (idx + i)
           else ErrInvalidSignature pc).
Proof.
  revert precommits.
  induction vs as [|w vs IH];
    intros [|qc pcs] idx t i v pc Hpass Hv Hpc Hfail; try discriminate.
  cbn [loop_outcome]. destruct i as [|i]; cbn in Hv, Hpc.
  - injection Hv as ->. injection Hpc as ->.
    cbn [slot_outcome precommit_passes] in *. rewrite Nat.add_0_r.
    destruct (Height (Data pc) =? height)%Z; [|reflexivity].
    destruct (Round (Data pc) =? round)%Z; [|reflexivity].
    destruct (VoteType_eqb (Type_ (Data pc)) VoteType_Precommit); [|reflexivity].
    cbn [andb negb] in *. now rewrite Hfail.
  - cbn in Hpass. apply Forall2_cons in Hpass as [Hq Hpass].
    assert (Hslot : exists t', slot_outcome chainID blockID height round w idx qc t
                               = inr t').
    { destruct qc as [qc|]; cbn [slot_outcome precommit_passes] in *; [|eauto].
      apply andb_prop in Hq as [Hq Hs4]. apply andb_prop in Hq as [Hq Hs3].
      apply andb_prop in Hq as [Hs1 Hs2].
      rewrite Hs1, Hs2, Hs3, Hs4. cbn [negb].
      destruct (negb _); eauto. }
    destruct Hslot as (t' & ->).
    rewrite (IH pcs (S idx) t' i v pc Hpass Hv Hpc Hfail).
    now rewrite Nat.add_succ_comm.
Qed.

(** X17: when the commit has one slot per member and the height asked
    for, the error reported is that of the first slot, in index order,
    that is present and fails a check, and within that slot the checks
    come in the order height, round, type, signature; the index of the
    slot is reported for a wrong type.  The set is returned as it was:
    the cache of the total is not filled on this path. *)
Theorem VerifyCommit_first_offence (st : Store) (valSet : ValidatorSet)
    (vs : list Validator) (commit : CommitCache) (i : nat) (v : Validator)
    (pc : Vote) :
  deref st (Validators valSet) = Some vs ->
  length (Precommits commit) = length vs ->
  commit_Height commit = height ->
  Forall2 (fun v pc =>
             precommit_passes chainID height (commit_Round commit) v pc = true)
          (take i vs) (take i (Precommits commit)) ->
  vs !! i = Some v ->
  Precommits commit !! i = Some (Some pc) ->
  precommit_passes chainID height (commit_Round commit) v (Some pc) = false ->
  exists ext,
    VerifyCommit chainID blockID height commit valSet st
    = Some ((Some (if negb (Height (Data pc) =? height)%Z
                   then ErrWrongHeight height (Height (Data pc))
                   else if negb (Round (Data pc) =? commit_Round commit)%Z
                   then ErrWrongRound (commit_Round commit) (Round (Data pc))
                   else if negb (VoteType_eqb (Type_ (Data pc)) VoteType_Precommit)
                   then ErrNotPrecommit i
                   else ErrInvalidSignature pc), valSet), st ++ ext).
Proof.
  intros Hd Hlen Hh Hpass Hv Hpc Hfail.
  destruct (VerifyCommit_decides chainID blockID height st valSet vs commit
              Hd Hlen Hh) as (ext & Hrun).
  exists ext. rewrite Hrun.
  now rewrite (loop_outcome_first_offence _ _ _ 0 0%Z i v pc Hpass Hv Hpc Hfail).
Qed.
End VerifyFrame.

(** ** Concrete runs of the copies and of VerifyCommit *)

Lemma Copy_members_independent_witness :
  exists copy st1,
    Copy Example.four_set Example.four_store = Some (copy, st1)
    /\ deref st1 (Validators copy) = Some Example.four
    /\ deref st1 (Validators Example.four_set) = Some Example.four
    /\ (forall p, p ∈ Validators copy -> p ∉ Validators Example.four_set)
    /\ totalVotingPower copy = totalVotingPower Example.four_set
    /\ (exists valSet2 st2,
          IncrementAccum 2 Example.four_set st1 = Some (valSet2, st2)
          /\ deref st2 (Validators copy) = Some Example.four)
    /\ (exists copy2 st2,
          IncrementAccum 2 copy st1 = Some (copy2, st2)
          /\ deref st2 (Validators Example.four_set) = Some Example.four).
Proof.
  apply (Copy_members_independent Example.four_store Example.four_set
           Example.four 2).
  - reflexivity.
  - discriminate.
Defined.

Lemma Copy_keeps_Hash_and_JSON_witness :
  exists copy st1 h,
    Copy Example.four_set Example.four_store = Some (copy, st1)
    /\ Hash Example.four_set Example.four_store = Some (h, Example.four_store)
    /\ Hash copy st1 = Some (h, st1)
    /\ (h = None <-> Validators Example.four_set = [])
    /\ (Validators Example.four_set <> [] ->
        h = Some (SimpleHashFromHashables Example.four))
    /\ JSONBytes Example.four_set Example.four_store
       = Some (json_Marshal Example.four, Example.four_store)
    /\ JSONBytes copy st1 = Some (json_Marshal Example.four, st1).
Proof.
  apply (Copy_keeps_Hash_and_JSON Example.four_store Example.four_set Example.four).
  reflexivity.
Defined.

(** The commit of three precommits, checked against the set of four. *)
Lemma VerifyCommit_frame_witness :
  exists err valSet' ext,
    VerifyCommit Example.chain (Example.block x0a) 7 Example.commit3
      Example.four_set Example.four_store
    = Some ((err, valSet'), Example.four_store ++ ext)
    /\ Validators valSet' = Validators Example.four_set
    /\ proposer valSet' = proposer Example.four_set
    /\ (totalVotingPower valSet' = totalVotingPower Example.four_set
        \/ (totalVotingPower Example.four_set = 0
            /\ totalVotingPower valSet' = total_of Example.four))
    /\ deref (Example.four_store ++ ext) (Validators valSet') = Some Example.four
    /\ Forall (fun x => x ∈ Example.four) ext
    /\ (length ext <= length Example.four)%nat.
Proof.
  apply (VerifyCommit_frame Example.chain (Example.block x0a) 7
           Example.four_store Example.four_set Example.four Example.commit3).
  reflexivity.
Defined.

(** The commit whose third slot holds a vote with a signature that does
    not verify; the two slots before it pass. *)
Lemma VerifyCommit_first_offence_witness :
  exists ext,
    VerifyCommit Example.chain (Example.block x0a) 7 Example.commit_mixed
      Example.four_set Example.four_store
    = Some ((Some (if negb (Height (Data (Example.forged x03 (Example.block x0b)))
                            =? 7)
                   then ErrWrongHeight 7
                          (Height (Data (Example.forged x03 (Example.block x0b))))
                   else if negb (Round (Data (Example.forged x03 (Example.block x0b)))
                                 =? commit_Round Example.commit_mixed)
                   then ErrWrongRound (commit_Round Example.commit_mixed)
                          (Round (Data (Example.forged x03 (Example.block x0b))))
                   else if negb (VoteType_eqb
                                   (Type_ (Data (Example.forged x03
                                                   (Example.block x0b))))
                                   VoteType_Precommit)
                   then ErrNotPrecommit 2
                   else ErrInvalidSignature
                          (Example.forged x03 (Example.block x0b))),
             Example.four_set), Example.four_store ++ ext).
Proof.
  apply (VerifyCommit_first_offence Example.chain (Example.block x0a) 7
           Example.four_store Example.four_set Example.four Example.commit_mixed
           2 (Example.val x03 1 0) (Example.forged x03 (Example.block x0b))).
  - reflexivity.
  - reflexivity.
  - reflexivity.
  - repeat constructor.
  - reflexivity.
  - reflexivity.
  - vm_compute. reflexivity.
Defined.

(** ** Iterate *)

Section Iteration.
Local Open Scope nat_scope.

Lemma Iterate_loop_marks f g ps :
  forall i st vs,
    deref st ps = Some vs ->
    Iterate_loop (marking_callback f g) i ps st
    = Some (tt, st ++ Iterate_marks f g i vs).
Proof.
  induction ps as [|p ps IH]; intros i st vs Hd.
  - cbn in Hd. injection Hd as <-. cbn. now rewrite app_nil_r.
  - apply deref_cons_inv in Hd as (v & vs' & -> & Hp & Hps).
    cbn [Iterate_loop Iterate_marks]. unfold Validator_Copy, marking_callback.
    mstep (load_eq _ _ _ Hp).
    mstep (eq_refl : alloc v st = Some (length st, st ++ [v])).
    mstep (load_eq _ _ _ (lookup_alloc st v)).
    mstep (set_Accum_eq _ _ _ (g i v) (lookup_alloc st v)).
    assert (Hst : <[length st := with_Accum v (g i v)]> (st ++ [v])
                  = st ++ [with_Accum v (g i v)]).
    { rewrite insert_app_r_alt, Nat.sub_diag by lia. reflexivity. }
    rewrite Hst. destruct (f i v).
    + reflexivity.
    + pose proof (IH (S i) (st ++ [with_Accum v (g i v)]) vs'
                    (deref_app _ _ _ _ Hps)) as Hrest.
      unfold marking_callback in Hrest. rewrite Hrest.
      now rewrite <- app_assoc.
Qed.

(** X18: [Iterate] calls the callback on the members in index order,
    from index 0, with the index and a freshly allocated copy of the
    member, and stops after the first call that returns true: a callback
    that marks the object it is handed leaves exactly the marked copies
    of the members visited, in order, and the members themselves are
    not marked. *)
Theorem Iterate_visits_copies_in_order (st : Store) (valSet : ValidatorSet)
    (vs : list Validator) (f : nat -> Validator -> bool)
    (g : nat -> Validator -> Z) :
  deref st (Validators valSet) = Some vs ->
  Iterate (marking_callback f g) valSet st
  = Some (tt, st ++ Iterate_marks f g 0 vs)
  /\ deref (st ++ Iterate_marks f g 0 vs) (Validators valSet) = Some vs.
Proof.
  intros Hd. split.
  - apply Iterate_loop_marks, Hd.
  - now apply deref_app.
Qed.

Lemma Iterate_loop_confined n0 fn ps :
  confined n0 fn ->
  forall i st,
    n0 <= length st ->
    (forall p, p ∈ ps -> p < n0) ->
    (forall p, p ∈ ps -> is_Some (st !! p)) ->
    exists st',
      Iterate_loop fn i ps st = Some (tt, st')
      /\ length st <= length st'
      /\ forall q, q < n0 -> st' !! q = st !! q.
Proof.
  intros Hfn. induction ps as [|p ps IH]; intros i st Hn0 Hlow Hlive.
  - exists st. splits; auto.
  - destruct (Hlive p ltac:(left)) as [v Hp].
    destruct (Hfn i (length st) (st ++ [v])) as (b & st1 & Hcall & Hlen1 & Hsame1).
    { rewrite length_app. cbn [length]. lia. }
    rewrite length_app in Hlen1. cbn [length] in Hlen1.
    assert (Hkeep : forall q, q < n0 -> st1 !! q = st !! q).
    { intros q Hq. rewrite (Hsame1 q Hq). apply lookup_app_l. lia. }
    cbn [Iterate_loop]. unfold Validator_Copy.
    mstep (load_eq _ _ _ Hp).
    mstep (eq_refl : alloc v st = Some (length st, st ++ [v])).
    mstep Hcall. destruct b.
    + exists st1. splits; auto. lia.
    + destruct (IH (S i) st1) as (st2 & Hloop & Hlen2 & Hsame2).
      * lia.
      * intros q Hq. apply Hlow. now right.
      * intros q Hq. rewrite Hkeep by (apply Hlow; now right).
        apply Hlive. now right.
      * exists st2. splits; [exact Hloop|lia|].
        intros q Hq. now rewrite (Hsame2 q Hq), (Hkeep q Hq).
Qed.

(** X19: the callback of [Iterate] is never handed a member: for every
    callback that confines itself to the objects allocated since the
    call began (the copies it is handed among them), whatever it writes
    to them, [Iterate] returns and every object that existed before the
    call, and so every member of the set, is as it was. *)
Theorem Iterate_protects_members (st : Store) (valSet : ValidatorSet)
    (vs : list Validator) (fn : nat -> ptr -> M bool) :
  deref st (Validators valSet) = Some vs ->
  confined (length st) fn ->
  exists st',
    Iterate fn valSet st = Some (tt, st')
    /\ take (length st) st' = st
    /\ deref st' (Validators valSet) = Some vs.
Proof.
  intros Hd Hfn.
  assert (Hlive : forall p, p ∈ Validators valSet -> is_Some (st !! p)).
  { intros p Hp. eapply deref_elem; eauto. }
  destruct (Iterate_loop_confined (length st) fn (Validators valSet) Hfn 0 st)
    as (st' & Hrun & Hlen & Hsame); auto.
  { intros p Hp. apply lookup_lt_is_Some, Hlive, Hp. }
  exists st'. splits; [exact Hrun| |].
  - apply list_eq. intros q. destruct (decide (q < length st)) as [Hq|Hq].
    + rewrite lookup_take_lt by exact Hq. now apply Hsame.
    + rewrite lookup_take_ge by lia. symmetry. apply lookup_ge_None. lia.
  - apply deref_Forall2. apply deref_Forall2 in Hd.
    eapply Forall2_impl; [exact Hd|]. intros p v Hp. cbn beta.
    rewrite Hsame; [exact Hp|]. eapply lookup_lt_Some, Hp.
Qed.

Lemma marking_callback_confined n0 f g : confined n0 (marking_callback f g).
Proof.
  intros i c st [Hlo Hhi].
  destruct (lookup_lt_is_Some_2 st c Hhi) as [v Hv].
  exists (f i v), (<[c := with_Accum v (g i v)]> st). splits.
  - unfold marking_callback. mstep (load_eq _ _ _ Hv).
    now mstep (set_Accum_eq _ _ _ (g i v) Hv).
  - now rewrite length_insert.
  - intros q Hq. apply list_lookup_insert_ne. lia.
Qed.
End Iteration.

(** ** Concrete runs of Iterate *)

(** The callback writes the index to the accum of the copy and stops at
    index 1: two copies are left, marked 0 and 1. *)
Lemma Iterate_visits_copies_in_order_witness :
  Iterate (marking_callback (fun i _ => (i =? 1)%nat) (fun i _ => Z.of_nat i))
    Example.four_set Example.four_store
  = Some (tt, Example.four_store
              ++ Iterate_marks (fun i _ => (i =? 1)%nat) (fun i _ => Z.of_nat i)
                   0 Example.four)
  /\ deref (Example.four_store
            ++ Iterate_marks (fun i _ => (i =? 1)%nat) (fun i _ => Z.of_nat i)
                 0 Example.four)
       (Validators Example.four_set)
     = Some Example.four.
Proof.
  apply (Iterate_visits_copies_in_order Example.four_store Example.four_set
           Example.four).
  reflexivity.
Defined.

(** A callback that sets the accum of every copy to 7 and never stops. *)
Lemma Iterate_protects_members_witness :
  exists st',
    Iterate (marking_callback (fun _ _ => false) (fun _ _ => 7))
      Example.four_set Example.four_store
    = Some (tt, st')
    /\ take (length Example.four_store) st' = Example.four_store
    /\ deref st' (Validators Example.four_set) = Some Example.four.
Proof.
  apply (Iterate_protects_members Example.four_store Example.four_set
           Example.four).
  - reflexivity.
  - apply marking_callback_confined.
Defined.

(** ** The constructor *)

Section Constructor.
Local Open Scope nat_scope.

(** One round of the rotation on a set with members. *)
Lemma IncrementAccum_once st valSet vs :
  deref st (Validators valSet) = Some vs ->
  Validators valSet <> [] ->
  exists valSet' st' vs',
    IncrementAccum 1 valSet st = Some (valSet', st')
    /\ Validators valSet' = Validators valSet
    /\ deref st' (Validators valSet') = Some vs'
    /\ Forall2 same_but_Accum vs vs'
    /\ (exists p, proposer valSet' = Some p /\ p ∈ Validators valSet')
    /\ (cache_consistent valSet vs -> cache_consistent valSet' vs').
Proof.
  intros Hd Hne.
  destruct (IncrementAccum_push_fold 1 (Validators valSet)
              (Validators valSet) Heap.NewHeap st)
    as (h & st1 & Hpush & Hc1 & Hw & Hl); auto.
  { intros q Hq. eapply deref_elem; eauto. }
  { constructor. }
  destruct (only_Accum_changed_deref _ _ _ _ _ Hc1 Hd) as (vs1 & Hd1 & Hf1).
  assert (Hne1 : h <> []).
  { destruct h; [|congruence]. destruct (Validators valSet); [congruence|].
    cbn in Hl. lia. }
  destruct (IncrementAccum_loop_spec (Z.to_nat 1) (Int64.sub 1 1)
              0 valSet h st1 vs1 Hd1 Hne1 Hw)
    as (s2 & h2 & st2 & Hloop & Hv2 & Hc2 & _ & Hk2).
  destruct (IncrementAccum_loop_proposer (Z.to_nat 1) (Int64.sub 1 1)
              0 valSet h st1 vs1 Hd1 Hne1 Hw)
    as (s2' & h2' & st2' & Hloop' & _ & Hset & _).
  rewrite Hloop in Hloop'. injection Hloop' as <- <- <-.
  destruct (only_Accum_changed_deref _ _ _ _ _ Hc2 Hd1) as (vs2 & Hd2 & Hf2).
  exists s2, st2, vs2. splits.
  - unfold IncrementAccum, IncrementAccum_push. mstep Hpush. now mstep Hloop.
  - exact Hv2.
  - now rewrite Hv2.
  - eapply Forall2_same_but_Accum_trans; eauto.
  - destruct Hset as (p & Hp & Hin).
    { replace (Int64.sub 1 1) with 0%Z by reflexivity. cbn. lia. }
    exists p. split; [exact Hp|now rewrite Hv2].
  - intros Hk. apply (cache_consistent_same _ vs1 vs2 Hf2), Hk2.
    apply (cache_consistent_same _ vs vs1 Hf1), Hk.
Qed.

(** X20: [NewValidatorSet] on a slice that is not nil faults when the
    slice is empty; on validators of pairwise distinct addresses it
    otherwise returns a set that is strictly sorted by address, whose
    members are copies of the validators given, each exactly once and
    up to the accum the first rotation gives them, with a member in the
    proposer cache and a total cache that is zero or the total. *)
Theorem NewValidatorSet_establishes_invariant (vals : list Validator)
    (st : Store) :
  NoDup (map Address vals) ->
  (vals = [] /\ NewValidatorSet (Some vals) st = None)
  \/ (vals <> []
      /\ exists valSet st' vs,
           NewValidatorSet (Some vals) st = Some (valSet, st')
           /\ sorted_unique st' valSet
           /\ deref st' (Validators valSet) = Some vs
           /\ (exists vl, Permutation vals vl /\ Forall2 same_but_Accum vl vs)
           /\ Size valSet = length vals
           /\ (exists p, proposer valSet = Some p /\ p ∈ Validators valSet)
           /\ cache_consistent valSet vs).
Proof.
  intros Hn. destruct vals as [|v0 vals0].
  { left. split; [reflexivity|apply NewValidatorSet_empty_faults]. }
  right. split; [discriminate|].
  remember (v0 :: vals0) as vals eqn:Evals.
  destruct (genValidatorSet_spec vals st) as (l' & vl' & Hgen & Hd & Hperm & Hs).
  assert (Hlen : length l' = length vals).
  { rewrite <- (deref_length _ _ _ Hd). symmetry. now apply Permutation_length. }
  assert (Hne : Validators (invalidate l') <> []).
  { cbn [Validators invalidate]. intros ->. rewrite Evals in Hlen.
    discriminate. }
  destruct (IncrementAccum_once (st ++ vals) (invalidate l') vl' Hd Hne)
    as (s2 & st2 & vs2 & Hrun & Hv2 & Hd2 & Hf2 & Hprop & Hcache).
  exists s2, st2, vs2. splits; auto.
  - unfold NewValidatorSet. now mstep Hgen.
  - apply (sorted_unique_intro _ _ vs2 Hd2).
    rewrite (same_but_Accum_addresses _ _ Hf2).
    apply StronglySorted_le_NoDup; [exact Hs|].
    now rewrite <- (Permutation_map Address Hperm).
  - exists vl'. auto.
  - unfold Size. now rewrite Hv2.
  - apply Hcache. now left.
Qed.
End Constructor.

Lemma NewValidatorSet_establishes_invariant_witness :
  (Example.shuffled = []
   /\ NewValidatorSet (Some Example.shuffled) [] = None)
  \/ (Example.shuffled <> []
      /\ exists valSet st' vs,
           NewValidatorSet (Some Example.shuffled) [] = Some (valSet, st')
           /\ sorted_unique st' valSet
           /\ deref st' (Validators valSet) = Some vs
           /\ (exists vl, Permutation Example.shuffled vl
                          /\ Forall2 same_but_Accum vl vs)
           /\ Size valSet = length Example.shuffled
           /\ (exists p, proposer valSet = Some p /\ p ∈ Validators valSet)
           /\ cache_consistent valSet vs).
Proof.
  apply (NewValidatorSet_establishes_invariant Example.shuffled []).
  cbn. repeat constructor; rewrite ?elem_of_cons, ?elem_of_nil;
    intros H; repeat (destruct H as [H|H]; try discriminate H); exact H.
Defined.
